(** * ScrapperTV: the protocol transport and the pagination engine

    A shallow embedding of [connection.ts] (framing codec, session manager,
    event dispatcher; the file kept as [unnamed/part_006]) and of
    [candles.ts] (pagination engine; [getCandles] and [getCandlesMultiple],
    with the declarations of [types.ts]), followed by the properties proved
    about them.  Line numbers are those of these two files.

    Conventions of the embedding.
    - A JavaScript string whose length matters (a wire text) is the list of
      its UTF-16 code units; names that are only compared are [string]s.
    - A closure's captured variables become a record; a callback becomes a
      function from that record to the new record plus the effects it had.
    - An exception is a constructor of the result, carrying the state reached
      when it was raised: JavaScript does not roll mutations back.
    - Numbers that the code only copies or compares are integers ([Z]); the
      reconnect delay, which multiplies by 1.5, is an exact rational ([Q]). *)

From Stdlib Require Import String Ascii ZArith NArith QArith Qminmax Qpower List
  Bool Lia Sorted Permutation DecimalNat.
Import ListNotations.
Local Open Scope Z_scope.
Local Open Scope list_scope.

(** ** Part I. The embedding *)

(* ------------------------------------------------------------------ *)
(** *** JavaScript values used by both files *)

Module Js.

(** The state of a promise. *)
Inductive Promise (A : Type) : Type :=
| Pending
| Fulfilled (a : A)
| Rejected (message : string).
Arguments Pending {A}.
Arguments Fulfilled {A} a.
Arguments Rejected {A} message.

(** How a call ends: normally, or by an exception that leaves the callee
    with the state [a] it had reached. *)
Inductive Completion (A : Type) : Type :=
| Normal (a : A)
| Throw (a : A).
Arguments Normal {A} a.
Arguments Throw {A} a.

Definition stateOf {A} (c : Completion A) : A :=
  match c with Normal a => a | Throw a => a end.

Definition isThrow {A} (c : Completion A) : bool :=
  match c with Normal _ => false | Throw _ => true end.

(** Truthiness of an optional number: [undefined] and [0] are falsy. *)
Definition truthy (o : option Z) : bool :=
  match o with
  | Some z => negb (z =? 0)
  | None => false
  end.

(** [Map<K, V>]: entries in insertion order; [set] on a key already
    present replaces the value where the entry stands. *)
Definition JsMap (K V : Type) : Type := list (K * V).

Section Map.
Context {K V : Type} (eqb : K -> K -> bool).

Fixpoint set (k : K) (x : V) (m : JsMap K V) : JsMap K V :=
  match m with
  | [] => [(k, x)]
  | (k', y) :: m' =>
      if eqb k k' then (k, x) :: m' else (k', y) :: set k x m'
  end.

Fixpoint get (k : K) (m : JsMap K V) : option V :=
  match m with
  | [] => None
  | (k', y) :: m' => if eqb k k' then Some y else get k m'
  end.

Definition keys (m : JsMap K V) : list K := map fst m.
Definition values (m : JsMap K V) : list V := map snd m.
End Map.

(** [Array.prototype.sort(compare)]: a stable sort; [compare a b <= 0]
    keeps [a] before [b].  Written as the insertion sort that every stable
    sort agrees with. *)
Section Sort.
Context {A : Type} (compare : A -> A -> Z).

Fixpoint insert (x : A) (l : list A) : list A :=
  match l with
  | [] => [x]
  | y :: l' => if compare x y <=? 0 then x :: y :: l' else y :: insert x l'
  end.

Definition sort (l : list A) : list A := fold_right insert [] l.
End Sort.

(** [Array.prototype.slice(start)] for an integer [start]. *)
Definition slice {A} (start : Z) (l : list A) : list A :=
  let len := Z.of_nat (length l) in
  let k := if start <? 0 then Z.max (len + start) 0 else Z.min start len in
  skipn (Z.to_nat k) l.

End Js.

Import Js.

(* ------------------------------------------------------------------ *)
(** *** types.ts *)

Module Types.

(** [RawCandle = { i, v }] with [v = [timestamp, open, high, low, close,
    volume]].  The array is kept as its first element [v0] and the rest:
    [v[0]] keys the deduplication and the sort, so a bar without it is
    outside the wire shape. *)
Record RawCandle : Type := mkRawCandle {
  i : Z;
  v0 : Z;
  vrest : list Z
}.

(** [c.v[k]], [undefined] past the end. *)
Definition v (c : RawCandle) (k : nat) : option Z :=
  nth_error (v0 c :: vrest c) k.

(** The text [new Date(ms).toISOString()] returns, kept as the instant it
    prints; see [Candles.toISOString] for the instants that have one. *)
Inductive IsoString : Type := ISO (ms : Z).

Record Candle : Type := mkCandle {
  timestamp : Z;
  datetime : IsoString;
  open : option Z;
  high : option Z;
  low : option Z;
  close : option Z;
  volume : Z
}.

Inductive Timeframe : Type :=
| TF1 | TF3 | TF5 | TF15 | TF30 | TF45 | TF60 | TF120 | TF180 | TF240
| TF1D | TF1W | TF1M.

(** The values an event or a command carries in [params: unknown[]], as
    the handlers cast them: a string, a number, or the object
    [Record<string, { s: RawCandle[] }>] (an entry whose [s] is no array
    is [None]). *)
Inductive Param : Type :=
| PStr (s : string)
| PNum (n : Z)
| PSeries (series : list (string * option (list RawCandle)))
| PSymbol (symbol : string)
    (* '=' + JSON.stringify({ symbol, adjustment: 'splits' }) *)
| POther.

(** Lines 219-222 of connection.ts: [{ name: eventData.m, params:
    eventData.p }].  A frame without [p] gives an event whose [params] is
    [undefined]: [None]. *)
Record TradingViewEvent : Type := mkEvent {
  name : string;
  params : option (list Param)
}.

(** The arguments of one [connection.send(name, params)]. *)
Record Command : Type := mkCommand {
  cmdName : string;
  cmdParams : list Param
}.

Record GetCandlesParams : Type := mkParams {
  symbol : string;
  timeframe : option Timeframe;
  amount : option Z;
  from : option Z;
  to : option Z
}.

End Types.

Import Types.

(* ------------------------------------------------------------------ *)
(** *** connection.ts: the framing codec *)

Module Codec.

(** A wire text: the UTF-16 code units of a JavaScript string. *)
Definition jsstring : Type := list N.

(** An ASCII literal of the source. *)
Definition lit (s : string) : jsstring := map N_of_ascii (list_ascii_of_string s).

Fixpoint eqb (a b : jsstring) : bool :=
  match a, b with
  | [], [] => true
  | x :: a', y :: b' => (x =? y)%N && eqb a' b'
  | _, _ => false
  end.

Fixpoint digits (d : Decimal.uint) : jsstring :=
  match d with
  | Decimal.Nil => []
  | Decimal.D0 d => 48%N :: digits d
  | Decimal.D1 d => 49%N :: digits d
  | Decimal.D2 d => 50%N :: digits d
  | Decimal.D3 d => 51%N :: digits d
  | Decimal.D4 d => 52%N :: digits d
  | Decimal.D5 d => 53%N :: digits d
  | Decimal.D6 d => 54%N :: digits d
  | Decimal.D7 d => 55%N :: digits d
  | Decimal.D8 d => 56%N :: digits d
  | Decimal.D9 d => 57%N :: digits d
  end.

(** [`${n}`] for a length [n]. *)
Definition decimal (n : nat) : jsstring := digits (Nat.to_uint n).

Definition isDigit (u : N) : bool := ((48 <=? u) && (u <=? 57))%N.

Definition marker : jsstring := lit "~m~".

Fixpoint stripPrefix (p s : jsstring) : option jsstring :=
  match p, s with
  | [], _ => Some s
  | a :: p', b :: s' => if (a =? b)%N then stripPrefix p' s' else None
  | _ :: _, [] => None
  end.

Fixpoint dropDigits (s : jsstring) : jsstring :=
  match s with
  | c :: s' => if isDigit c then dropDigits s' else s
  | [] => []
  end.

(** The regular expression [/~m~\d+~m~/] tried at the head of [s]: what
    follows the match.  [\d+] takes every digit there is, and giving one
    back would leave a digit where [~] is wanted. *)
Definition matchMarker (s : jsstring) : option jsstring :=
  match stripPrefix marker s with
  | Some (d :: r) => if isDigit d then stripPrefix marker (dropDigits r) else None
  | _ => None
  end.

(** [String.prototype.split] with that expression: [piece] is the text
    since the last match.  A match is never empty, so [fuel] above the
    length of [s] is never used up. *)
Fixpoint splitFrom (fuel : nat) (piece s : jsstring) : list jsstring :=
  match fuel with
  | O => [piece ++ s]
  | S fuel' =>
      match s with
      | [] => [piece]
      | c :: s' =>
          match matchMarker s with
          | Some rest => piece :: splitFrom fuel' [] rest
          | None => splitFrom fuel' (piece ++ [c]) s'
          end
      end
  end.

Definition split (s : jsstring) : list jsstring := splitFrom (S (length s)) [] s.

Inductive MessageType : Type := ping | session | event.

Section Parse.
(** [JSON.parse] ([None] when it raises) and the truthiness of
    [parsed['session_id']] ([None] when reading it raises, [parsed] being
    [null]). *)
Variable Json : Type.
Variable JSON_parse : jsstring -> option Json.
Variable session_id : Json -> option bool.

(** [data: unknown]: the echo text of a ping, a parsed value, or [{}]. *)
Inductive Data : Type :=
| Text (s : jsstring)
| Parsed (j : Json)
| EmptyObject.

Record MessagePayload : Type := mkPayload {
  type : MessageType;
  data : Data
}.

(** The two [try { JSON.parse ... } catch] blocks of lines 41-50 and 54-62. *)
Definition classify (text : jsstring) : MessagePayload :=
  match JSON_parse text with
  | Some parsed =>
      match session_id parsed with
      | Some true => mkPayload session (Parsed parsed)
      | Some false => mkPayload event (Parsed parsed)
      | None => mkPayload event EmptyObject
      end
  | None => mkPayload event EmptyObject
  end.

(** Lines 33-63: the callback of [events.map]. *)
Definition decode (segment : jsstring) : MessagePayload :=
  if eqb (firstn 3 segment) (lit "~h~") then
    mkPayload ping
      (Text (lit "~m~" ++ decimal (length segment) ++ lit "~m~" ++ segment))
  else if eqb (firstn 3 segment) (lit "~j~") then classify (skipn 3 segment)
  else classify segment.

(** Lines 28-64. *)
Definition parseMessage (message : jsstring) : list MessagePayload :=
  if (length message =? 0)%nat then []
  else map decode (skipn 1 (split message)).

End Parse.

Arguments Text {Json} s.
Arguments Parsed {Json} j.
Arguments EmptyObject {Json}.
Arguments mkPayload {Json} type data.
Arguments type {Json} m.
Arguments data {Json} m.

Section Format.
(** [JSON.stringify({ m: name, p: params })]. *)
Variable JSON_stringify : string -> list Param -> jsstring.

(** Lines 69-72. *)
Definition formatMessage (name : string) (params : list Param) : jsstring :=
  let data := JSON_stringify name params in
  lit "~m~" ++ decimal (length data) ++ lit "~m~" ++ data.

End Format.

(** Vocabulary of the statements below. *)

(** The number of bytes of a text sent as UTF-8. *)
Definition isHighSurrogate (u : N) : bool := ((55296 <=? u) && (u <=? 56319))%N.
Definition isLowSurrogate (u : N) : bool := ((56320 <=? u) && (u <=? 57343))%N.

Fixpoint utf8Length (s : jsstring) : nat :=
  match s with
  | [] => O
  | u :: r =>
      if (u <? 128)%N then S (utf8Length r)
      else if (u <? 2048)%N then 2 + utf8Length r
      else if isHighSurrogate u then
        match r with
        | l :: r' => if isLowSurrogate l then 4 + utf8Length r'
                     else 3 + utf8Length r
        | [] => 3
        end
      else 3 + utf8Length r
  end.

(** The envelope of the wire format: [~m~<decimal byte length>~m~<payload>]. *)
Definition envelope (payload : jsstring) : jsstring :=
  lit "~m~" ++ decimal (utf8Length payload) ++ lit "~m~" ++ payload.

(** A frame whose length field reads [n]. *)
Definition frame (n : nat) (payload : jsstring) : jsstring :=
  lit "~m~" ++ decimal n ++ lit "~m~" ++ payload.

(** Does the text contain [~m~] followed by a digit? *)
Fixpoint hasMarker (s : jsstring) : bool :=
  match s with
  | [] => false
  | _ :: s' =>
      match stripPrefix marker s with
      | Some (d :: _) => isDigit d || hasMarker s'
      | _ => hasMarker s'
      end
  end.

(** Does the text contain a whole length marker [~m~<digits>~m~]? *)
Fixpoint containsMarker (s : jsstring) : bool :=
  match s with
  | [] => false
  | _ :: s' =>
      match matchMarker s with
      | Some _ => true
      | None => containsMarker s'
      end
  end.

(** Is the text [~m~<digits>] or [~m~<digits>~m], a length marker that the
    [~m~] of a following frame completes? *)
Definition openMarker (s : jsstring) : bool :=
  match stripPrefix marker s with
  | Some (d :: r) =>
      isDigit d && (eqb (dropDigits r) [] || eqb (dropDigits r) (lit "~m"))
  | _ => false
  end.

(** Does the text end in such an open marker? *)
Fixpoint endsOpen (s : jsstring) : bool :=
  match s with
  | [] => false
  | _ :: s' => openMarker s || endsOpen s'
  end.

(** Payloads that the frames of a chunk keep apart: none contains a whole
    length marker, and none but the last ends in an open one. *)
Fixpoint separable (payloads : list jsstring) : bool :=
  match payloads with
  | [] => true
  | payload :: rest =>
      negb (containsMarker payload)
      && match rest with
         | [] => true
         | _ :: _ => negb (endsOpen payload)
         end
      && separable rest
  end.

Definition isAscii (s : jsstring) : bool := forallb (fun u => (u <? 128)%N) s.

(** The frames of a chunk, one after the other. *)
Definition chunkOf (items : list (nat * jsstring)) : jsstring :=
  concat (map (fun it => frame (fst it) (snd it)) items).

End Codec.

(* ------------------------------------------------------------------ *)
(** *** candles.ts: one [getCandles] call *)

Module Candles.

Definition MAX_BATCH_SIZE : Z := 10000.

Definition timeframeToString (tf : Timeframe) : string :=
  match tf with
  | TF1 => "1" | TF3 => "3" | TF5 => "5" | TF15 => "15" | TF30 => "30"
  | TF45 => "45" | TF60 => "60" | TF120 => "120" | TF180 => "180"
  | TF240 => "240" | TF1D => "1D" | TF1W => "1W" | TF1M => "1M"
  end.

(** The variables captured by the closures of one call. *)
Record Fetch : Type := mkFetch {
  request : GetCandlesParams;
  chartSession : string;
  rawCandles : list RawCandle;
  resolved : bool;
  requestCount : nat;
  lastLength : nat;
  stallCount : nat;
  promise : Promise (list Candle);   (* the promise returned to the caller *)
  timeout : bool                     (* the 120 s timer is still armed *)
}.

Definition withRaw (f : Fetch) (raw : list RawCandle) : Fetch :=
  mkFetch (request f) (chartSession f) raw (resolved f) (requestCount f)
          (lastLength f) (stallCount f) (promise f) (timeout f).

(** What one callback did: the closure afterwards (under [Throw] when the
    callback raised), the commands it passed to [connection.send], and
    whether it called [unsubscribe]. *)
Record Reaction : Type := mkReaction {
  outcome : Completion Fetch;
  sends : list Command;
  unsubscribes : bool
}.

Definition stay (f : Fetch) : Reaction := mkReaction (Normal f) [] false.

(** [resolve]/[reject] settle a promise once. *)
Definition settle {A} (p new : Promise A) : Promise A :=
  match p with Pending => new | _ => p end.

(** Line 53: [params[1]?.['sds_1']?.s], when it is an array.  Reading
    [params[1]] of an event without [params] raises a [TypeError]: the outer
    [None]. *)
Definition seriesData (event : TradingViewEvent)
  : option (option (list RawCandle)) :=
  match params event with
  | None => None
  | Some ps =>
      Some (match nth_error ps 1 with
            | Some (PSeries series) =>
                match get String.eqb "sds_1"%string series with
                | Some (Some s) => Some s
                | _ => None
                end
            | _ => None
            end)
  end.

(** Lines 81-83: [uniqueCandles.set(c.v[0], c)] for each bar in array
    order, then the values sorted by [a.v[0] - b.v[0]]. *)
Definition uniqueCandles (raw : list RawCandle) : JsMap Z RawCandle :=
  fold_left (fun m c => set Z.eqb (v0 c) c m) raw [].

Definition uniqueSorted (raw : list RawCandle) : list RawCandle :=
  sort (fun a b => v0 a - v0 b) (values (uniqueCandles raw)).

(** [new Date(ms).toISOString()]: a [RangeError] ([None]) when [ms] is
    outside the range of [Date], 8.64e15 ms either side of the epoch. *)
Definition toISOString (ms : Z) : option IsoString :=
  if (-8640000000000000 <=? ms) && (ms <=? 8640000000000000)
  then Some (ISO ms) else None.

(** The object literal of lines 130-138, once its [datetime] is there. *)
Definition candle (c : RawCandle) (datetime : IsoString) : Candle :=
  {| timestamp := v0 c;
     datetime := datetime;
     open := v c 1;
     high := v c 2;
     low := v c 3;
     close := v c 4;
     volume := match v c 5 with
               | Some x => if x =? 0 then 0 else x
               | None => 0
               end |}.

(** Lines 130-138: the callback of [rawCandles.map]; [None] when line 132
    raises. *)
Definition toCandle (c : RawCandle) : option Candle :=
  option_map (candle c) (toISOString (v0 c * 1000)).

(** [rawCandles.map(...)]: the first bar whose date cannot be printed ends
    the map with its [RangeError]. *)
Fixpoint mapCandles (raw : list RawCandle) : option (list Candle) :=
  match raw with
  | [] => Some []
  | c :: rest =>
      match toCandle c with
      | Some b => option_map (cons b) (mapCandles rest)
      | None => None
      end
  end.

(** Lines 140-152: the filters applied to the mapped bars. *)
Definition selectCandles (p : GetCandlesParams) (l0 : list Candle)
  : list Candle :=
  let l1 := match from p with
            | Some fr => if truthy (Some fr)
                         then filter (fun c => fr <=? timestamp c) l0 else l0
            | None => l0
            end in
  let l2 := match to p with
            | Some t => if truthy (Some t)
                        then filter (fun c => timestamp c <=? t) l1 else l1
            | None => l1
            end in
  match amount p with
  | Some a => if truthy (Some a) && negb (truthy (from p))
                 && (a <? Z.of_nat (length l2))
              then slice (- a) l2 else l2
  | None => l2
  end.

(** Lines 129-152: the result handed to [resolve]; [None] when the map of
    line 130 raises. *)
Definition finalCandles (p : GetCandlesParams) (raw : list RawCandle)
  : option (list Candle) :=
  option_map (selectCandles p) (mapCandles raw).

(** Lines 98-114: the value of [needMore] at line 116. *)
Definition needMore (p : GetCandlesParams) (oldest : option RawCandle)
  (currentLength stall : nat) : bool :=
  let exceeds := match from p, oldest with
                 | Some fr, Some c => truthy (Some fr) && (fr <? v0 c)
                 | _, _ => false
                 end in
  if exceeds then negb (3 <=? stall)%nat
  else match amount p with
       | Some a => if truthy (Some a) && (Z.of_nat currentLength <? a)
                   then negb (3 <=? stall)%nat else false
       | None => false
       end.

(** Lines 101-104: is the warning of line 104 written?  It prints the date
    of the oldest bar. *)
Definition warns (p : GetCandlesParams) (oldest : option RawCandle)
  (stall : nat) : bool :=
  match from p, oldest with
  | Some fr, Some c => truthy (Some fr) && (fr <? v0 c) && (3 <=? stall)%nat
  | _, _ => false
  end.

(** [new Date(oldestCandle.v[0] * 1000).toISOString()] of lines 104 and
    118: does it return?  It raises a [TypeError] when there is no oldest
    bar and a [RangeError] when its date is out of range. *)
Definition printable (oldest : option RawCandle) : bool :=
  match oldest with
  | Some c => match toISOString (v0 c * 1000) with Some _ => true | None => false end
  | None => false
  end.

Definition isCompletion (event : TradingViewEvent) : bool :=
  existsb (String.eqb (name event)) ["series_completed"; "symbol_error"]%string.

Definition requestMoreData (session : string) : Command :=
  mkCommand "request_more_data" [PStr session; PStr "sds_1"; PNum MAX_BATCH_SIZE].

(** Lines 49-157: the subscriber registered by the call. *)
Definition onEvent (f : Fetch) (event : TradingViewEvent) : Reaction :=
  if (name event =? "timescale_update")%string then
    match seriesData event with
    | None => mkReaction (Throw f) [] false                    (* line 53 *)
    | Some (Some newCandles) =>
        stay (withRaw f (if (length (rawCandles f) =? 0)%nat
                         then newCandles
                         else newCandles ++ rawCandles f))
    | Some None => stay f
    end
  else if isCompletion event then
    let raw := uniqueSorted (rawCandles f) in
    let currentLength := length raw in
    let oldestCandle := hd_error raw in
    let stall := if (0 <? requestCount f)%nat && (currentLength =? lastLength f)%nat
                 then S (stallCount f) else O in
    if warns (request f) oldestCandle stall && negb (printable oldestCandle) then
      (* line 104, after lines 83-95 *)
      mkReaction
        (Throw (mkFetch (request f) (chartSession f) raw (resolved f)
                        (requestCount f) currentLength stall
                        (promise f) (timeout f)))
        [] false
    else if needMore (request f) oldestCandle currentLength stall then
      let f' := mkFetch (request f) (chartSession f) raw (resolved f)
                        (S (requestCount f)) currentLength stall
                        (promise f) (timeout f) in
      if printable oldestCandle
      then mkReaction (Normal f') [requestMoreData (chartSession f)] false
      else mkReaction (Throw f') [] false                      (* line 118 *)
    else
      match finalCandles (request f) raw with
      | Some bars =>
          mkReaction
            (Normal (mkFetch (request f) (chartSession f) raw true
                             (requestCount f) currentLength stall
                             (settle (promise f) (Fulfilled bars))
                             false))
            [] true
      | None =>
          (* line 132, after [resolved = true], [clearTimeout] and
             [unsubscribe()] of lines 125-127 *)
          mkReaction
            (Throw (mkFetch (request f) (chartSession f) raw true
                            (requestCount f) currentLength stall
                            (promise f) false))
            [] true
      end
  else stay f.

(** Lines 42-47: the callback of the 120 s timer. *)
Definition timeoutMessage (p : GetCandlesParams) : string :=
  ("Timeout ao buscar candles para " ++ symbol p)%string.

Definition onTimeout (f : Fetch) : Reaction :=
  if negb (resolved f) then
    mkReaction
      (Normal (mkFetch (request f) (chartSession f) (rawCandles f) (resolved f)
                       (requestCount f) (lastLength f) (stallCount f)
                       (settle (promise f) (Rejected (timeoutMessage (request f))))
                       false))
      [] true
  else
    mkReaction
      (Normal (mkFetch (request f) (chartSession f) (rawCandles f) (resolved f)
                       (requestCount f) (lastLength f) (stallCount f)
                       (promise f) false))
      [] false.

(** Lines 30-40 and 159-180: the closure as the call leaves it, and the
    three commands it sends after subscribing. *)
Definition start (p : GetCandlesParams) (session : string) : Fetch :=
  mkFetch p session [] false O O O Pending true.

Definition requestAmount (p : GetCandlesParams) : Z :=
  match amount p with
  | Some a => if truthy (Some a) then Z.min a MAX_BATCH_SIZE else MAX_BATCH_SIZE
  | None => MAX_BATCH_SIZE
  end.

Definition startCommands (p : GetCandlesParams) (session : string)
  : list Command :=
  [ mkCommand "chart_create_session" [PStr session; PStr ""];
    mkCommand "resolve_symbol" [PStr session; PStr "sds_sym_0"; PSymbol (symbol p)];
    mkCommand "create_series"
      [PStr session; PStr "sds_1"; PStr "s0"; PStr "sds_sym_0";
       PStr (timeframeToString (match timeframe p with Some tf => tf | None => TF60 end));
       PNum (requestAmount p); PStr ""] ]%string.

(** The events a subscribed call receives one after the other.  The run
    ends when the handler unsubscribes or raises; it yields the closure,
    the commands passed to [connection.send] and whether it raised. *)
Record Run : Type := mkRun {
  final : Fetch;
  sent : list Command;
  raised : bool;
  subscribed : bool
}.

Fixpoint feed (f : Fetch) (events : list TradingViewEvent) : Run :=
  match events with
  | [] => mkRun f [] false true
  | e :: rest =>
      let r := onEvent f e in
      match outcome r with
      | Throw f' => mkRun f' (sends r) true (negb (unsubscribes r))
      | Normal f' =>
          if unsubscribes r then mkRun f' (sends r) false false
          else let k := feed f' rest in
               mkRun (final k) (sends r ++ sent k) (raised k) (subscribed k)
      end
  end.

(** The bars pushed by a sequence of events, as line 65 piles them up:
    each new batch in front of the older ones. *)
Definition pile (acc : list RawCandle) (e : TradingViewEvent) : list RawCandle :=
  if (name e =? "timescale_update")%string then
    match seriesData e with Some (Some batch) => batch ++ acc | _ => acc end
  else acc.

Definition accumulated (events : list TradingViewEvent) : list RawCandle :=
  fold_left pile events [].

(** The bar standing last in [raw] among those stamped [t]. *)
Definition lastWith (t : Z) (raw : list RawCandle) : option RawCandle :=
  find (fun c => v0 c =? t) (rev raw).

Definition requestsForMore (cs : list Command) : nat :=
  length (filter (fun c => (cmdName c =? "request_more_data")%string) cs).

(** Vocabulary of the statements below. *)

(** The length the handler would observe if a completion came now. *)
Definition observedLength (f : Fetch) : nat := length (uniqueSorted (rawCandles f)).

(** The stall counter as a completion updates it (lines 90-94). *)
Definition nextStall (f : Fetch) : nat :=
  if (0 <? requestCount f)%nat && (observedLength f =? lastLength f)%nat
  then S (stallCount f) else O.

Definition wantsMore (f : Fetch) : bool :=
  needMore (request f) (hd_error (uniqueSorted (rawCandles f)))
           (observedLength f) (nextStall f).

(** What holds of the closure as long as the call is neither resolved nor
    timed out. *)
Record Inv (f : Fetch) : Prop := mkInv {
  inv_pending : promise f = Pending;
  inv_open : resolved f = false;
  inv_requested : (0 < lastLength f -> 0 < requestCount f)%nat
}.

(** No filter of lines 141-152 removes a bar of the series [raw]: every
    bar is at or after [from] and at or before [to], where these are given
    and not 0, and [amount], where it applies, is not exceeded. *)
Definition keepsAll (p : GetCandlesParams) (raw : list RawCandle) : bool :=
  match from p with
  | Some fr => negb (truthy (Some fr)) || forallb (fun c => fr <=? v0 c) raw
  | None => true
  end
  && match to p with
     | Some t => negb (truthy (Some t)) || forallb (fun c => v0 c <=? t) raw
     | None => true
     end
  && match amount p with
     | Some a => negb (truthy (Some a)) || truthy (from p)
                 || (Z.of_nat (length raw) <=? a)
     | None => true
     end.

(** A data push for series [sds_1] addressed to [session]. *)
Definition push (session : string) (batch : list RawCandle) : TradingViewEvent :=
  mkEvent "timescale_update"
          (Some [PStr session; PSeries [("sds_1"%string, Some batch)]]).

(** A completion addressed to [session]. *)
Definition completed (session : string) : TradingViewEvent :=
  mkEvent "series_completed" (Some [PStr session; PStr "sds_1"]).

(** Is the date of the bar inside the range of [Date]? *)
Definition dated (c : RawCandle) : bool := printable (Some c).

(** The bar made of a raw bar whose date is inside the range. *)
Definition bar (c : RawCandle) : Candle := candle c (ISO (v0 c * 1000)).

(** Does a handler call on this event get past line 53? *)
Definition readable (e : TradingViewEvent) : bool :=
  negb (name e =? "timescale_update")%string
  || match params e with Some _ => true | None => false end.

End Candles.

(* ------------------------------------------------------------------ *)
(** *** connection.ts: the session manager and the event dispatcher *)

Module Connection.
Import Codec.

Inductive ReadyState : Type := CONNECTING | OPEN | CLOSING | CLOSED.

(** What [ws.send] was given: the echo of a ping, or the text
    [formatMessage(name, params)]. *)
Inductive Wire : Type :=
| Echo (text : jsstring)
| Message (name : string) (params : list Param).

(** Line 181: [Math.min(5000 * Math.pow(1.5, reconnectAttempts), 60000)].
    Below the cap every value is a dyadic rational that binary64 holds
    exactly, so the rational is the number JavaScript computes. *)
Definition reconnectDelay (reconnectAttempts : nat) : Q :=
  Qmin (5000 * (3 # 2) ^ Z.of_nat reconnectAttempts) 60000.

Section Session.
(** The state owned by the closures of the subscribers, and what the call
    of subscriber [h] does to the connection and to that state. *)
Variable Heap : Type.

(** The variables captured by the closures of [connect] (lines 136-143),
    with the two things the environment holds for them: the texts given to
    [ws.send] and the delays of the pending reconnect timers. *)
Record Conn : Type := mkConn {
  autoReconnect : bool;
  ws : option ReadyState;          (* [ws.readyState]; [None] while [ws] is null *)
  token : string;
  subscribers : list (option nat); (* the [Set], in insertion order; [None]
                                      is an entry deleted since *)
  connected : bool;
  reconnectAttempts : nat;
  manuallyClosed : bool;
  resolveConnection : bool;        (* is the resolver of [connect] still set *)
  wire : list Wire;
  reconnectTimers : list Q;
  heap : Heap
}.

Definition withWs (c : Conn) (x : option ReadyState) : Conn :=
  mkConn (autoReconnect c) x (token c) (subscribers c) (connected c)
         (reconnectAttempts c) (manuallyClosed c) (resolveConnection c)
         (wire c) (reconnectTimers c) (heap c).

Definition withSubscribers (c : Conn) (x : list (option nat)) : Conn :=
  mkConn (autoReconnect c) (ws c) (token c) x (connected c)
         (reconnectAttempts c) (manuallyClosed c) (resolveConnection c)
         (wire c) (reconnectTimers c) (heap c).

Definition withWire (c : Conn) (x : list Wire) : Conn :=
  mkConn (autoReconnect c) (ws c) (token c) (subscribers c) (connected c)
         (reconnectAttempts c) (manuallyClosed c) (resolveConnection c)
         x (reconnectTimers c) (heap c).

Definition withHeap (c : Conn) (x : Heap) : Conn :=
  mkConn (autoReconnect c) (ws c) (token c) (subscribers c) (connected c)
         (reconnectAttempts c) (manuallyClosed c) (resolveConnection c)
         (wire c) (reconnectTimers c) x.

(** Lines 230-235: [subscribers.add(handler)], and the [unsubscribe] it
    returns, [subscribers.delete(handler)]. *)
Definition isLive (h : nat) (entry : option nat) : bool :=
  match entry with Some h' => (h =? h')%nat | None => false end.

Definition subscribe (h : nat) (c : Conn) : Conn :=
  if existsb (isLive h) (subscribers c) then c
  else withSubscribers c (subscribers c ++ [Some h]).

Definition unsubscribe (h : nat) (c : Conn) : Conn :=
  withSubscribers c
    (map (fun entry => if isLive h entry then None else entry) (subscribers c)).

(** Lines 237-246. *)
Definition send (name : string) (params : list Param) (c : Conn) : Conn :=
  match ws c with
  | Some OPEN => withWire c (wire c ++ [Message name params])
  | _ => c
  end.

(** Lines 248-258; [ws.close()] starts the closing handshake of a socket
    that is not closed yet. *)
Definition close (c : Conn) : Conn :=
  mkConn (autoReconnect c)
         (match ws c with
          | Some CONNECTING | Some OPEN => Some CLOSING
          | other => other
          end)
         (token c) (subscribers c) (connected c) (reconnectAttempts c)
         true (resolveConnection c) (wire c) (reconnectTimers c) (heap c).

Definition isConnected (c : Conn) : bool := connected c.

(** Lines 145-169: [initConnection] replaces the socket by a new one;
    [fetched] is the token [getAuthToken] came back with, when a
    [sessionId] was given. *)
Definition initConnection (fetched : option string) (c : Conn) : Conn :=
  mkConn (autoReconnect c) (Some CONNECTING)
         (match fetched with Some t => t | None => token c end)
         (subscribers c) (connected c) (reconnectAttempts c)
         (manuallyClosed c) (resolveConnection c) (wire c)
         (reconnectTimers c) (heap c).

(** Lines 171-174: the listener of ['open']. *)
Definition onOpen (c : Conn) : Conn :=
  mkConn (autoReconnect c) (Some OPEN) (token c) (subscribers c) (connected c)
         O (manuallyClosed c) (resolveConnection c) (wire c)
         (reconnectTimers c) (heap c).

(** Lines 176-186: the listener of ['close']. *)
Definition onClose (c : Conn) : Conn :=
  if autoReconnect c && negb (manuallyClosed c) then
    mkConn (autoReconnect c) (Some CLOSED) (token c) (subscribers c) false
           (S (reconnectAttempts c)) (manuallyClosed c) (resolveConnection c)
           (wire c)
           (reconnectTimers c ++ [reconnectDelay (reconnectAttempts c)])
           (heap c)
  else
    mkConn (autoReconnect c) (Some CLOSED) (token c) (subscribers c) false
           (reconnectAttempts c) (manuallyClosed c) (resolveConnection c)
           (wire c) (reconnectTimers c) (heap c).

(** The callback of a reconnect timer (line 184). *)
Definition onReconnectTimer (fetched : option string) (c : Conn) : Conn :=
  initConnection fetched
    (mkConn (autoReconnect c) (ws c) (token c) (subscribers c) (connected c)
            (reconnectAttempts c) (manuallyClosed c) (resolveConnection c)
            (wire c) (tl (reconnectTimers c)) (heap c)).

Variable invoke : nat -> TradingViewEvent -> Conn -> Completion Conn.

(** Line 223: [subscribers.forEach((handler) => handler(event))].  The
    entries are visited by index in the list as it is at each step, so a
    handler deleted before its turn is skipped and one added during the
    visit is reached; an exception leaves the loop at once.  The second
    component lists the handlers that were called.  [None]: out of fuel. *)
Fixpoint forEach (fuel : nat) (event : TradingViewEvent) (index : nat) (c : Conn)
  : option (Completion Conn * list nat) :=
  match fuel with
  | O => None
  | S fuel' =>
      match nth_error (subscribers c) index with
      | None => Some (Normal c, [])
      | Some None => forEach fuel' event (S index) c
      | Some (Some h) =>
          match invoke h event c with
          | Normal c' =>
              match forEach fuel' event (S index) c' with
              | Some (r, called) => Some (r, h :: called)
              | None => None
              end
          | Throw c' => Some (Throw c', [h])
          end
      end
  end.

(** Lines 195-227: the listener of ['message'], after [parseMessage].
    [eventOf] is the cast of line 215 followed by lines 219-222. *)
Variable Json : Type.
Variable eventOf : Data Json -> TradingViewEvent.

Definition onPayload (fuel : nat) (payload : MessagePayload Json) (c : Conn)
  : option (Completion Conn * list nat) :=
  match type payload with
  | ping =>
      match data payload, ws c with
      | Text echo, Some OPEN => Some (Normal (withWire c (wire c ++ [Echo echo])), [])
      | _, _ => Some (Normal c, [])
      end
  | session =>
      let c1 := send "set_auth_token" [PStr (token c)] c in
      Some (Normal (mkConn (autoReconnect c1) (ws c1) (token c1) (subscribers c1)
                           true (reconnectAttempts c1) (manuallyClosed c1) false
                           (wire c1) (reconnectTimers c1) (heap c1)), [])
  | event => forEach fuel (eventOf (data payload)) 0 c
  end.

Fixpoint onMessage (fuel : nat) (payloads : list (MessagePayload Json)) (c : Conn)
  : option (Completion Conn * list nat) :=
  match payloads with
  | [] => Some (Normal c, [])
  | payload :: rest =>
      match onPayload fuel payload c with
      | Some (Normal c', called) =>
          match onMessage fuel rest c' with
          | Some (r, called') => Some (r, called ++ called')
          | None => None
          end
      | other => other
      end
  end.

End Session.

Arguments mkConn {Heap}.
Arguments autoReconnect {Heap} c.
Arguments ws {Heap} c.
Arguments token {Heap} c.
Arguments subscribers {Heap} c.
Arguments connected {Heap} c.
Arguments reconnectAttempts {Heap} c.
Arguments manuallyClosed {Heap} c.
Arguments resolveConnection {Heap} c.
Arguments wire {Heap} c.
Arguments reconnectTimers {Heap} c.
Arguments heap {Heap} c.
Arguments withWs {Heap} c x.
Arguments withSubscribers {Heap} c x.
Arguments withWire {Heap} c x.
Arguments withHeap {Heap} c x.
Arguments subscribe {Heap} h c.
Arguments unsubscribe {Heap} h c.
Arguments send {Heap} name params c.
Arguments close {Heap} c.
Arguments isConnected {Heap} c.
Arguments initConnection {Heap} fetched c.
Arguments onOpen {Heap} c.
Arguments onClose {Heap} c.
Arguments onReconnectTimer {Heap} fetched c.
Arguments forEach {Heap} invoke fuel event index c.
Arguments onPayload {Heap} invoke {Json} eventOf fuel payload c.
Arguments onMessage {Heap} invoke {Json} eventOf fuel payloads c.

(** The state [connect] starts from (lines 136-143), its socket created. *)
Definition fresh {Heap} (auto : bool) (h : Heap) : Conn Heap :=
  mkConn auto (Some CONNECTING) "unauthorized_user_token" [] false O false true
         [] [] h.

(** Vocabulary of the statements below: subscribers that note the event in
    a shared list, the one registered as 1 throwing once it has. *)
Definition noting (h : nat) (e : TradingViewEvent) (c : Conn (list nat))
  : Completion (Conn (list nat)) :=
  let c' := withHeap c (heap c ++ [h]) in
  if (h =? 1)%nat then Throw c' else Normal c'.

End Connection.

(* ------------------------------------------------------------------ *)
(** *** Fetches in flight over one connection *)

Module System.
Import Codec Candles Connection.

(** The closures of the [getCandles] calls in flight, each under the
    identity of the subscriber it registered. *)
Abbreviation Closures := (JsMap nat Fetch).
Abbreviation Sys := (Conn Closures).

Definition sendAll (cs : list Command) (c : Sys) : Sys :=
  fold_left (fun c cmd => send (cmdName cmd) (cmdParams cmd) c) cs c.

(** The effects of one callback of the call registered as [h]. *)
Definition react (h : nat) (r : Reaction) (c : Sys) : Completion Sys :=
  let c1 := withHeap c (set Nat.eqb h (stateOf (outcome r)) (heap c)) in
  let c2 := sendAll (sends r) c1 in
  let c3 := if unsubscribes r then unsubscribe h c2 else c2 in
  match outcome r with
  | Normal _ => Normal c3
  | Throw _ => Throw c3
  end.

(** The subscriber registered as [h]. *)
Definition handler (h : nat) (event : TradingViewEvent) (c : Sys) : Completion Sys :=
  match get Nat.eqb h (heap c) with
  | Some f => react h (onEvent f event) c
  | None => Normal c
  end.

(** candles.ts lines 30-181: a call, up to the return of its promise. *)
Definition getCandles (h : nat) (p : GetCandlesParams) (session : string) (c : Sys)
  : Sys :=
  sendAll (startCommands p session)
    (subscribe h (withHeap c (set Nat.eqb h (start p session) (heap c)))).

(** The 120 s timer of the call registered as [h] fires. *)
Definition fetchTimeout (h : nat) (c : Sys) : Sys :=
  match get Nat.eqb h (heap c) with
  | Some f => stateOf (react h (onTimeout f) c)
  | None => c
  end.

(** The promise of the call registered as [h]. *)
Definition promiseOf (h : nat) (c : Sys) : option (Promise (list Candle)) :=
  option_map promise (get Nat.eqb h (heap c)).

Section Steps.
Variable Json : Type.
Variable eventOf : Data Json -> TradingViewEvent.

(** What can happen to a connection and its fetches: an event of the
    socket, a timer, or a call by the client. *)
Inductive Input : Type :=
| WsOpen
| WsClose
| WsError
| WsMessage (payloads : list (MessagePayload Json))
| ReconnectTimer (fetched : option string)
| CallClose
| CallGetCandles (h : nat) (p : GetCandlesParams) (session : string)
| FetchTimeout (h : nat).

Inductive step : Sys -> Input -> Sys -> Prop :=
| step_open c :
    ws c = Some CONNECTING ->
    step c WsOpen (onOpen c)
| step_close c :
    ws c = Some CONNECTING \/ ws c = Some OPEN \/ ws c = Some CLOSING ->
    step c WsClose (onClose c)
| step_error c :
    (* lines 188-193: only the promise of [connect] is rejected *)
    step c WsError c
| step_message c payloads fuel r called :
    ws c = Some OPEN \/ ws c = Some CLOSING ->
    onMessage handler eventOf fuel payloads c = Some (r, called) ->
    step c (WsMessage payloads) (stateOf r)
| step_reconnect c fetched delay rest :
    reconnectTimers c = delay :: rest ->
    step c (ReconnectTimer fetched) (onReconnectTimer fetched c)
| step_call_close c :
    step c CallClose (close c)
| step_get c h p session :
    get Nat.eqb h (heap c) = None ->
    step c (CallGetCandles h p session) (getCandles h p session c)
| step_timeout c h f :
    get Nat.eqb h (heap c) = Some f -> timeout f = true ->
    step c (FetchTimeout h) (fetchTimeout h c).

Inductive steps : Sys -> list Input -> Sys -> Prop :=
| steps_nil c : steps c [] c
| steps_cons c i c' l c'' : step c i c' -> steps c' l c'' -> steps c (i :: l) c''.

End Steps.

Arguments WsOpen {Json}.
Arguments WsClose {Json}.
Arguments WsError {Json}.
Arguments WsMessage {Json} payloads.
Arguments ReconnectTimer {Json} fetched.
Arguments CallClose {Json}.
Arguments CallGetCandles {Json} h p session.
Arguments FetchTimeout {Json} h.

(** Vocabulary of the statements below. *)

(** Is the event addressed to [session]? *)
Definition addressedTo (session : string) (e : TradingViewEvent) : bool :=
  match params e with
  | Some (PStr s :: _) => (s =? session)%string
  | _ => false
  end.

(** The same event under another session identifier. *)
Definition readdress (session : string) (e : TradingViewEvent) : TradingViewEvent :=
  mkEvent (name e) (option_map (fun ps => PStr session :: tl ps) (params e)).

(** The events of a list dispatched one after the other, as long as no
    subscriber raises. *)
Fixpoint dispatchAll (fuel : nat) (events : list TradingViewEvent) (c : Sys)
  : option (Completion Sys) :=
  match events with
  | [] => Some (Normal c)
  | e :: rest =>
      match forEach handler fuel e 0 c with
      | Some (Normal c', _) => dispatchAll fuel rest c'
      | Some (Throw c', _) => Some (Throw c')
      | None => None
      end
  end.

End System.

(* ------------------------------------------------------------------ *)
(** *** candles.ts: [getCandlesMultiple] *)

Module Multiple.

(** What awaiting a promise comes to, the world having moved on: it is
    fulfilled, it is rejected, or it never settles and the function that
    awaits it never resumes. *)
Inductive Settled (A : Type) : Type :=
| Resolved (a : A)
| Failed (error : string)
| Never.
Arguments Resolved {A} a.
Arguments Failed {A} error.
Arguments Never {A}.

Section Loop.
Variable World : Type.

Definition Async (A : Type) : Type := World -> Settled A * World.

Definition ret {A} (a : A) : Async A := fun w => (Resolved a, w).

Definition bind {A B} (m : Async A) (k : A -> Async B) : Async B :=
  fun w => match m w with
           | (Resolved a, w') => k a w'
           | (Failed error, w') => (Failed error, w')
           | (Never, w') => (Never, w')
           end.

(** [try { body } catch (error) { handle }]. *)
Definition tryCatch {A} (body : Async A) (handle : string -> Async A) : Async A :=
  fun w => match body w with
           | (Resolved a, w') => (Resolved a, w')
           | (Failed error, w') => handle error w'
           | (Never, w') => (Never, w')
           end.

(** [await getCandles({ connection, symbol, timeframe, amount })]. *)
Variable getCandles : GetCandlesParams -> Async (list Candle).

Definition Results : Type := JsMap string (list Candle).

(** [for (const symbol of symbols) body], the map being the loop state. *)
Fixpoint forOf (symbols : list string) (body : string -> Results -> Async Results)
  (results : Results) : Async Results :=
  match symbols with
  | [] => ret results
  | symbol :: rest => bind (body symbol results) (forOf rest body)
  end.

(** Lines 187-211. *)
Definition getCandlesMultiple (symbols : list string)
  (timeframe : option Timeframe) (amount : option Z) : Async Results :=
  let tf := match timeframe with Some tf => tf | None => TF60 end in
  forOf symbols
    (fun symbol results =>
       tryCatch
         (bind (getCandles (mkParams symbol (Some tf) amount None None))
               (fun candles => ret (set String.eqb symbol candles results)))
         (fun error => ret (set String.eqb symbol [] results)))
    [].

(** Vocabulary of the statements below. *)

(** The calls the loop makes with what each came to, in order: a call
    that never settles is the last one. *)
Fixpoint calls (symbols : list string) (tf : Timeframe) (amount : option Z)
  (w : World) : list (string * Settled (list Candle)) :=
  match symbols with
  | [] => []
  | symbol :: rest =>
      let (o, w') := getCandles (mkParams symbol (Some tf) amount None None) w in
      (symbol, o) :: match o with
                     | Never => []
                     | _ => calls rest tf amount w'
                     end
  end.

(** Did every call of the list settle? *)
Definition settled (l : list (string * Settled (list Candle))) : bool :=
  forallb (fun x => match snd x with Never => false | _ => true end) l.

(** What the last call for [symbol] settled to. *)
Definition lastCall (symbol : string) (l : list (string * Settled (list Candle)))
  : option (Settled (list Candle)) :=
  option_map snd (find (fun x => (fst x =? symbol)%string) (rev l)).

Definition orEmpty (o : Settled (list Candle)) : list Candle :=
  match o with Resolved candles => candles | _ => [] end.

End Loop.

Arguments ret {World A} a.
Arguments bind {World A B} m k.
Arguments tryCatch {World A} body handle.
Arguments forOf {World} symbols body results.
Arguments getCandlesMultiple {World} getCandles symbols timeframe amount.
Arguments calls {World} getCandles symbols tf amount w.

End Multiple.

(* ------------------------------------------------------------------ *)
(** *** connection.ts: identifiers, the token and the promise of [connect] *)

Module Connect.
Import Codec Connection.

Definition chars : jsstring :=
  lit "abcdefghijklmnopqrstuvwxyzABCDEFGHIJKLMNOPQRSTUVWXYZ0123456789".

(** [s.charAt(i)]: the empty string past the end. *)
Definition charAt (s : jsstring) (i : nat) : jsstring :=
  match nth_error s i with
  | Some u => [u]
  | None => []
  end.

(** Lines 77-84.  [random i] is what
    [Math.floor(Math.random() * chars.length)] gives in round [i]. *)
Fixpoint randomFrom (random : nat -> nat) (i length : nat) : jsstring :=
  match length with
  | O => []
  | S n => charAt chars (random i) ++ randomFrom random (S i) n
  end.

Definition randomString (length : nat) (random : nat -> nat) : jsstring :=
  randomFrom random 0 length.

(** Lines 282-291. *)
Definition generateChartSession (random : nat -> nat) : jsstring :=
  lit "cs_" ++ randomString 12 random.

Definition generateQuoteSession (random : nat -> nat) : jsstring :=
  lit "qs_" ++ randomString 12 random.

(** Line 97: the regular expression ["auth_token":"(.+?)"].  [.] is any
    code unit but a line terminator; the lazy group takes one code unit and
    then stops at the first quote. *)
Definition isLineTerminator (u : N) : bool :=
  ((u =? 10) || (u =? 13) || (u =? 8232) || (u =? 8233))%N.

Definition authKey : jsstring := (34 :: lit "auth_token" ++ [34; 58; 34])%N.

Fixpoint untilQuote (group s : jsstring) : option jsstring :=
  match s with
  | [] => None
  | c :: rest =>
      if (c =? 34)%N then Some group
      else if isLineTerminator c then None
      else untilQuote (group ++ [c]) rest
  end.

Definition lazyGroup (s : jsstring) : option jsstring :=
  match s with
  | c :: rest => if isLineTerminator c then None else untilQuote [c] rest
  | [] => None
  end.

(** [html.match(...)]: the group of the leftmost match. *)
Fixpoint matchAuthToken (html : jsstring) : option jsstring :=
  match html with
  | [] => None
  | _ :: rest =>
      match stripPrefix authKey html with
      | Some after =>
          match lazyGroup after with
          | Some group => Some group
          | None => matchAuthToken rest
          end
      | None => matchAuthToken rest
      end
  end.

Definition unauthorized : jsstring := lit "unauthorized_user_token".

(** Lines 89-105; [response] is the body of the page, [None] when [fetch]
    or [response.text()] raised. *)
Definition getAuthToken (response : option jsstring) : jsstring :=
  match response with
  | Some html =>
      match matchAuthToken html with
      | Some token => token
      | None => unauthorized
      end
  | None => unauthorized
  end.

Section Promise.
Variable Heap : Type.

(** The connection with the promise [connect] returned (lines 264-276). *)
Record Connecting : Type := mkConnecting {
  conn : Conn Heap;
  connectPromise : Promise unit
}.

Definition connectStart (auto : bool) (h : Heap) : Connecting :=
  mkConnecting (fresh auto h) Pending.

(** What decides the promise: a session frame (lines 204-212), the 30 s
    timer (lines 270-275), an ['error'] of the socket (lines 188-193). *)
Inductive Signal : Type :=
| SessionFrame
| ConnectTimer
| SocketError (error : string).

Definition connectTimeoutMessage : string := "Timeout ao conectar com TradingView".

Definition onSignal (k : Connecting) (s : Signal) : Connecting :=
  let c := conn k in
  match s with
  | SessionFrame =>
      let c1 := send "set_auth_token" [PStr (token c)] c in
      mkConnecting
        (mkConn (autoReconnect c1) (ws c1) (token c1) (subscribers c1) true
                (reconnectAttempts c1) (manuallyClosed c1) false (wire c1)
                (reconnectTimers c1) (heap c1))
        (if resolveConnection c then Candles.settle (connectPromise k) (Fulfilled tt)
         else connectPromise k)
  | ConnectTimer =>
      if negb (connected c) && resolveConnection c then
        mkConnecting
          (mkConn (autoReconnect c) (ws c) (token c) (subscribers c) (connected c)
                  (reconnectAttempts c) (manuallyClosed c) false (wire c)
                  (reconnectTimers c) (heap c))
          (Candles.settle (connectPromise k) (Rejected connectTimeoutMessage))
      else k
  | SocketError error =>
      mkConnecting c (Candles.settle (connectPromise k) (Rejected error))
  end.

Definition onSignals (k : Connecting) (l : list Signal) : Connecting :=
  fold_left onSignal l k.

End Promise.

Arguments mkConnecting {Heap} conn connectPromise.
Arguments conn {Heap} c.
Arguments connectPromise {Heap} c.
Arguments connectStart {Heap} auto h.
Arguments onSignal {Heap} k s.
Arguments onSignals {Heap} k l.

End Connect.

(* ------------------------------------------------------------------ *)
(** *** updater.ts: merging and grouping the fetched bars *)

Module Updater.

(** Lines 105-110 (and [mergeCandles] of the flat updater): both lists are
    written into one [Map] by timestamp, the old one first, and the values
    are sorted. *)
Definition mergeCandles (old newer : list Candle) : list Candle :=
  let map := fold_left (fun m c => set Z.eqb (timestamp c) c m) old [] in
  let map := fold_left (fun m c => set Z.eqb (timestamp c) c m) newer map in
  sort (fun a b => timestamp a - timestamp b) (values map).

Section Groups.
(** Lines 78-100: [groupByYear] and [groupByMonth] differ by the key, which
    is read off the local date of the bar: [keyOf] stands for
    [new Date(c.timestamp * 1000).getFullYear()], or for the year/month
    text. *)
Context {K : Type} (eqb : K -> K -> bool) (keyOf : Candle -> K).

Definition groupBy (candles : list Candle) : JsMap K (list Candle) :=
  fold_left
    (fun groups c =>
       match get eqb (keyOf c) groups with
       | Some group => set eqb (keyOf c) (group ++ [c]) groups
       | None => set eqb (keyOf c) [c] groups
       end)
    candles [].

End Groups.

(** The timeframes as their callers write them: [String(tf)]. *)
Definition names : JsMap string string :=
  [("1M", "Mensal"); ("1W", "Semanal"); ("1D", "Diario"); ("240", "4H");
   ("60", "1H"); ("30", "30M"); ("15", "15M"); ("5", "5M"); ("3", "3M");
   ("1", "1M")]%string.

(** [timeframeName] of the flat updater: [names[String(tf)] || String(tf)]. *)
Definition timeframeName (tf : Timeframe) : string :=
  match get String.eqb (Candles.timeframeToString tf) names with
  | Some n => if (n =? "")%string then Candles.timeframeToString tf else n
  | None => Candles.timeframeToString tf
  end.

(** [getFileName] of the flat updater. *)
Definition getFileName (symbolName : string) (tf : Timeframe) : string :=
  (symbolName ++ "_" ++ timeframeName tf ++ ".json")%string.

End Updater.

(* ------------------------------------------------------------------ *)
(** *** cli.ts: file names *)

Module Cli.
Import Codec.

Definition TIMEFRAME_NAMES : JsMap string string :=
  [("1M", "Mensal"); ("M", "Mensal"); ("Mensal", "Mensal");
   ("1W", "Semanal"); ("W", "Semanal"); ("Semanal", "Semanal");
   ("1D", "Diario"); ("D", "Diario"); ("Diario", "Diario");
   ("240", "4H"); ("4H", "4H");
   ("60", "1H"); ("1H", "1H");
   ("30", "30M"); ("30min", "30M");
   ("15", "15M"); ("15min", "15M");
   ("5", "5M"); ("5min", "5M");
   ("3", "3M"); ("3min", "3M");
   ("1", "1M"); ("1min", "1M")]%string.

(** Lines 110-126: [TIMEFRAME_NAMES[tfStr] || tfStr]. *)
Definition formatTimeframeForFile (tf : Timeframe) : string :=
  match get String.eqb (Candles.timeframeToString tf) TIMEFRAME_NAMES with
  | Some n => if (n =? "")%string then Candles.timeframeToString tf else n
  | None => Candles.timeframeToString tf
  end.

(** Line 157: [symbol.replace(/[/:]/g, '_').replace(/[!?.]/g, '')]. *)
Definition symbolClean (symbol : jsstring) : jsstring :=
  filter (fun u => negb ((u =? 33) || (u =? 63) || (u =? 46))%N)
         (map (fun u => if ((u =? 47) || (u =? 58))%N then 95%N else u) symbol).

End Cli.

(* ------------------------------------------------------------------ *)
(** *** Vocabulary of Part III *)

Module Outcomes.
Import Candles.

(** The closure after a completion that asks for more (lines 85-95 and
    117), and after one that finalizes (lines 85-95 and 125-155). *)
Definition asksMore (f : Fetch) : Fetch :=
  mkFetch (request f) (chartSession f) (uniqueSorted (rawCandles f))
          (resolved f) (S (requestCount f)) (observedLength f)
          (nextStall f) (promise f) (timeout f).

Definition finalizes (f : Fetch) : Fetch :=
  mkFetch (request f) (chartSession f) (uniqueSorted (rawCandles f))
          true (requestCount f) (observedLength f) (nextStall f)
          (settle (promise f)
             (Fulfilled (selectCandles (request f)
                           (map bar (uniqueSorted (rawCandles f))))))
          false.

(** The closure when line 104 raises: lines 83-95 have run. *)
Definition observes (f : Fetch) : Fetch :=
  mkFetch (request f) (chartSession f) (uniqueSorted (rawCandles f))
          (resolved f) (requestCount f) (observedLength f) (nextStall f)
          (promise f) (timeout f).

(** The closure when line 132 raises: lines 125-127 have run, the promise
    is as it was. *)
Definition hangs (f : Fetch) : Fetch :=
  mkFetch (request f) (chartSession f) (uniqueSorted (rawCandles f))
          true (requestCount f) (observedLength f) (nextStall f)
          (promise f) false.

(** The oldest bar a completion would find. *)
Definition oldest (f : Fetch) : option RawCandle :=
  hd_error (uniqueSorted (rawCandles f)).

(** Would a completion write the warning of line 104? *)
Definition givesUp (f : Fetch) : bool :=
  warns (request f) (oldest f) (nextStall f).

(** The bars of a list that pass the [to] filter of line 145. *)
Definition upTo (p : GetCandlesParams) (l : list Candle) : list Candle :=
  match to p with
  | Some t => if truthy (Some t) then filter (fun c => timestamp c <=? t) l else l
  | None => l
  end.

(** The bars of a list that pass the [from] filter of line 142. *)
Definition since (p : GetCandlesParams) (l : list Candle) : list Candle :=
  match from p with
  | Some fr => if truthy (Some fr) then filter (fun c => fr <=? timestamp c) l else l
  | None => l
  end.

(** The handlers still registered, in the order of their registration. *)
Definition live (subscribers : list (option nat)) : list nat :=
  flat_map (fun entry => match entry with Some h => [h] | None => [] end) subscribers.

(** The command a text on the wire was made from. *)
Definition toWire (cmd : Command) : Connection.Wire :=
  Connection.Message (cmdName cmd) (cmdParams cmd).

(** [k] rounds of a reconnect that fails: the socket closes, the timer it
    scheduled fires, a new socket is created.  The delays scheduled, in
    order, and the connection after the last round. *)
Fixpoint failedReconnects {Heap} (k : nat) (c : Connection.Conn Heap)
  : list Q * Connection.Conn Heap :=
  match k with
  | O => ([], c)
  | S k' =>
      let c1 := Connection.onClose c in
      let (delays, c2) :=
        failedReconnects k' (Connection.onReconnectTimer None c1) in
      (Connection.reconnectTimers c1 ++ delays, c2)
  end.

(** The element standing last in [l] among those under the key [t]. *)
Definition latestBy {A} (key : A -> Z) (t : Z) (l : list A) : option A :=
  find (fun c => key c =? t) (rev l).

(** A fetch registered as [h] is subscribed exactly while its timer is
    armed; while the timer is armed the promise is pending and the fetch
    not marked resolved; and a fetch that is pending with the timer off is
    marked resolved. *)
Definition lifecycle (c : System.Sys) : Prop :=
  forall h,
    (In h (live (Connection.subscribers c))
     <-> exists f, Js.get Nat.eqb h (Connection.heap c) = Some f /\ timeout f = true)
    /\ forall f, Js.get Nat.eqb h (Connection.heap c) = Some f ->
                 (timeout f = true -> promise f = Js.Pending /\ resolved f = false)
                 /\ (promise f = Js.Pending -> timeout f = true \/ resolved f = true).

(** What awaiting the promise of a fetch comes to when no further event
    reaches it: its value or its error once it is settled; the Timeout
    error while it is pending with the timer armed, which rejects a fetch
    not marked resolved (lines 42-47); nothing, ever, otherwise. *)
Definition awaited (f : Fetch) : Multiple.Settled (list Candle) :=
  match promise f with
  | Js.Fulfilled bars => Multiple.Resolved bars
  | Js.Rejected error => Multiple.Failed error
  | Js.Pending =>
      if timeout f && negb (resolved f)
      then Multiple.Failed (timeoutMessage (request f))
      else Multiple.Never
  end.

(** May a reconnect still be scheduled by the listener of ['close']? *)
Definition mayReconnect {Heap} (c : Connection.Conn Heap) : bool :=
  Connection.autoReconnect c && negb (Connection.manuallyClosed c).

End Outcomes.

(** ** Part II. Properties *)

(* ------------------------------------------------------------------ *)
(** *** Maps in insertion order and the stable sort *)

Module JsFacts.

Section MapFacts.
Context {K V : Type} (eqb : K -> K -> bool).
Hypothesis eqb_spec : forall a b, eqb a b = true <-> a = b.

Lemma eqb_refl k : eqb k k = true.
Proof. now apply eqb_spec. Qed.

Lemma eqb_neq a b : a <> b -> eqb a b = false.
Proof.
  intros Hab. destruct (eqb a b) eqn:E; [|reflexivity].
  apply eqb_spec in E. contradiction.
Qed.

Lemma get_set_same k x (m : JsMap K V) : get eqb k (set eqb k x m) = Some x.
Proof.
  induction m as [|[k' y] m IH]; simpl.
  - now rewrite eqb_refl.
  - destruct (eqb k k') eqn:E; simpl.
    + now rewrite eqb_refl.
    + now rewrite E.
Qed.

Lemma get_set_other k k' x (m : JsMap K V) :
  k <> k' -> get eqb k' (set eqb k x m) = get eqb k' m.
Proof.
  intros Hne. induction m as [|[k0 y] m IH]; simpl.
  - rewrite eqb_neq; auto.
  - destruct (eqb k k0) eqn:E; simpl.
    + apply eqb_spec in E. subst k0. rewrite !eqb_neq; auto.
    + now rewrite IH.
Qed.

Lemma keys_set k x (m : JsMap K V) :
  (In k (keys m) /\ keys (set eqb k x m) = keys m)
  \/ (~ In k (keys m) /\ keys (set eqb k x m) = keys m ++ [k]).
Proof.
  unfold keys. induction m as [|[k' y] m IH]; simpl.
  - right. split; [tauto | reflexivity].
  - destruct (eqb k k') eqn:E; simpl.
    + apply eqb_spec in E. subst k'. left. auto.
    + assert (k' <> k) by (intros ->; now rewrite eqb_refl in E).
      destruct IH as [[Hin Heq]|[Hnin Heq]]; rewrite Heq.
      * left. auto.
      * right. split; [|reflexivity]. intros [?|?]; auto.
Qed.

Lemma NoDup_keys_set k x (m : JsMap K V) :
  NoDup (keys m) -> NoDup (keys (set eqb k x m)).
Proof.
  intros Hnd. destruct (keys_set k x m) as [[_ ->]|[Hnin ->]]; auto.
  apply NoDup_app; auto.
  - constructor; [simpl; tauto | constructor].
  - intros a Ha [<-|[]]. contradiction.
Qed.

Lemma get_In k x (m : JsMap K V) : get eqb k m = Some x -> In (k, x) m.
Proof.
  induction m as [|[k' y] m IH]; simpl; [discriminate|].
  destruct (eqb k k') eqn:E.
  - apply eqb_spec in E. subst k'. intros [= ->]. now left.
  - intros H. right. auto.
Qed.

Lemma In_get k x (m : JsMap K V) :
  NoDup (keys m) -> In (k, x) m -> get eqb k m = Some x.
Proof.
  unfold keys. induction m as [|[k' y] m IH]; simpl; [tauto|].
  intros Hnd [Heq|Hin].
  - injection Heq as -> ->. now rewrite eqb_refl.
  - inversion Hnd as [|? ? Hnin Hnd']; subst.
    destruct (eqb k k') eqn:E.
    + apply eqb_spec in E. subst k'. exfalso. apply Hnin.
      change k with (fst (k, x)). now apply in_map.
    + auto.
Qed.
End MapFacts.

Section SortFacts.
Context {A : Type} (key : A -> Z).
Local Abbreviation compare := (fun a b : A => key a - key b).
Local Abbreviation le := (fun a b : A => key a <= key b).

Lemma insert_perm x l : Permutation (insert compare x l) (x :: l).
Proof.
  induction l as [|y l IH]; simpl; [reflexivity|].
  destruct (compare x y <=? 0); [reflexivity|].
  rewrite IH. apply perm_swap.
Qed.

Lemma sort_perm l : Permutation (sort compare l) l.
Proof.
  induction l as [|x l IH]; simpl; [reflexivity|].
  rewrite insert_perm. now constructor.
Qed.

Lemma insert_sorted x l :
  StronglySorted le l -> StronglySorted le (insert compare x l).
Proof.
  induction 1 as [|y l Hs IH Hall]; simpl.
  - repeat constructor.
  - simpl in *.
    destruct (Z.leb_spec (key x - key y) 0) as [Hle|Hgt].
    + constructor; [constructor; assumption|].
      constructor; [lia|].
      eapply Forall_impl; [|exact Hall]. simpl. intros; lia.
    + constructor; [assumption|].
      eapply Permutation_Forall; [symmetry; apply insert_perm|].
      constructor; [lia | assumption].
Qed.

Lemma sort_sorted l : StronglySorted le (sort compare l).
Proof.
  induction l as [|x l IH]; simpl; [constructor|].
  now apply insert_sorted.
Qed.

(** A list already in strictly increasing key order is left as it is. *)
Lemma sort_id l :
  StronglySorted (fun a b => key a < key b) l -> sort compare l = l.
Proof.
  induction 1 as [|x l Hs IH Hall]; simpl; [reflexivity|].
  rewrite IH. destruct l as [|y l]; simpl; [reflexivity|].
  inversion Hall as [|? ? Hxy _]; subst.
  destruct (Z.leb_spec (key x - key y) 0); [reflexivity | lia].
Qed.
End SortFacts.

(** Strictly increasing lists are determined by their elements. *)
Lemma strictly_sorted_ext {A} (key : A -> Z) (l1 l2 : list A) :
  StronglySorted (fun a b => key a < key b) l1 ->
  StronglySorted (fun a b => key a < key b) l2 ->
  (forall x, In x l1 <-> In x l2) ->
  l1 = l2.
Proof.
  intros H1. revert l2.
  induction H1 as [|x l1 Hs1 IH Hall1]; intros l2 H2 Hext.
  - destruct l2 as [|y l2]; [reflexivity|].
    exfalso. apply (Hext y). now left.
  - destruct H2 as [|y l2 Hs2 Hall2].
    + exfalso. apply (Hext x). now left.
    + rewrite Forall_forall in Hall1, Hall2.
      assert (x = y) as ->.
      { destruct (proj1 (Hext x) (or_introl eq_refl)) as [->|Hx]; [reflexivity|].
        destruct (proj2 (Hext y) (or_introl eq_refl)) as [->|Hy]; [reflexivity|].
        apply Hall2 in Hx. apply Hall1 in Hy. lia. }
      f_equal. apply IH; [assumption|].
      intros z. split; intros Hz.
      * destruct (proj1 (Hext z) (or_intror Hz)) as [<-|]; [|assumption].
        apply Hall1 in Hz. lia.
      * destruct (proj2 (Hext z) (or_intror Hz)) as [<-|]; [|assumption].
        apply Hall2 in Hz. lia.
Qed.

Lemma strictly_sorted_filter {A} (R : A -> A -> Prop) (p : A -> bool) l :
  StronglySorted R l -> StronglySorted R (filter p l).
Proof.
  induction 1 as [|x l Hs IH Hall]; simpl; [constructor|].
  destruct (p x); [|assumption].
  constructor; [assumption|].
  rewrite Forall_forall in *. intros y Hy.
  apply filter_In in Hy. now apply Hall.
Qed.

Lemma strictly_sorted_skipn {A} (R : A -> A -> Prop) n l :
  StronglySorted R l -> StronglySorted R (skipn n l).
Proof.
  intros H. revert n. induction H as [|x l Hs IH Hall]; intros [|n]; simpl;
    try constructor; auto.
Qed.

Lemma strictly_sorted_map {A B} (f : A -> B) (R : B -> B -> Prop) l :
  StronglySorted (fun a b => R (f a) (f b)) l -> StronglySorted R (map f l).
Proof.
  induction 1 as [|x l Hs IH Hall]; simpl; constructor; auto.
  rewrite Forall_forall in *. intros y Hy.
  apply in_map_iff in Hy as [z [<- Hz]]. auto.
Qed.

End JsFacts.

(* ------------------------------------------------------------------ *)
(** *** candles.ts: deduplication and ordering *)

Module DedupFacts.
Import Candles JsFacts.

Local Abbreviation step := (fun (m : JsMap Z RawCandle) c => set Z.eqb (v0 c) c m).
Local Abbreviation byTime := (fun a b : RawCandle => v0 a < v0 b).

Lemma Zeqb_spec a b : (a =? b) = true <-> a = b.
Proof. apply Z.eqb_eq. Qed.

Lemma find_append {A} (p : A -> bool) l1 l2 :
  find p (l1 ++ l2) = match find p l1 with Some x => Some x | None => find p l2 end.
Proof.
  induction l1 as [|x l1 IH]; simpl; [reflexivity|].
  destruct (p x); [reflexivity | exact IH].
Qed.

Lemma lastWith_cons t c raw :
  lastWith t (c :: raw) =
  match lastWith t raw with
  | Some x => Some x
  | None => if v0 c =? t then Some c else None
  end.
Proof. unfold lastWith. simpl. now rewrite find_append. Qed.

Lemma lastWith_app t a b :
  lastWith t (a ++ b) =
  match lastWith t b with Some x => Some x | None => lastWith t a end.
Proof. unfold lastWith. now rewrite rev_app_distr, find_append. Qed.

Lemma lastWith_Some t raw c :
  lastWith t raw = Some c -> In c raw /\ v0 c = t.
Proof.
  unfold lastWith. intros H. apply find_some in H as [Hin Heq].
  split; [now apply in_rev | now apply Z.eqb_eq].
Qed.

Lemma lastWith_None t raw : lastWith t raw = None <-> ~ In t (map v0 raw).
Proof.
  unfold lastWith. split.
  - intros H Hin. apply in_map_iff in Hin as [c [Hc Hin]].
    apply in_rev in Hin. apply (find_none _ _ H) in Hin.
    simpl in Hin. apply Z.eqb_neq in Hin. contradiction.
  - intros Hnin. destruct (find _ _) eqn:E; [|reflexivity].
    apply find_some in E as [Hin Heq]. exfalso. apply Hnin.
    apply Z.eqb_eq in Heq. subst t. apply in_map. now apply in_rev.
Qed.

Lemma lastWith_present t raw :
  In t (map v0 raw) -> exists c, lastWith t raw = Some c.
Proof.
  intros Hin. destruct (lastWith t raw) as [c|] eqn:E; [eauto|].
  apply lastWith_None in E. contradiction.
Qed.

(** With one bar per instant, the last bar of an instant is the bar. *)
Lemma lastWith_unique raw c :
  NoDup (map v0 raw) -> In c raw -> lastWith (v0 c) raw = Some c.
Proof.
  induction raw as [|x raw IH]; simpl; [tauto|].
  intros Hnd Hin. inversion Hnd as [|? ? Hnin Hnd']; subst.
  rewrite lastWith_cons. destruct Hin as [->|Hin].
  - assert (lastWith (v0 c) raw = None) as -> by now apply lastWith_None.
    now rewrite Z.eqb_refl.
  - now rewrite IH.
Qed.

(** The map built by the [forEach] of line 82. *)
Lemma fold_keys_NoDup raw m :
  NoDup (keys m) -> NoDup (keys (fold_left step raw m)).
Proof.
  revert m. induction raw as [|c raw IH]; simpl; intros m Hnd; [assumption|].
  apply IH. now apply (NoDup_keys_set Z.eqb Zeqb_spec).
Qed.

Lemma fold_get raw m t :
  get Z.eqb t (fold_left step raw m) =
  match lastWith t raw with Some c => Some c | None => get Z.eqb t m end.
Proof.
  revert m. induction raw as [|c raw IH]; simpl; intros m; [reflexivity|].
  rewrite IH, lastWith_cons. destruct (lastWith t raw); [reflexivity|].
  destruct (Z.eqb_spec (v0 c) t) as [<-|Hne].
  - apply (get_set_same Z.eqb Zeqb_spec).
  - now apply (get_set_other Z.eqb Zeqb_spec).
Qed.

Lemma fold_coherent raw m :
  (forall k c, In (k, c) m -> v0 c = k) ->
  forall k c, In (k, c) (fold_left step raw m) -> v0 c = k.
Proof.
  revert m. induction raw as [|x raw IH]; simpl; intros m Hm; [assumption|].
  apply IH. clear IH. induction m as [|[k' y] m IHm]; simpl.
  - intros k c [[= <- <-]|[]]. reflexivity.
  - destruct (v0 x =? k'); simpl.
    + intros k c [[= <- <-]|Hin]; [reflexivity|]. apply Hm. now right.
    + intros k c [[= <- <-]|Hin].
      * apply Hm. now left.
      * apply IHm; [|assumption]. intros; apply Hm. now right.
Qed.

Lemma uniqueCandles_coherent raw k c :
  In (k, c) (uniqueCandles raw) -> v0 c = k.
Proof. apply fold_coherent. simpl. tauto. Qed.

Lemma uniqueCandles_NoDup raw : NoDup (keys (uniqueCandles raw)).
Proof. apply fold_keys_NoDup. constructor. Qed.

Lemma values_times raw :
  map v0 (values (uniqueCandles raw)) = keys (uniqueCandles raw).
Proof.
  unfold values, keys. rewrite map_map. apply map_ext_in.
  intros [k c] Hin. simpl. now apply uniqueCandles_coherent in Hin.
Qed.

Lemma In_values raw c :
  In c (values (uniqueCandles raw)) <-> lastWith (v0 c) raw = Some c.
Proof.
  unfold values. rewrite in_map_iff. split.
  - intros [[k c'] [Heq Hin]]. simpl in Heq. subst c'.
    pose proof (uniqueCandles_coherent _ _ _ Hin) as <-.
    apply (In_get Z.eqb Zeqb_spec) in Hin; [|apply uniqueCandles_NoDup].
    unfold uniqueCandles in Hin. rewrite fold_get in Hin.
    destruct (lastWith (v0 c) raw); [assumption | discriminate].
  - intros Hlast. exists (v0 c, c). split; [reflexivity|].
    apply (get_In Z.eqb Zeqb_spec). unfold uniqueCandles.
    now rewrite fold_get, Hlast.
Qed.

(** A bar is kept exactly when it is the last one of its instant. *)
Lemma In_uniqueSorted raw c :
  In c (uniqueSorted raw) <-> lastWith (v0 c) raw = Some c.
Proof.
  rewrite <- In_values. unfold uniqueSorted. split; intros H.
  - eapply Permutation_in; [apply (sort_perm v0)|exact H].
  - eapply Permutation_in; [symmetry; apply (sort_perm v0)|exact H].
Qed.

Lemma uniqueSorted_times_NoDup raw : NoDup (map v0 (uniqueSorted raw)).
Proof.
  eapply Permutation_NoDup.
  - symmetry. apply Permutation_map. apply (sort_perm v0).
  - rewrite values_times. apply uniqueCandles_NoDup.
Qed.

Lemma sorted_NoDup_strict (l : list RawCandle) :
  StronglySorted (fun a b => v0 a <= v0 b) l -> NoDup (map v0 l) ->
  StronglySorted byTime l.
Proof.
  induction 1 as [|x l Hs IH Hall]; simpl; intros Hnd; [constructor|].
  inversion Hnd as [|? ? Hnin Hnd']; subst.
  constructor; [auto|].
  rewrite Forall_forall in *. intros y Hy.
  assert (v0 x <> v0 y) by (intros E; apply Hnin; rewrite E; now apply in_map).
  specialize (Hall y Hy). simpl in Hall. lia.
Qed.

Lemma uniqueSorted_sorted raw : StronglySorted byTime (uniqueSorted raw).
Proof.
  apply sorted_NoDup_strict; [|apply uniqueSorted_times_NoDup].
  apply (sort_sorted v0).
Qed.

Lemma strict_NoDup (l : list RawCandle) :
  StronglySorted byTime l -> NoDup (map v0 l).
Proof.
  induction 1 as [|x l Hs IH Hall]; simpl; constructor; [|assumption].
  rewrite Forall_forall in Hall. intros Hin.
  apply in_map_iff in Hin as [y [Heq Hy]]. apply Hall in Hy. lia.
Qed.

Lemma In_times_uniqueSorted raw t :
  In t (map v0 (uniqueSorted raw)) <-> In t (map v0 raw).
Proof.
  rewrite !in_map_iff. split.
  - intros [c [Ht Hc]]. apply In_uniqueSorted in Hc.
    apply lastWith_Some in Hc as [Hin _]. eauto.
  - intros [c [Ht Hc]]. destruct (lastWith_present t raw) as [c' Hc'].
    { rewrite <- Ht. now apply in_map. }
    pose proof (lastWith_Some _ _ _ Hc') as [_ Ht'].
    exists c'. split; [assumption|]. apply In_uniqueSorted. now rewrite Ht'.
Qed.

Lemma lastWith_uniqueSorted raw t :
  lastWith t (uniqueSorted raw) = lastWith t raw.
Proof.
  destruct (lastWith t raw) as [c|] eqn:E.
  - pose proof (lastWith_Some _ _ _ E) as [_ <-].
    apply lastWith_unique; [apply uniqueSorted_times_NoDup|].
    now apply In_uniqueSorted.
  - apply lastWith_None. rewrite In_times_uniqueSorted.
    now apply lastWith_None.
Qed.

(** Sorting and deduplicating what is already so changes nothing. *)
Lemma uniqueSorted_fixed l : StronglySorted byTime l -> uniqueSorted l = l.
Proof.
  intros Hs. apply (strictly_sorted_ext v0); [apply uniqueSorted_sorted|exact Hs|].
  intros c. rewrite In_uniqueSorted. split.
  - intros H. now apply lastWith_Some in H.
  - intros H. apply lastWith_unique; [now apply strict_NoDup | exact H].
Qed.

Lemma uniqueSorted_idem raw : uniqueSorted (uniqueSorted raw) = uniqueSorted raw.
Proof. apply uniqueSorted_fixed, uniqueSorted_sorted. Qed.

(** Deduplicating between two pushes does not change the final result. *)
Lemma uniqueSorted_absorb a b :
  uniqueSorted (a ++ uniqueSorted b) = uniqueSorted (a ++ b).
Proof.
  apply (strictly_sorted_ext v0); try apply uniqueSorted_sorted.
  intros c. rewrite !In_uniqueSorted, !lastWith_app, lastWith_uniqueSorted.
  reflexivity.
Qed.

Lemma uniqueSorted_length l :
  NoDup (map v0 l) -> length (uniqueSorted l) = length l.
Proof.
  intros Hnd. apply Permutation_length, NoDup_Permutation.
  - eapply NoDup_map_inv, uniqueSorted_times_NoDup.
  - eapply NoDup_map_inv, Hnd.
  - intros c. rewrite In_uniqueSorted. split.
    + intros H. now apply lastWith_Some in H.
    + now apply lastWith_unique.
Qed.

Lemma uniqueSorted_nil_iff raw : uniqueSorted raw = [] <-> raw = [].
Proof.
  split; [|intros ->; reflexivity].
  intros H. destruct raw as [|c raw]; [reflexivity|]. exfalso.
  assert (Hin : In (v0 c) (map v0 (c :: raw))) by now left.
  apply In_times_uniqueSorted in Hin. now rewrite H in Hin.
Qed.

End DedupFacts.

(* ------------------------------------------------------------------ *)
(** *** candles.ts: the subscriber, one event at a time *)

Module HandlerFacts.
Import Candles Outcomes JsFacts DedupFacts.

Lemma run_eta r : mkRun (final r) (sent r) (raised r) (subscribed r) = r.
Proof. now destruct r. Qed.

Lemma completion_not_push e :
  isCompletion e = true -> (name e =? "timescale_update")%string = false.
Proof.
  unfold isCompletion. simpl. intros H.
  destruct (String.eqb_spec (name e) "series_completed") as [->|_]; [reflexivity|].
  destruct (String.eqb_spec (name e) "symbol_error") as [->|_]; [reflexivity|].
  discriminate.
Qed.

(** Bars whose date can be printed. *)
Lemma toCandle_dated c : dated c = true -> toCandle c = Some (bar c).
Proof.
unfold dated, printable, toCandle, bar, toISOString.
now destruct (_ && _).
Qed.

Lemma toCandle_undated c : dated c = false -> toCandle c = None.
Proof.
unfold dated, printable, toCandle, toISOString.
now destruct (_ && _).
Qed.

Lemma mapCandles_dated raw :
  forallb dated raw = true -> mapCandles raw = Some (map bar raw).
Proof.
induction raw as [|c raw IH]; simpl; [reflexivity|].
intros H. apply andb_true_iff in H as [Hc Hraw].
now rewrite (toCandle_dated c Hc), (IH Hraw).
Qed.

Lemma mapCandles_undated raw :
  forallb dated raw = false -> mapCandles raw = None.
Proof.
induction raw as [|c raw IH]; simpl; [discriminate|].
destruct (dated c) eqn:Hc; simpl.
- intros H. now rewrite (toCandle_dated c Hc), (IH H).
- intros _. now rewrite (toCandle_undated c Hc).
Qed.

Lemma finalCandles_dated p raw :
  forallb dated raw = true ->
  finalCandles p raw = Some (selectCandles p (map bar raw)).
Proof. intros H. unfold finalCandles. now rewrite (mapCandles_dated raw H). Qed.

Lemma finalCandles_undated p raw :
  forallb dated raw = false -> finalCandles p raw = None.
Proof. intros H. unfold finalCandles. now rewrite (mapCandles_undated raw H). Qed.

Lemma printable_hd raw :
  forallb dated raw = true -> raw <> [] -> printable (hd_error raw) = true.
Proof.
destruct raw as [|c raw]; [congruence|]. simpl. intros H _.
now apply andb_true_iff in H as [H _].
Qed.

Lemma needMore_stalled p o n s : (3 <= s)%nat -> needMore p o n s = false.
Proof.
  intros Hs. unfold needMore.
  assert ((3 <=? s)%nat = true) as -> by now apply Nat.leb_le.
  simpl. destruct (from p), o; simpl;
    repeat match goal with
           | |- (if ?b then _ else _) = _ => destruct b
           | |- match ?x with Some _ => _ | None => _ end = _ => destruct x
           end; reflexivity.
Qed.

(** The warning of line 104 is written when the stall counter has reached
    3, and then no more is asked. *)
Lemma warns_stalled p o s : warns p o s = true -> (3 <= s)%nat /\ o <> None.
Proof.
unfold warns. destruct (from p); [|discriminate]. destruct o; [|discriminate].
intros H. apply andb_true_iff in H as [_ H]. apply Nat.leb_le in H.
split; [assumption | discriminate].
Qed.

Lemma givesUp_wantsMore f : givesUp f = true -> wantsMore f = false.
Proof.
intros H. apply warns_stalled in H as [H _]. now apply needMore_stalled.
Qed.

Lemma hd_uniqueSorted raw :
  raw <> [] -> exists c, hd_error (uniqueSorted raw) = Some c.
Proof.
  intros Hne. destruct (uniqueSorted raw) as [|c l] eqn:E; [|simpl; eauto].
  apply (proj1 (uniqueSorted_nil_iff raw)) in E. contradiction.
Qed.

Lemma readable_push e :
  isCompletion e = false -> readable e = true ->
  (name e =? "timescale_update")%string = false \/ exists ps, params e = Some ps.
Proof.
unfold readable. intros _ H. apply orb_true_iff in H as [H|H].
- left. now apply negb_true_iff.
- right. destruct (params e); [eauto | discriminate].
Qed.

(** What a data push, or an event of another name, does. *)
Lemma onEvent_other f e :
  isCompletion e = false -> readable e = true ->
  onEvent f e = stay (withRaw f (pile (rawCandles f) e)).
Proof.
  intros He Hr. unfold onEvent, pile. rewrite He.
  assert (Hid : withRaw f (rawCandles f) = f) by now destruct f.
  destruct (name e =? "timescale_update")%string eqn:Hn; [|now rewrite Hid].
  destruct (readable_push e He Hr) as [H|[ps Hps]]; [congruence|].
  unfold seriesData. rewrite Hps.
  destruct (nth_error ps 1) as [[| |series| |]|]; try now rewrite Hid.
  destruct (get String.eqb "sds_1"%string series) as [[batch|]|]; try now rewrite Hid.
  destruct (rawCandles f) eqn:E; simpl; [now rewrite app_nil_r | reflexivity].
Qed.

(** A data push without [params] raises at line 53 and changes nothing. *)
Lemma onEvent_unreadable f e :
  readable e = false -> onEvent f e = mkReaction (Throw f) [] false.
Proof.
unfold readable. intros H. apply orb_false_iff in H as [Hn Hp].
apply negb_false_iff in Hn. unfold onEvent, seriesData. rewrite Hn.
now destruct (params e).
Qed.

Lemma unreadable_not_completion e : readable e = false -> isCompletion e = false.
Proof.
intros H. destruct (isCompletion e) eqn:He; [|reflexivity].
apply completion_not_push in He. unfold readable in H. now rewrite He in H.
Qed.

Lemma onEvent_completion f e :
  isCompletion e = true ->
  onEvent f e =
  if givesUp f && negb (printable (oldest f)) then
    mkReaction (Throw (observes f)) [] false
  else if wantsMore f then
    if printable (oldest f)
    then mkReaction (Normal (asksMore f)) [requestMoreData (chartSession f)] false
    else mkReaction (Throw (asksMore f)) [] false
  else
    match finalCandles (request f) (uniqueSorted (rawCandles f)) with
    | Some bars =>
        mkReaction
          (Normal (mkFetch (request f) (chartSession f) (uniqueSorted (rawCandles f))
                           true (requestCount f) (observedLength f) (nextStall f)
                           (settle (promise f) (Fulfilled bars)) false))
          [] true
    | None => mkReaction (Throw (hangs f)) [] true
    end.
Proof.
intros He. unfold onEvent. rewrite (completion_not_push e He), He. reflexivity.
Qed.

Lemma onEvent_more f e :
  isCompletion e = true -> wantsMore f = true -> printable (oldest f) = true ->
  onEvent f e =
  mkReaction (Normal (asksMore f)) [requestMoreData (chartSession f)] false.
Proof.
intros He Hw Hp. rewrite (onEvent_completion f e He), Hw, Hp.
now rewrite andb_false_r.
Qed.

Lemma onEvent_more_unprintable f e :
  isCompletion e = true -> wantsMore f = true -> printable (oldest f) = false ->
  onEvent f e = mkReaction (Throw (asksMore f)) [] false.
Proof.
intros He Hw Hp. rewrite (onEvent_completion f e He), Hw, Hp.
destruct (givesUp f) eqn:Hg; [|reflexivity].
apply givesUp_wantsMore in Hg. congruence.
Qed.

Lemma onEvent_warn f e :
  isCompletion e = true -> givesUp f = true -> printable (oldest f) = false ->
  onEvent f e = mkReaction (Throw (observes f)) [] false.
Proof.
intros He Hg Hp. now rewrite (onEvent_completion f e He), Hg, Hp.
Qed.

Lemma givesUp_printable f :
  forallb dated (uniqueSorted (rawCandles f)) = true ->
  givesUp f && negb (printable (oldest f)) = false.
Proof.
intros Hd. destruct (givesUp f) eqn:Hg; [|reflexivity].
apply warns_stalled in Hg as [_ Hne]. unfold oldest in *.
rewrite printable_hd; [reflexivity | assumption |].
intros E. rewrite E in Hne. now apply Hne.
Qed.

Lemma onEvent_done f e :
  isCompletion e = true -> wantsMore f = false ->
  forallb dated (uniqueSorted (rawCandles f)) = true ->
  onEvent f e = mkReaction (Normal (finalizes f)) [] true.
Proof.
intros He Hw Hd.
rewrite (onEvent_completion f e He), Hw, (givesUp_printable f Hd).
now rewrite (finalCandles_dated _ _ Hd).
Qed.

Lemma onEvent_hang f e :
  isCompletion e = true -> wantsMore f = false ->
  givesUp f && negb (printable (oldest f)) = false ->
  forallb dated (uniqueSorted (rawCandles f)) = false ->
  onEvent f e = mkReaction (Throw (hangs f)) [] true.
Proof.
intros He Hw Hg Hd.
rewrite (onEvent_completion f e He), Hw, Hg.
now rewrite (finalCandles_undated _ _ Hd).
Qed.

(** The seven things the subscriber can do with an event. *)
Lemma onEvent_cases f e :
  (isCompletion e = false /\ readable e = true
   /\ onEvent f e = stay (withRaw f (pile (rawCandles f) e)))
  \/ (isCompletion e = false /\ readable e = false
      /\ onEvent f e = mkReaction (Throw f) [] false)
  \/ (isCompletion e = true /\ wantsMore f = true /\ printable (oldest f) = true
      /\ onEvent f e
         = mkReaction (Normal (asksMore f)) [requestMoreData (chartSession f)] false)
  \/ (isCompletion e = true /\ wantsMore f = true /\ printable (oldest f) = false
      /\ onEvent f e = mkReaction (Throw (asksMore f)) [] false)
  \/ (isCompletion e = true /\ wantsMore f = false
      /\ forallb dated (uniqueSorted (rawCandles f)) = true
      /\ onEvent f e = mkReaction (Normal (finalizes f)) [] true)
  \/ (isCompletion e = true /\ wantsMore f = false
      /\ givesUp f = true /\ printable (oldest f) = false
      /\ onEvent f e = mkReaction (Throw (observes f)) [] false)
  \/ (isCompletion e = true /\ wantsMore f = false
      /\ forallb dated (uniqueSorted (rawCandles f)) = false
      /\ onEvent f e = mkReaction (Throw (hangs f)) [] true).
Proof.
destruct (isCompletion e) eqn:He.
- right. right. destruct (wantsMore f) eqn:Hw.
  + destruct (printable (oldest f)) eqn:Hp.
    * left. repeat split. now apply onEvent_more.
    * right. left. repeat split. now apply onEvent_more_unprintable.
  + right. right. destruct (forallb dated (uniqueSorted (rawCandles f))) eqn:Hd.
    * left. repeat split. now apply onEvent_done.
    * right. destruct (givesUp f && negb (printable (oldest f))) eqn:Hg.
      -- left. apply andb_true_iff in Hg as [Hg Hp]. apply negb_true_iff in Hp.
         repeat split; auto. now apply onEvent_warn.
      -- right. repeat split. now apply onEvent_hang.
- destruct (readable e) eqn:Hr.
  + left. repeat split. now apply onEvent_other.
  + right. left. repeat split. now apply onEvent_unreadable.
Qed.

(** Splitting a run in two. *)
Lemma feed_app f a b :
  feed f (a ++ b) =
  let ra := feed f a in
  if subscribed ra && negb (raised ra) then
    let rb := feed (final ra) b in
    mkRun (final rb) (sent ra ++ sent rb) (raised rb) (subscribed rb)
  else ra.
Proof.
  revert f. induction a as [|e a IH]; intros f; simpl.
  - now rewrite run_eta.
  - destruct (outcome (onEvent f e)) as [f'|f']; simpl.
    + destruct (unsubscribes (onEvent f e)); simpl; [reflexivity|].
      rewrite IH. simpl.
      destruct (subscribed (feed f' a) && negb (raised (feed f' a))); simpl;
        [now rewrite app_assoc | reflexivity].
    + now rewrite andb_false_r.
Qed.

(** A run of pushes and events of other names only piles bars up. *)
Lemma feed_pushes f d :
  Forall (fun e => isCompletion e = false /\ readable e = true) d ->
  feed f d = mkRun (withRaw f (fold_left pile d (rawCandles f))) [] false true.
Proof.
  intros Hd. revert f. induction Hd as [|e d [He Hr] Hd IH]; intros f; simpl.
  - now destruct f.
  - rewrite (onEvent_other f e He Hr). simpl. rewrite IH. now destruct f.
Qed.

Lemma Inv_start p session : Inv (start p session).
Proof. constructor; simpl; auto; lia. Qed.

Lemma onEvent_Inv f e :
  Inv f ->
  match outcome (onEvent f e) with
  | Normal f' =>
      if unsubscribes (onEvent f e)
      then resolved f' = true /\ sends (onEvent f e) = [] /\
           forallb dated (uniqueSorted (rawCandles f)) = true /\
           promise f' = Fulfilled (selectCandles (request f)
                                     (map bar (uniqueSorted (rawCandles f))))
      else Inv f'
  | Throw f' => promise f' = Pending
  end.
Proof.
  intros [Hp Ho Hr].
  destruct (onEvent_cases f e)
    as [(_ & _ & ->)|[(_ & _ & ->)|[(_ & _ & _ & ->)|[(_ & _ & _ & ->)
       |[(_ & _ & Hd & ->)|[(_ & _ & _ & _ & ->)|(_ & _ & _ & ->)]]]]]]; simpl; auto.
  - constructor; destruct f; simpl in *; auto.
  - constructor; simpl; auto. lia.
  - rewrite Hp. auto.
Qed.

Lemma feed_Inv f events :
  Inv f -> raised (feed f events) = false ->
  if subscribed (feed f events)
  then Inv (final (feed f events))
  else resolved (final (feed f events)) = true /\
       exists bars, promise (final (feed f events)) = Fulfilled bars.
Proof.
  revert f. induction events as [|e events IH]; intros f Hinv; simpl; [auto|].
  pose proof (onEvent_Inv f e Hinv) as H.
  destruct (outcome (onEvent f e)) as [f'|f']; simpl; [|discriminate].
  destruct (unsubscribes (onEvent f e)); simpl.
  - intros _. destruct H as (? & _ & _ & ?). eauto.
  - apply IH, H.
Qed.

(** A run that has raised leaves the promise pending. *)
Lemma feed_raised f events :
  Inv f -> raised (feed f events) = true -> promise (final (feed f events)) = Pending.
Proof.
  revert f. induction events as [|e events IH]; intros f Hinv; simpl; [discriminate|].
  pose proof (onEvent_Inv f e Hinv) as H.
  destruct (outcome (onEvent f e)) as [f'|f']; simpl; [|auto].
  destruct (unsubscribes (onEvent f e)); simpl; [discriminate|].
  apply IH, H.
Qed.

(** The bars of a live run, up to deduplication, are the pushed ones. *)
Lemma feed_accumulated f events acc :
  uniqueSorted (rawCandles f) = uniqueSorted acc ->
  subscribed (feed f events) = true -> raised (feed f events) = false ->
  uniqueSorted (rawCandles (final (feed f events))) =
  uniqueSorted (fold_left pile events acc).
Proof.
  revert f acc. induction events as [|e events IH]; intros f acc Hacc; simpl;
    [auto|].
  destruct (onEvent_cases f e)
    as [(He & Hr & ->)|[(_ & _ & ->)|[(He & _ & _ & ->)|[(_ & _ & _ & ->)
       |[(_ & _ & _ & ->)|[(_ & _ & _ & _ & ->)|(_ & _ & _ & ->)]]]]]]; simpl;
    try discriminate.
  - apply IH. unfold pile. destruct f as [p s raw r n l k pr t]; simpl in *.
    destruct (name e =? "timescale_update")%string; [|assumption].
    destruct (seriesData e) as [[batch|]|]; try assumption.
    now rewrite <- uniqueSorted_absorb, Hacc, uniqueSorted_absorb.
  - unfold pile at 2. rewrite (completion_not_push e He).
    apply IH. simpl. now rewrite uniqueSorted_idem.
Qed.

Lemma feed_app_live f a b :
  subscribed (feed f a) = true -> raised (feed f a) = false ->
  feed f (a ++ b) =
  mkRun (final (feed (final (feed f a)) b))
        (sent (feed f a) ++ sent (feed (final (feed f a)) b))
        (raised (feed (final (feed f a)) b))
        (subscribed (feed (final (feed f a)) b)).
Proof. intros Hs Hr. rewrite feed_app. simpl. now rewrite Hs, Hr. Qed.

Lemma feed_app_ended f a b :
  subscribed (feed f a) = false -> feed f (a ++ b) = feed f a.
Proof. intros Hs. rewrite feed_app. simpl. now rewrite Hs. Qed.

Lemma observed_positive f : rawCandles f <> [] <-> (0 < observedLength f)%nat.
Proof.
unfold observedLength. split.
- intros Hne. destruct (uniqueSorted (rawCandles f)) eqn:E; simpl; [|lia].
  apply (proj1 (uniqueSorted_nil_iff _)) in E. contradiction.
- intros Hpos Hnil. rewrite Hnil in Hpos. simpl in Hpos. lia.
Qed.

(** Bars that are dated stay so through the deduplication. *)
Lemma dated_uniqueSorted raw :
  forallb dated raw = true -> forallb dated (uniqueSorted raw) = true.
Proof.
intros H. apply forallb_forall. intros c Hc.
apply In_uniqueSorted, lastWith_Some in Hc as [Hc _].
exact (proj1 (forallb_forall dated raw) H c Hc).
Qed.

Lemma dated_of_uniqueSorted raw :
  forallb dated (uniqueSorted raw) = true -> forallb dated raw = true.
Proof.
intros H. apply forallb_forall. intros c Hc.
assert (Ht : In (v0 c) (map v0 (uniqueSorted raw)))
  by (apply In_times_uniqueSorted; now apply in_map).
apply in_map_iff in Ht as (c' & Hv & Hc').
pose proof (proj1 (forallb_forall dated _) H c' Hc') as Hd.
unfold dated, printable in *. now rewrite <- Hv.
Qed.

(** The bars piled on an accumulator stand in front of it. *)
Lemma pile_app d : forall acc, fold_left pile d acc = accumulated d ++ acc.
Proof.
unfold accumulated. induction d as [|e d IH]; intros acc; [reflexivity|].
simpl. rewrite IH, (IH (pile [] e)). rewrite <- app_assoc. f_equal.
unfold pile. destruct (name e =? "timescale_update")%string; [|reflexivity].
destruct (seriesData e) as [[batch|]|]; try reflexivity. now rewrite app_nil_r.
Qed.

Lemma accumulated_app a b : accumulated (a ++ b) = accumulated b ++ accumulated a.
Proof. unfold accumulated at 1. rewrite fold_left_app. apply pile_app. Qed.

Lemma accumulated_completion c d :
  isCompletion c = true -> accumulated (c :: d) = accumulated d.
Proof.
intros Hc. unfold accumulated. simpl. unfold pile at 2.
now rewrite (completion_not_push c Hc).
Qed.

(** One stalled completion, then events that are no completion: either the
    fetch resolves there, or it goes on with one more stall counted. *)
Lemma stall_step f c d :
  Inv f -> (0 < requestCount f)%nat -> (0 < lastLength f)%nat ->
  observedLength f = lastLength f ->
  forallb dated (rawCandles f) = true ->
  isCompletion c = true ->
  Forall (fun e => isCompletion e = false /\ readable e = true) d ->
  raised (feed f (c :: d)) = false /\
  ((subscribed (feed f (c :: d)) = false /\ sent (feed f (c :: d)) = [] /\
    resolved (final (feed f (c :: d))) = true /\
    exists bars, promise (final (feed f (c :: d))) = Fulfilled bars)
   \/
   (subscribed (feed f (c :: d)) = true /\ Inv (final (feed f (c :: d))) /\
    (0 < requestCount (final (feed f (c :: d))))%nat /\
    stallCount (final (feed f (c :: d))) = S (stallCount f) /\
    lastLength (final (feed f (c :: d))) = lastLength f /\
    rawCandles (final (feed f (c :: d)))
    = accumulated d ++ uniqueSorted (rawCandles f))).
Proof.
intros [Hp Ho Hr] Hreq Hlast Hobs Hdated Hc Hd.
assert (Hstall : nextStall f = S (stallCount f)).
{ unfold nextStall. rewrite Hobs, Nat.eqb_refl.
  now assert ((0 <? requestCount f)%nat = true) as -> by now apply Nat.ltb_lt. }
assert (Hdu := dated_uniqueSorted _ Hdated).
destruct (wantsMore f) eqn:Hw.
- assert (Hpr : printable (oldest f) = true).
  { apply printable_hd; [assumption|]. intros E.
    apply (proj1 (uniqueSorted_nil_iff _)) in E.
    apply (proj2 (observed_positive f)); [lia | assumption]. }
  simpl. rewrite (onEvent_more f c Hc Hw Hpr). simpl.
  rewrite (feed_pushes _ d Hd). simpl. split; [reflexivity|]. right.
  rewrite Hstall, Hobs. repeat split; auto; simpl; try lia. apply pile_app.
- simpl. rewrite (onEvent_done f c Hc Hw Hdu). simpl. split; [reflexivity|]. left.
  rewrite Hp. simpl. eauto 6.
Qed.

(** A completion that finds the stall counter at 2 and no growth resolves. *)
Lemma stall_cutoff f c post :
  Inv f -> (0 < requestCount f)%nat -> (2 <= stallCount f)%nat ->
  observedLength f = lastLength f ->
  forallb dated (rawCandles f) = true ->
  isCompletion c = true ->
  raised (feed f (c :: post)) = false /\
  subscribed (feed f (c :: post)) = false /\ sent (feed f (c :: post)) = [] /\
  resolved (final (feed f (c :: post))) = true /\
  exists bars, promise (final (feed f (c :: post))) = Fulfilled bars.
Proof.
intros [Hp Ho Hr] Hreq Hst Hobs Hdated Hc.
assert (Hw : wantsMore f = false).
{ unfold wantsMore. apply needMore_stalled. unfold nextStall.
  rewrite Hobs, Nat.eqb_refl.
  assert ((0 <? requestCount f)%nat = true) as -> by now apply Nat.ltb_lt.
  simpl. lia. }
simpl. rewrite (onEvent_done f c Hc Hw (dated_uniqueSorted _ Hdated)). simpl.
rewrite Hp. simpl. eauto 6.
Qed.

Lemma three_stalls f c1 d1 c2 d2 c3 post :
  Inv f -> (0 < requestCount f)%nat -> (0 < lastLength f)%nat ->
  isCompletion c1 = true -> isCompletion c2 = true -> isCompletion c3 = true ->
  Forall (fun e => isCompletion e = false /\ readable e = true) d1 ->
  Forall (fun e => isCompletion e = false /\ readable e = true) d2 ->
  forallb dated (rawCandles f) = true ->
  forallb dated (accumulated d1) = true -> forallb dated (accumulated d2) = true ->
  observedLength f = lastLength f ->
  observedLength (final (feed f (c1 :: d1))) = lastLength (final (feed f (c1 :: d1))) ->
  observedLength (final (feed f ((c1 :: d1) ++ c2 :: d2)))
    = lastLength (final (feed f ((c1 :: d1) ++ c2 :: d2))) ->
  raised (feed f ((c1 :: d1) ++ (c2 :: d2) ++ c3 :: post)) = false /\
  subscribed (feed f ((c1 :: d1) ++ (c2 :: d2) ++ c3 :: post)) = false /\
  resolved (final (feed f ((c1 :: d1) ++ (c2 :: d2) ++ c3 :: post))) = true /\
  (exists bars,
     promise (final (feed f ((c1 :: d1) ++ (c2 :: d2) ++ c3 :: post))) = Fulfilled bars) /\
  sent (feed f ((c1 :: d1) ++ (c2 :: d2) ++ c3 :: post))
    = sent (feed f ((c1 :: d1) ++ c2 :: d2)).
Proof.
intros Hinv Hreq Hlast Hc1 Hc2 Hc3 Hd1 Hd2 Hdated0 Hda1 Hda2 H1 H2 H3.
destruct (stall_step f c1 d1 Hinv Hreq Hlast H1 Hdated0 Hc1 Hd1)
  as [Hr1 [(Hs1 & _ & Hres1 & Hful1)|(Hs1 & Hinv1 & Hreq1 & Hst1 & Hl1 & Hraw1)]].
{ rewrite !(feed_app_ended f (c1 :: d1)) by assumption. auto. }
set (f1 := final (feed f (c1 :: d1))) in *.
rewrite (feed_app_live f (c1 :: d1) (c2 :: d2) Hs1 Hr1) in H3. simpl final in H3.
rewrite !(feed_app_live f (c1 :: d1) _ Hs1 Hr1). fold f1. fold f1 in H3.
cbn [final sent raised subscribed].
assert (Hlast1 : (0 < lastLength f1)%nat) by lia.
assert (Hdated1 : forallb dated (rawCandles f1) = true).
{ rewrite Hraw1, forallb_app, Hda1. now apply dated_uniqueSorted. }
destruct (stall_step f1 c2 d2 Hinv1 Hreq1 Hlast1 H2 Hdated1 Hc2 Hd2)
  as [Hr2 [(Hs2 & _ & Hres2 & Hful2)|(Hs2 & Hinv2 & Hreq2 & Hst2 & Hl2 & Hraw2)]].
{ rewrite !(feed_app_ended f1 (c2 :: d2)) by assumption. auto. }
set (f2 := final (feed f1 (c2 :: d2))) in *.
rewrite (feed_app_live f1 (c2 :: d2) _ Hs2 Hr2). fold f2.
cbn [final sent raised subscribed].
assert (Hst : (2 <= stallCount f2)%nat) by lia.
assert (Hdated2 : forallb dated (rawCandles f2) = true).
{ rewrite Hraw2, forallb_app, Hda2. now apply dated_uniqueSorted. }
destruct (stall_cutoff f2 c3 post Hinv2 Hreq2 Hst H3 Hdated2 Hc3)
  as (Hr3 & Hs3 & Hsent3 & Hres3 & Hful3).
rewrite Hsent3, app_nil_r. auto.
Qed.

End HandlerFacts.

(* ------------------------------------------------------------------ *)
(** *** candles.ts: the finalized series *)

Module FinalFacts.
Import Candles Outcomes JsFacts DedupFacts HandlerFacts.

Local Abbreviation byStamp := (fun a b : Candle => timestamp a < timestamp b).

Lemma In_skipn {A} n (l : list A) x : In x (skipn n l) -> In x l.
Proof.
intros H. rewrite <- (firstn_skipn n l). apply in_or_app. now right.
Qed.

Lemma selectCandles_incl p l b : In b (selectCandles p l) -> In b l.
Proof.
unfold selectCandles, slice.
repeat match goal with
       | |- context [match ?x with Some _ => _ | None => _ end] => destruct x
       | |- context [if ?c then _ else _] => destruct c
       end;
  intros H;
  repeat match type of H with
         | In _ (skipn _ _) => apply In_skipn in H
         | In _ (filter _ _) => apply filter_In in H as [H _]
         end; exact H.
Qed.

Lemma bars_sorted l :
  StronglySorted (fun a b => v0 a < v0 b) l -> StronglySorted byStamp (map bar l).
Proof.
intros Hs. induction Hs as [|x l Hs IH Hall]; simpl; constructor; auto.
rewrite Forall_forall in *. intros y Hy.
apply in_map_iff in Hy as [c [<- Hc]]. simpl. now apply Hall.
Qed.

Lemma selectCandles_sorted p l :
  StronglySorted byStamp l -> StronglySorted byStamp (selectCandles p l).
Proof.
intros H0. unfold selectCandles, slice.
repeat match goal with
       | |- context [match ?x with Some _ => _ | None => _ end] => destruct x
       | |- context [if ?c then _ else _] => destruct c
       end;
  repeat first [ apply strictly_sorted_skipn | apply strictly_sorted_filter ];
  exact H0.
Qed.

Lemma filter_all {A} (q : A -> bool) l : forallb q l = true -> filter q l = l.
Proof.
induction l as [|x l IH]; simpl; [reflexivity|].
intros H. apply andb_true_iff in H as [-> H]. now rewrite IH.
Qed.

Lemma selectCandles_all p raw :
  keepsAll p raw = true -> selectCandles p (map bar raw) = map bar raw.
Proof.
unfold keepsAll. intros H.
apply andb_true_iff in H as [H Ha]. apply andb_true_iff in H as [Hf Ht].
assert (Hbar : forall q, forallb q (map bar raw) = forallb (fun c => q (bar c)) raw).
{ clear. intros q. induction raw as [|c raw IH]; simpl; [reflexivity|].
  now rewrite IH. }
unfold selectCandles.
assert (H1 : match from p with
             | Some fr => if truthy (Some fr)
                          then filter (fun c => fr <=? timestamp c) (map bar raw)
                          else map bar raw
             | None => map bar raw
             end = map bar raw).
{ destruct (from p) as [fr|]; [|reflexivity].
  destruct (truthy (Some fr)); [|reflexivity].
  apply filter_all. now rewrite Hbar. }
rewrite H1.
assert (H2 : match to p with
             | Some t => if truthy (Some t)
                         then filter (fun c => timestamp c <=? t) (map bar raw)
                         else map bar raw
             | None => map bar raw
             end = map bar raw).
{ destruct (to p) as [t|]; [|reflexivity].
  destruct (truthy (Some t)); [|reflexivity].
  apply filter_all. now rewrite Hbar. }
rewrite H2.
destruct (amount p) as [a|]; [|reflexivity].
rewrite length_map.
destruct (truthy (Some a)); [|reflexivity].
destruct (truthy (from p)); [reflexivity|]. simpl in Ha |- *.
apply Z.leb_le in Ha.
destruct (Z.ltb_spec a (Z.of_nat (length raw))); [lia | reflexivity].
Qed.

Lemma feed_request f events : request (final (feed f events)) = request f.
Proof.
revert f. induction events as [|e events IH]; intros f; simpl; [reflexivity|].
assert (H : request (stateOf (outcome (onEvent f e))) = request f).
{ unfold onEvent.
  repeat match goal with
         | |- context [match ?x with Some _ => _ | None => _ end] => destruct x
         | |- context [if ?c then _ else _] => destruct c
         end; reflexivity. }
destruct (outcome (onEvent f e)) as [f'|f']; simpl in *; [|assumption].
destruct (unsubscribes (onEvent f e)); simpl; [assumption|].
now rewrite IH.
Qed.

(** What a run that has just fulfilled its promise resolved with. *)
Lemma feed_fulfils p session events e bars :
  subscribed (feed (start p session) events) = true ->
  raised (feed (start p session) events) = false ->
  promise (final (feed (start p session) (events ++ [e]))) = Fulfilled bars ->
  bars = selectCandles p (map bar (uniqueSorted (accumulated events)))
  /\ forallb dated (uniqueSorted (accumulated events)) = true.
Proof.
intros Hsub Hraise Hful.
pose proof (feed_Inv _ events (Inv_start p session) Hraise) as Hinv.
rewrite Hsub in Hinv.
pose proof (feed_accumulated (start p session) events [] eq_refl Hsub Hraise) as Hacc.
pose proof (feed_request (start p session) events) as Hreq. simpl in Hreq.
rewrite feed_app in Hful. simpl in Hful. rewrite Hsub, Hraise in Hful.
simpl in Hful. set (f := final (feed (start p session) events)) in *.
pose proof (onEvent_Inv f e Hinv) as H.
destruct Hinv as [Hp Ho Hr].
destruct (outcome (onEvent f e)) as [f'|f']; simpl in Hful.
- destruct (unsubscribes (onEvent f e)); simpl in Hful.
  + destruct H as (_ & _ & Hd & Hbars). rewrite Hbars in Hful.
    injection Hful as <-. fold (accumulated events) in Hacc.
    now rewrite <- Hacc, Hreq.
  + destruct H as [Hp' _ _]. congruence.
- congruence.
Qed.

End FinalFacts.

(* ------------------------------------------------------------------ *)
(** *** The pagination engine: claims C1, C2 and C3 *)

Module PaginationSpec.
Import Candles Outcomes JsFacts DedupFacts HandlerFacts FinalFacts.

(** C1, as stated, fails: the accumulator is built by prepending, and the
    [Map] keeps the value written last, which is the one standing last in
    the accumulator.  Two pushes of the same instant, the second with another
    close: the fetch resolves with the bar of the first push, not with the
    one accumulated most recently. *)
Lemma C1_most_recent_value_loses :
  let older := mkRawCandle 0 1 [5; 6; 4; 10; 100] in
  let newer := mkRawCandle 0 1 [5; 6; 4; 20; 100] in
  let p := mkParams "X" None None None None in
  let run := feed (start p "cs_a")
               [push "cs_a" [older]; push "cs_a" [newer]; completed "cs_a"] in
  accumulated [push "cs_a" [older]; push "cs_a" [newer]] = [newer; older]
  /\ promise (final run) = Fulfilled [bar older]
  /\ promise (final run) <> Fulfilled [bar newer].
Proof.
cbv zeta. split; [reflexivity|]. split; [reflexivity|].
vm_compute. discriminate.
Qed.

(** C1 (amended).  When a completion resolves the fetch, the bars it
    resolves with are in strictly increasing timestamp order, so no
    timestamp occurs twice; each of them is the bar standing last in the
    accumulator among those of its timestamp (the accumulator being the
    pushed batches, each new one in front of the older ones, this is the
    bar of the earliest push that delivered the timestamp); and when no
    filter of the request removes a bar (every bar is at or after [from] and
    at or before [to], and [amount] is not exceeded), every accumulated
    timestamp is there. *)
Theorem C1_finalized_unique_sorted_last_in_accumulator :
  forall p session events e bars,
    subscribed (feed (start p session) events) = true ->
    raised (feed (start p session) events) = false ->
    promise (final (feed (start p session) (events ++ [e]))) = Fulfilled bars ->
    StronglySorted Z.lt (map timestamp bars)
    /\ NoDup (map timestamp bars)
    /\ (forall b, In b bars ->
          exists c, lastWith (timestamp b) (accumulated events) = Some c
                    /\ b = bar c)
    /\ (keepsAll p (uniqueSorted (accumulated events)) = true ->
        forall t, In t (map v0 (accumulated events)) <-> In t (map timestamp bars)).
Proof.
intros p session events e bars Hsub Hraise Hful.
destruct (feed_fulfils p session events e bars Hsub Hraise Hful) as [-> _].
set (acc := accumulated events).
assert (Hsorted : StronglySorted Z.lt
                    (map timestamp (selectCandles p (map bar (uniqueSorted acc))))).
{ apply strictly_sorted_map, selectCandles_sorted, bars_sorted, uniqueSorted_sorted. }
split; [exact Hsorted|]. split.
- clear - Hsorted. induction Hsorted as [|x l Hs IH Hall]; constructor; auto.
  rewrite Forall_forall in Hall. intros Hin. apply Hall in Hin. lia.
- split.
  + intros b Hb. apply selectCandles_incl, in_map_iff in Hb as [c [<- Hc]].
    exists c. split; [|reflexivity]. simpl. now apply In_uniqueSorted.
  + intros Hun t. rewrite (selectCandles_all _ _ Hun), map_map. simpl.
    symmetry. apply In_times_uniqueSorted.
Qed.

Lemma C1_witness :
  let c1 := mkRawCandle 0 60 [1; 2; 0; 1; 7] in
  let c2 := mkRawCandle 1 120 [1; 3; 1; 2; 9] in
  let p := mkParams "X" None None (Some 60) (Some 120) in
  let events := [push "cs_a" [c2]; push "cs_a" [c1; c2]] in
  let bars := [bar c1; bar c2] in
  StronglySorted Z.lt (map timestamp bars)
  /\ NoDup (map timestamp bars)
  /\ (forall b, In b bars ->
        exists c, lastWith (timestamp b) (accumulated events) = Some c /\ b = bar c)
  /\ (keepsAll p (uniqueSorted (accumulated events)) = true ->
      forall t, In t (map v0 (accumulated events)) <-> In t (map timestamp bars)).
Proof.
cbv zeta.
apply (C1_finalized_unique_sorted_last_in_accumulator
         (mkParams "X" None None (Some 60) (Some 120)) "cs_a"
         [push "cs_a" [mkRawCandle 1 120 [1; 3; 1; 2; 9]];
          push "cs_a" [mkRawCandle 0 60 [1; 2; 0; 1; 7]; mkRawCandle 1 120 [1; 3; 1; 2; 9]]]
         (completed "cs_a"));
  reflexivity.
Defined.

(** C2, as stated, fails: in the scenario the handler sends a follow-up
    request after the initial completion and after each of the first two
    stalled completions, so three requests are on the wire when the third
    stalled completion ends the fetch. *)
Lemma C2_scenario_sends_three_requests :
  let bars := [mkRawCandle 0 60 [1; 2; 0; 1; 7]; mkRawCandle 1 120 [1; 3; 1; 2; 9];
               mkRawCandle 2 180 [2; 4; 2; 3; 8]; mkRawCandle 3 240 [3; 5; 3; 4; 6]] in
  let p := mkParams "X" (Some TF60) (Some 10) None None in
  let run := feed (start p "cs_a")
               [push "cs_a" bars; completed "cs_a";
                completed "cs_a"; completed "cs_a"; completed "cs_a"] in
  promise (final run) = Fulfilled (map bar bars)
  /\ requestsForMore (sent run) = 3%nat
  /\ ~ (promise (final run) = Fulfilled (map bar bars)
        /\ requestsForMore (sent run) = 2%nat).
Proof.
cbv zeta. split; [reflexivity|]. split; [reflexivity|].
intros [_ H]. vm_compute in H. discriminate.
Qed.

(** C2 (amended).  A fetch with targetAmount 10 whose initial query yields
    4 bars of distinct timestamps, all inside the range of [Date], and then
    completes, followed by three consecutive completions that deliver no
    new bar, resolves with exactly those 4 bars, and exactly 3 "request more
    data" commands are sent: one after the initial completion and one after
    each of the first two stalls; the third stall ends the fetch instead of
    sending a fourth. *)
Theorem C2_partial_batch_then_three_stalls :
  forall p session batch c0 c1 c2 c3,
    amount p = Some 10 -> from p = None -> to p = None ->
    length batch = 4%nat -> NoDup (map v0 batch) ->
    forallb dated batch = true ->
    isCompletion c0 = true -> isCompletion c1 = true ->
    isCompletion c2 = true -> isCompletion c3 = true ->
    let before := feed (start p session) [push session batch; c0; c1; c2] in
    let run := feed (start p session) [push session batch; c0; c1; c2; c3] in
    promise (final before) = Pending
    /\ requestsForMore (sent before) = 3%nat
    /\ raised run = false
    /\ promise (final run) = Fulfilled (map bar (uniqueSorted batch))
    /\ length (map bar (uniqueSorted batch)) = 4%nat
    /\ requestsForMore (sent run) = 3%nat.
Proof.
intros p session batch c0 c1 c2 c3 Hamount Hfrom Hto Hlen Hnd Hdated H0 H1 H2 H3.
set (u := uniqueSorted batch).
assert (Hu : length u = 4%nat) by (unfold u; now rewrite uniqueSorted_length).
assert (Hidem : uniqueSorted u = u) by apply uniqueSorted_idem.
assert (Hdu : forallb dated u = true) by now apply dated_uniqueSorted.
assert (Hpu : printable (hd_error u) = true).
{ apply printable_hd; [assumption|]. intros E. rewrite E in Hu. discriminate. }
assert (Hmore : forall raw k l s e,
          uniqueSorted raw = u -> isCompletion e = true ->
          ((0 <? k)%nat && (4 =? l)%nat = true -> s < 2)%nat ->
          onEvent (mkFetch p session raw false k l s Pending true) e =
          mkReaction
            (Normal (mkFetch p session u false (S k) 4
                       (if (0 <? k)%nat && (4 =? l)%nat then S s else O)
                       Pending true))
            [requestMoreData session] false).
{ intros raw k l s e Hraw He Hs.
  set (f := mkFetch p session raw false k l s Pending true).
  assert (Hobs : observedLength f = 4%nat)
    by (unfold observedLength, f; simpl; now rewrite Hraw).
  assert (Hst : nextStall f = if (0 <? k)%nat && (4 =? l)%nat then S s else O)
    by (unfold nextStall; rewrite Hobs; reflexivity).
  assert (Hw : wantsMore f = true).
  { unfold wantsMore, needMore. rewrite Hobs, Hst. simpl request.
    rewrite Hfrom, Hamount.
    destruct ((0 <? k)%nat && (4 =? l)%nat); [|reflexivity].
    specialize (Hs eq_refl). destruct s as [|[|s]]; [reflexivity|reflexivity|lia]. }
  assert (Hpr : printable (oldest f) = true)
    by (unfold oldest, f; simpl; now rewrite Hraw).
  rewrite (onEvent_more f e He Hw Hpr). unfold asksMore.
  rewrite Hobs, Hst. simpl. now rewrite Hraw. }
assert (Hfin : selectCandles p (map bar u) = map bar u).
{ apply selectCandles_all. unfold keepsAll. rewrite Hfrom, Hto, Hamount, Hu.
  reflexivity. }
cbv zeta. unfold feed.
change (onEvent (start p session) (push session batch))
  with (stay (mkFetch p session batch false 0 0 0 Pending true)).
cbn [outcome stay unsubscribes sends].
rewrite (Hmore batch 0%nat 0%nat 0%nat c0 eq_refl H0) by (simpl; discriminate).
cbn [outcome unsubscribes sends Nat.ltb Nat.leb andb].
rewrite (Hmore u 1%nat 4%nat 0%nat c1 Hidem H1) by (intros; lia).
cbn [outcome unsubscribes sends Nat.ltb Nat.leb Nat.eqb andb].
rewrite (Hmore u 2%nat 4%nat 1%nat c2 Hidem H2) by (intros; lia).
cbn [outcome unsubscribes sends Nat.ltb Nat.leb Nat.eqb andb final sent raised app].
rewrite (onEvent_done _ c3 H3).
2:{ unfold wantsMore. apply needMore_stalled.
    unfold nextStall, observedLength. simpl. rewrite Hidem, Hu. simpl. lia. }
2:{ simpl. now rewrite Hidem. }
unfold finalizes.
cbn [outcome unsubscribes sends final sent raised app promise rawCandles request settle].
rewrite Hidem, Hfin, length_map, Hu.
repeat split; reflexivity.
Qed.

Lemma C2_witness :
  let bars := [mkRawCandle 0 60 [1; 2; 0; 1; 7]; mkRawCandle 1 120 [1; 3; 1; 2; 9];
               mkRawCandle 2 180 [2; 4; 2; 3; 8]; mkRawCandle 3 240 [3; 5; 3; 4; 6]] in
  let p := mkParams "X" (Some TF60) (Some 10) None None in
  let events := [push "cs_a" bars; completed "cs_a"; completed "cs_a";
                 mkEvent "symbol_error" (Some [PStr "cs_a"])] in
  let before := feed (start p "cs_a") events in
  let run := feed (start p "cs_a") (events ++ [completed "cs_a"]) in
  promise (final before) = Pending
  /\ requestsForMore (sent before) = 3%nat
  /\ raised run = false
  /\ promise (final run) = Fulfilled (map bar (uniqueSorted bars))
  /\ length (map bar (uniqueSorted bars)) = 4%nat
  /\ requestsForMore (sent run) = 3%nat.
Proof.
cbv zeta.
apply (C2_partial_batch_then_three_stalls
         (mkParams "X" (Some TF60) (Some 10) None None) "cs_a"
         [mkRawCandle 0 60 [1; 2; 0; 1; 7]; mkRawCandle 1 120 [1; 3; 1; 2; 9];
          mkRawCandle 2 180 [2; 4; 2; 3; 8]; mkRawCandle 3 240 [3; 5; 3; 4; 6]]
         (completed "cs_a") (completed "cs_a")
         (mkEvent "symbol_error" (Some [PStr "cs_a"]))
         (completed "cs_a"));
  try reflexivity.
repeat constructor; simpl; intuition discriminate.
Defined.




End PaginationSpec.

(* ------------------------------------------------------------------ *)
(** *** The framing codec: claims C7 and C8 *)

Module CodecFacts.
Import Codec.

Lemma eqb_eq a b : eqb a b = true <-> a = b.
Proof.
revert b. induction a as [|x a IH]; intros [|y b]; simpl; try (split; congruence).
- rewrite andb_true_iff, N.eqb_eq, IH. split; [intros [-> ->]|intros [= -> ->]]; auto.
Qed.

Lemma digits_all d : Forall (fun u => isDigit u = true) (digits d).
Proof. induction d; simpl; constructor; auto. Qed.

Lemma to_uint_nonnil n : Nat.to_uint n <> Decimal.Nil.
Proof.
rewrite <- (DecimalNat.Unsigned.of_to n), DecimalNat.Unsigned.to_of.
apply DecimalFacts.unorm_nonnil.
Qed.

Lemma decimal_shape n :
  exists d ds, decimal n = d :: ds /\ isDigit d = true
               /\ Forall (fun u => isDigit u = true) ds.
Proof.
unfold decimal. pose proof (digits_all (Nat.to_uint n)) as Hall.
pose proof (to_uint_nonnil n) as Hne.
destruct (Nat.to_uint n); simpl in *; try congruence;
  inversion Hall; subst; eauto.
Qed.

Lemma dropDigits_app ds rest :
  Forall (fun u => isDigit u = true) ds ->
  dropDigits (ds ++ marker ++ rest) = marker ++ rest.
Proof.
induction 1 as [|d ds Hd _ IH]; simpl; [reflexivity|]. now rewrite Hd.
Qed.

Lemma matchMarker_frame n rest : matchMarker (frame n rest) = Some rest.
Proof.
destruct (decimal_shape n) as (d & ds & Hdec & Hd & Hds).
unfold frame, matchMarker. rewrite Hdec.
change (stripPrefix marker (lit "~m~" ++ (d :: ds) ++ lit "~m~" ++ rest))
  with (Some (d :: ds ++ marker ++ rest)).
cbv beta iota. rewrite Hd, (dropDigits_app ds rest Hds). reflexivity.
Qed.

Lemma stripPrefix_length p s r :
  stripPrefix p s = Some r -> (length s = length p + length r)%nat.
Proof.
revert s. induction p as [|a p IH]; intros s; simpl.
- now intros [= ->].
- destruct s as [|b s]; [discriminate|].
  destruct (a =? b)%N; [|discriminate]. intros H. simpl. now rewrite (IH s H).
Qed.

Lemma dropDigits_length s : (length (dropDigits s) <= length s)%nat.
Proof.
induction s as [|c s IH]; simpl; [lia|]. destruct (isDigit c); simpl; lia.
Qed.

Lemma matchMarker_shorter s rest :
  matchMarker s = Some rest -> (length rest < length s)%nat.
Proof.
unfold matchMarker. destruct (stripPrefix marker s) as [[|d r]|] eqn:E;
  try discriminate.
destruct (isDigit d); [|discriminate]. intros H.
apply stripPrefix_length in E, H. pose proof (dropDigits_length r).
simpl in *. lia.
Qed.

(** Fuel above the length of the text is never used up. *)
Lemma splitFrom_fuel f1 f2 piece s :
  (length s < f1)%nat -> (length s < f2)%nat ->
  splitFrom f1 piece s = splitFrom f2 piece s.
Proof.
revert f2 piece s. induction f1 as [|f1 IH]; intros f2 piece s H1 H2; [lia|].
destruct f2 as [|f2]; [lia|]. simpl.
destruct s as [|c s]; [reflexivity|].
destruct (matchMarker (c :: s)) as [rest|] eqn:E.
- apply matchMarker_shorter in E. f_equal. apply IH; simpl in *; lia.
- apply IH; simpl in *; lia.
Qed.

Lemma hasMarker_cons c q :
  hasMarker (c :: q) =
  match stripPrefix marker (c :: q) with
  | Some (d :: _) => isDigit d || hasMarker q
  | _ => hasMarker q
  end.
Proof. reflexivity. Qed.

Lemma hasMarker_tail c q : hasMarker (c :: q) = false -> hasMarker q = false.
Proof.
rewrite hasMarker_cons.
destruct (stripPrefix marker (c :: q)) as [[|d r]|]; auto.
intros H. now apply orb_false_iff in H.
Qed.

Lemma containsMarker_cons c q :
  containsMarker (c :: q) =
  match matchMarker (c :: q) with Some _ => true | None => containsMarker q end.
Proof. reflexivity. Qed.

Lemma endsOpen_cons c q : endsOpen (c :: q) = openMarker (c :: q) || endsOpen q.
Proof. reflexivity. Qed.

(** A text without [~m~<digit>] holds no marker, whole or open. *)
Lemma hasMarker_head c q :
  hasMarker (c :: q) = false ->
  matchMarker (c :: q) = None /\ openMarker (c :: q) = false.
Proof.
rewrite hasMarker_cons. unfold matchMarker, openMarker.
destruct (stripPrefix marker (c :: q)) as [[|d r]|]; auto.
intros H. apply orb_false_iff in H as [-> _]. auto.
Qed.

Lemma hasMarker_containsMarker q : hasMarker q = false -> containsMarker q = false.
Proof.
induction q as [|c q IH]; [reflexivity|]. intros H.
rewrite containsMarker_cons. destruct (hasMarker_head c q H) as [-> _].
apply IH. exact (hasMarker_tail c q H).
Qed.

Lemma hasMarker_endsOpen q : hasMarker q = false -> endsOpen q = false.
Proof.
induction q as [|c q IH]; [reflexivity|]. intros H.
rewrite endsOpen_cons. destruct (hasMarker_head c q H) as [_ ->].
apply IH. exact (hasMarker_tail c q H).
Qed.

(** [~m~] at the head of a text followed by another: either it is at the
    head of the text itself, or the text is too short to hold it. *)
Lemma stripPrefix_marker_app q t r :
  stripPrefix marker (q ++ t) = Some r ->
  (exists r0, stripPrefix marker q = Some r0 /\ r = r0 ++ t)
  \/ (stripPrefix marker q = None /\ (length q < 3)%nat).
Proof.
change marker with [126%N; 109%N; 126%N].
destruct q as [|a [|b [|c q]]]; cbn [app stripPrefix length].
- intros _. right. split; [reflexivity | lia].
- intros _. right. destruct (126 =? a)%N; split; auto; lia.
- intros _. right. destruct (126 =? a)%N, (109 =? b)%N; split; auto; lia.
- destruct (126 =? a)%N; [|discriminate]. destruct (109 =? b)%N; [|discriminate].
  destruct (126 =? c)%N; [|discriminate]. intros [= <-]. left. eauto.
Qed.

(** What a text too short for [~m~] must be, for [~m~] to be at the head
    of it followed by [~m~]. *)
Lemma stripPrefix_marker_short y t' r :
  (length y < 3)%nat ->
  stripPrefix marker (y ++ marker ++ t') = Some r ->
  y = [] \/ (y = lit "~m" /\ r = [109%N; 126%N] ++ t').
Proof.
change marker with [126%N; 109%N; 126%N]. change (lit "~m") with [126%N; 109%N].
destruct y as [|a [|b [|c y]]]; cbn [app stripPrefix length]; intros Hlen;
  try lia.
- now left.
- destruct (N.eqb_spec 126 a); [|discriminate]. discriminate.
- destruct (N.eqb_spec 126 a) as [<-|]; [|discriminate].
  destruct (N.eqb_spec 109 b) as [<-|]; [|discriminate].
  intros [= <-]. right. split; reflexivity.
Qed.

Lemma dropDigits_before ds t :
  (t = [] \/ exists t', t = marker ++ t') ->
  dropDigits (ds ++ t) = dropDigits ds ++ t.
Proof.
intros Ht. induction ds as [|d ds IH]; cbn [app dropDigits].
- destruct Ht as [->|[t' ->]]; reflexivity.
- destruct (isDigit d); [exact IH | reflexivity].
Qed.

(** A match that begins inside a payload, the payload ending the text or
    being followed by the next frame: the payload holds a whole marker, or
    it is an open marker that the next frame completes. *)
Lemma matchMarker_inside q t r :
  q <> [] -> (t = [] \/ exists t', t = marker ++ t') ->
  matchMarker (q ++ t) = Some r ->
  (exists r', matchMarker q = Some r') \/ (t <> [] /\ openMarker q = true).
Proof.
intros Hq Ht. unfold matchMarker at 1.
destruct (stripPrefix marker (q ++ t)) as [[|d r1]|] eqn:E; try discriminate.
destruct (isDigit d) eqn:Hd; [|discriminate]. intros Hr.
destruct (stripPrefix_marker_app q t _ E) as [(r0 & Hr0 & Hcat)|[Hnone Hlen]].
- destruct r0 as [|d0 r0].
  + exfalso. simpl in Hcat. destruct Ht as [->|[t' ->]]; [discriminate|].
    change marker with [126%N; 109%N; 126%N] in Hcat.
    injection Hcat as -> _. vm_compute in Hd. discriminate Hd.
  + injection Hcat as <- ->.
    rewrite (dropDigits_before r0 t Ht) in Hr.
    destruct (stripPrefix_marker_app (dropDigits r0) t _ Hr)
      as [(r2 & Hr2 & _)|[Hnone2 Hlen2]].
    * left. exists r2. unfold matchMarker. now rewrite Hr0, Hd.
    * right. destruct Ht as [->|[t' ->]].
      { rewrite app_nil_r in Hr. congruence. }
      split; [discriminate|]. unfold openMarker. rewrite Hr0, Hd.
      destruct (stripPrefix_marker_short _ _ _ Hlen2 Hr) as [->|[-> _]]; reflexivity.
- exfalso. destruct Ht as [->|[t' ->]].
  { rewrite app_nil_r in E. congruence. }
  destruct (stripPrefix_marker_short _ _ _ Hlen E) as [->|[_ Hd1]];
    [now apply Hq|]. injection Hd1 as -> _. vm_compute in Hd. discriminate Hd.
Qed.

(** Inside a payload that holds no whole marker and, when a frame follows,
    does not end in an open one, no match begins. *)
Lemma splitFrom_payload q : forall fuel piece t,
  containsMarker q = false ->
  (t = [] \/ (endsOpen q = false /\ exists t', t = marker ++ t')) ->
  (length (q ++ t) < fuel)%nat ->
  splitFrom fuel piece (q ++ t) = splitFrom fuel (piece ++ q) t.
Proof.
induction q as [|c q IH]; intros fuel piece t Hq Ht Hlen.
- now rewrite app_nil_r.
- destruct fuel as [|fuel]; [simpl in Hlen; lia|].
  change (splitFrom (S fuel) piece ((c :: q) ++ t))
    with (match matchMarker ((c :: q) ++ t) with
          | Some rest => piece :: splitFrom fuel [] rest
          | None => splitFrom fuel (piece ++ [c]) (q ++ t)
          end).
  rewrite containsMarker_cons in Hq.
  destruct (matchMarker (c :: q)) as [x|] eqn:Hhead; [discriminate|].
  assert (Hnone : matchMarker ((c :: q) ++ t) = None).
  { destruct (matchMarker ((c :: q) ++ t)) as [r|] eqn:E; [|reflexivity].
    exfalso.
    destruct (matchMarker_inside (c :: q) t r) as [[r' Hr']|[Hne Hopen]];
      [discriminate | destruct Ht as [->|[_ [t' ->]]]; eauto | exact E
      | congruence |].
    destruct Ht as [->|[Hends _]]; [now apply Hne|].
    rewrite endsOpen_cons, Hopen in Hends. discriminate. }
  rewrite Hnone. simpl in Hlen.
  rewrite IH; [| exact Hq | | lia].
  + rewrite <- app_assoc. cbn [app].
    apply splitFrom_fuel; rewrite length_app in Hlen; lia.
  + destruct Ht as [->|[Hends Ht]]; [now left|]. right. split; [|exact Ht].
    rewrite endsOpen_cons in Hends. now apply orb_false_iff in Hends as [_ ->].
Qed.

Lemma chunkOf_shape items :
  chunkOf items = [] \/ exists t', chunkOf items = marker ++ t'.
Proof.
destruct items as [|[n p] items]; [now left|]. right.
unfold chunkOf. simpl. unfold frame. rewrite <- app_assoc. eauto.
Qed.

Lemma separable_cons q rest :
  separable (q :: rest) = true ->
  containsMarker q = false
  /\ (rest = [] \/ endsOpen q = false)
  /\ separable rest = true.
Proof.
cbn [separable]. intros H.
apply andb_true_iff in H as [H Hrest]. apply andb_true_iff in H as [Hc He].
apply negb_true_iff in Hc. repeat split; auto.
destruct rest; [now left|]. right. now apply negb_true_iff.
Qed.

Lemma splitFrom_frames items : forall fuel piece,
  separable (map snd items) = true ->
  (length (chunkOf items) < fuel)%nat ->
  splitFrom fuel piece (chunkOf items) = piece :: map snd items.
Proof.
induction items as [|[n p] items IH]; intros fuel piece Hall Hlen.
- destruct fuel; [simpl in Hlen; lia | reflexivity].
- destruct fuel as [|fuel]; [lia|].
  assert (Hchunk : chunkOf ((n, p) :: items) = frame n (p ++ chunkOf items)).
  { unfold chunkOf, frame. simpl. now rewrite <- !app_assoc. }
  rewrite Hchunk in *.
  pose proof (matchMarker_frame n (p ++ chunkOf items)) as Hm.
  pose proof (matchMarker_shorter _ _ Hm) as Hshort.
  destruct (frame n (p ++ chunkOf items)) as [|c s] eqn:E; [discriminate|].
  simpl splitFrom. rewrite Hm. simpl map. f_equal.
  simpl in Hall. apply separable_cons in Hall as (Hc & He & Hrest).
  simpl in Hlen.
  rewrite splitFrom_payload; [| exact Hc | | simpl in *; lia].
  + apply IH; [exact Hrest|]. rewrite length_app in Hshort. simpl in *. lia.
  + destruct He as [He|He].
    * left. apply map_eq_nil in He. now subst items.
    * destruct (chunkOf_shape items) as [->|Hs]; [now left | right; auto].
Qed.

Lemma split_frames items :
  separable (map snd items) = true ->
  split (chunkOf items) = [] :: map snd items.
Proof. intros H. apply splitFrom_frames; [assumption | lia]. Qed.

Lemma utf8Length_ascii s : isAscii s = true -> utf8Length s = length s.
Proof.
induction s as [|u s IH]; simpl; [reflexivity|].
intros H. apply andb_true_iff in H as [-> Hs]. now rewrite IH.
Qed.

Section Parsing.
Variable Json : Type.
Variable JSON_parse : jsstring -> option Json.
Variable session_id : Json -> option bool.

Local Abbreviation parse := (parseMessage Json JSON_parse session_id).
Local Abbreviation dec := (decode Json JSON_parse session_id).

Lemma parseMessage_frames items :
  separable (map snd items) = true ->
  parse (chunkOf items) = map dec (map snd items).
Proof.
intros H. unfold parseMessage. rewrite (split_frames items H).
destruct items as [|[n p] items]; [reflexivity|].
assert (Hne : (length (chunkOf ((n, p) :: items)) =? 0)%nat = false).
{ apply Nat.eqb_neq. unfold chunkOf, frame. simpl. lia. }
now rewrite Hne.
Qed.

(** C7 (amended).  For every chunk made of N well-formed length-prefixed
    frames whose payloads the frames keep apart (no payload contains a
    whole length marker [~m~<digits>~m~], and no payload but the last ends
    in [~m~<digits>] or [~m~<digits>~m]), [parseMessage] returns exactly N
    values, the k-th decoded from the k-th payload: the order of the chunk,
    and nothing kept from an earlier call. *)
Theorem C7_frames_decoded_in_order :
  forall payloads,
    separable payloads = true ->
    parse (concat (map envelope payloads)) = map dec payloads
    /\ length (parse (concat (map envelope payloads))) = length payloads.
Proof.
intros payloads Hall.
assert (E : concat (map envelope payloads)
            = chunkOf (map (fun p => (utf8Length p, p)) payloads)).
{ unfold chunkOf. rewrite map_map. reflexivity. }
assert (R : parse (concat (map envelope payloads)) = map dec payloads).
{ rewrite E, parseMessage_frames.
  - rewrite !map_map. reflexivity.
  - rewrite map_map. simpl. now rewrite map_id. }
split; [exact R|]. now rewrite R, length_map.
Qed.

(** C8 (amended).  For every heartbeat payload (one whose first three
    characters are [~h~]) the echo prepared by [parseMessage] is the payload
    wrapped as [~m~<n>~m~<payload>] where [n] is the decimal length of the
    payload in UTF-16 code units; when the payload is ASCII that is its
    byte length, and the echo is the envelope of the wire format. *)
Theorem C8_heartbeat_echo :
  forall payload,
    firstn 3 payload = lit "~h~" ->
    type (dec payload) = ping
    /\ data (dec payload) = Text (frame (length payload) payload)
    /\ (isAscii payload = true -> data (dec payload) = Text (envelope payload)).
Proof.
intros payload Hh. unfold decode.
rewrite (proj2 (eqb_eq _ _) Hh). simpl type. simpl data.
repeat split. intros Hascii. unfold envelope, frame.
now rewrite (utf8Length_ascii _ Hascii).
Qed.

End Parsing.

(** C7, as stated, fails: the decoder splits on every [~m~<digits>~m~] and
    never reads the length, so one well-formed frame whose payload contains
    such a text comes out as two values.  A payload that ends in
    [~m~<digits>] or in [~m~<digits>~m] is completed by the [~m~] of the
    frame after it: two frames come out as two values, but the first has
    lost its end and the second begins with what is left of its own length
    marker. *)
Lemma C7_marker_inside_a_payload :
  let payload := lit "a~m~1~m~b" in
  let chunk := concat (map envelope [payload]) in
  let values := fun payloads =>
    map (fun m => data m)
        (parseMessage jsstring (fun text => Some text) (fun _ => Some false)
           (concat (map envelope payloads))) in
  chunk = lit "~m~9~m~a~m~1~m~b"
  /\ length (parseMessage unit (fun _ => None) (fun _ => None) chunk) = 2%nat
  /\ length (parseMessage unit (fun _ => None) (fun _ => None) chunk)
     <> length [payload]
  /\ values [lit "a~m~1"; lit "b"] = [Parsed (lit "a"); Parsed (lit "1~m~b")]
  /\ values [lit "a~m~1~m"; lit "b"] = [Parsed (lit "a"); Parsed (lit "m~1~m~b")].
Proof.
cbv zeta. split; [reflexivity|]. split; [reflexivity|].
split; [vm_compute; discriminate|]. split; vm_compute; reflexivity.
Qed.

Lemma C7_witness :
  let payloads := [lit "~h~7"; lit "a~m~1b"; lit "~j~{}"; lit "x~m~12"] in
  parseMessage unit (fun _ => None) (fun _ => None) (concat (map envelope payloads))
  = map (decode unit (fun _ => None) (fun _ => None)) payloads
  /\ length (parseMessage unit (fun _ => None) (fun _ => None)
               (concat (map envelope payloads))) = length payloads.
Proof.
cbv zeta.
apply (C7_frames_decoded_in_order unit (fun _ => None) (fun _ => None)
         [lit "~h~7"; lit "a~m~1b"; lit "~j~{}"; lit "x~m~12"]).
reflexivity.
Defined.

(** C8, as stated, fails: the length written in the echo counts UTF-16 code
    units, not bytes.  A heartbeat payload with one non-ASCII character is
    echoed with 4 where its envelope says 5. *)
Lemma C8_length_counts_code_units :
  let payload := lit "~h~" ++ [233%N] in
  firstn 3 payload = lit "~h~"
  /\ data (decode unit (fun _ => None) (fun _ => None) payload)
     = Text (lit "~m~4~m~~h~" ++ [233%N])
  /\ envelope payload = lit "~m~5~m~~h~" ++ [233%N]
  /\ data (decode unit (fun _ => None) (fun _ => None) payload)
     <> Text (envelope payload).
Proof. cbv zeta. repeat split. vm_compute. discriminate. Qed.

Lemma C8_witness :
  let payload := lit "~h~42" in
  type (decode unit (fun _ => None) (fun _ => None) payload) = ping
  /\ data (decode unit (fun _ => None) (fun _ => None) payload)
     = Text (frame (length payload) payload)
  /\ (isAscii payload = true ->
      data (decode unit (fun _ => None) (fun _ => None) payload)
      = Text (envelope payload)).
Proof.
cbv zeta.
apply (C8_heartbeat_echo unit (fun _ => None) (fun _ => None) (lit "~h~42")).
reflexivity.
Defined.

End CodecFacts.

(* ------------------------------------------------------------------ *)
(** *** The session manager: claim C9 *)

Module SessionSpec.
Import Connection.
Local Open Scope Q_scope.

Lemma power_step n : (3 # 2) ^ Z.of_nat (S n) == (3 # 2) ^ Z.of_nat n * (3 # 2).
Proof.
rewrite Nat2Z.inj_succ. unfold Z.succ.
rewrite Qpower_plus by (intros H; discriminate H). reflexivity.
Qed.

Lemma power_grows n : (7 <= n)%nat -> 12 <= (3 # 2) ^ Z.of_nat n.
Proof.
induction 1 as [|n Hn IH].
- vm_compute. discriminate.
- rewrite power_step.
  apply Qle_trans with ((3 # 2) ^ Z.of_nat n * 1); [now rewrite Qmult_1_r|].
  apply Qmult_le_compat_nonneg.
  + split; [|apply Qle_refl]. apply Qle_trans with 12; [discriminate | exact IH].
  + split; discriminate.
Qed.

Lemma reconnectDelay_capped n : (7 <= n)%nat -> reconnectDelay n == 60000.
Proof.
intros Hn. unfold reconnectDelay. apply Q.min_r.
apply Qle_trans with (5000 * 12); [discriminate|].
apply Qmult_le_l; [reflexivity | now apply power_grows].
Qed.

(** Below the cap the delay is a multiple of 1/64 with a numerator far
    below 2^53: binary64 computes it without rounding. *)
Lemma reconnectDelay_exact_in_binary64 n :
  (n <= 6)%nat ->
  exists m : Z,
    (0 <= m < 2 ^ 53)%Z /\ 5000 * (3 # 2) ^ Z.of_nat n == m # 64
    /\ reconnectDelay n == m # 64.
Proof.
intros Hn.
exists (5000 * 3 ^ Z.of_nat n * 2 ^ Z.of_nat (6 - n))%Z.
do 7 (destruct n as [|n]; [vm_compute; repeat split; discriminate|]). lia.
Qed.

(** C9.  After a transport close with auto-reconnect enabled and no manual
    close, a reconnect is scheduled after min(5000 * 1.5^n, 60000) ms, [n]
    being the attempt counter, which is then incremented: 5000, 7500, 11250
    and 16875 ms for attempts 0, 1, 2, 3, never more than 60000 and exactly
    60000 from the seventh attempt on; the listener of ['open'] resets the
    counter, so the close that follows a reopen schedules 5000 ms again. *)
Theorem C9_reconnect_delay :
  forall (Heap : Type) (c : Conn Heap) (n : nat),
    autoReconnect c = true -> manuallyClosed c = false ->
    reconnectAttempts c = n ->
    reconnectTimers (onClose c) = (reconnectTimers c ++ [reconnectDelay n])%list
    /\ reconnectDelay n == Qmin (5000 * (3 # 2) ^ Z.of_nat n) 60000
    /\ reconnectAttempts (onClose c) = S n
    /\ reconnectDelay n <= 60000
    /\ ((7 <= n)%nat -> reconnectDelay n == 60000)
    /\ (reconnectDelay 0 == 5000 /\ reconnectDelay 1 == 7500
        /\ reconnectDelay 2 == 11250 /\ reconnectDelay 3 == 16875)
    /\ (forall c' : Conn Heap, reconnectAttempts (onOpen c') = O)
    /\ reconnectTimers (onClose (onOpen (onClose c)))
       = (reconnectTimers (onClose c) ++ [reconnectDelay 0])%list.
Proof.
intros Heap c n Hauto Hman Hn.
assert (Hc : onClose c =
             mkConn (autoReconnect c) (Some CLOSED) (token c) (subscribers c) false
                    (S n) (manuallyClosed c) (resolveConnection c) (wire c)
                    (reconnectTimers c ++ [reconnectDelay n]) (heap c)).
{ unfold onClose. now rewrite Hauto, Hman, Hn. }
rewrite Hc. repeat split; try reflexivity.
- apply Q.le_min_r.
- apply reconnectDelay_capped.
- unfold onClose, onOpen. simpl. now rewrite Hauto, Hman.
Qed.

Lemma C9_witness :
  let c := fresh true tt in
  reconnectTimers (onClose c) = (reconnectTimers c ++ [reconnectDelay 0])%list
  /\ reconnectDelay 0 == Qmin (5000 * (3 # 2) ^ Z.of_nat 0) 60000
  /\ reconnectAttempts (onClose c) = 1%nat
  /\ reconnectDelay 0 <= 60000
  /\ ((7 <= 0)%nat -> reconnectDelay 0 == 60000)
  /\ (reconnectDelay 0 == 5000 /\ reconnectDelay 1 == 7500
      /\ reconnectDelay 2 == 11250 /\ reconnectDelay 3 == 16875)
  /\ (forall c' : Conn unit, reconnectAttempts (onOpen c') = O)
  /\ reconnectTimers (onClose (onOpen (onClose c)))
     = (reconnectTimers (onClose c) ++ [reconnectDelay 0])%list.
Proof.
cbv zeta. apply (C9_reconnect_delay unit (fresh true tt) 0%nat); reflexivity.
Defined.

End SessionSpec.

(* ------------------------------------------------------------------ *)
(** *** The registry of subscribers *)

Module RegistryFacts.
Import Connection Outcomes.

Lemma live_app a b : live (a ++ b) = live a ++ live b.
Proof. unfold live. apply flat_map_app. Qed.

Lemma isLive_In h subs : existsb (isLive h) subs = true <-> In h (live subs).
Proof.
induction subs as [|[x|] subs IH]; simpl.
- split; [discriminate | tauto].
- rewrite orb_true_iff, IH, Nat.eqb_eq. split; intros [H|H]; auto.
- exact IH.
Qed.

Lemma isLive_existsb h subs :
  existsb (isLive h) subs = existsb (Nat.eqb h) (live subs).
Proof.
induction subs as [|[x|] subs IH]; [reflexivity| |exact IH].
change (live (Some x :: subs)) with (x :: live subs). simpl. now rewrite IH.
Qed.

Lemma live_unsubscribe h subs :
  live (map (fun entry => if isLive h entry then None else entry) subs)
  = filter (fun x => negb (h =? x)%nat) (live subs).
Proof.
induction subs as [|[x|] subs IH]; simpl; [reflexivity| |exact IH].
destruct (h =? x)%nat; simpl; now rewrite IH.
Qed.

Lemma live_unsubscribed {Heap} h (c : Conn Heap) :
  live (subscribers (unsubscribe h c))
  = filter (fun x => negb (h =? x)%nat) (live (subscribers c)).
Proof. apply live_unsubscribe. Qed.

Lemma tomb_absent h subs :
  ~ In h (live subs) ->
  map (fun entry => if isLive h entry then None else entry) subs = subs.
Proof.
induction subs as [|[x|] subs IH]; intros Hnot; simpl; [reflexivity| |].
- destruct (Nat.eqb_spec h x) as [->|_].
  + exfalso. apply Hnot. now left.
  + rewrite IH; [reflexivity|]. intros H. apply Hnot. now right.
- now rewrite IH.
Qed.

End RegistryFacts.

(* ------------------------------------------------------------------ *)
(** *** The event dispatcher: claim C6 *)

Module DispatchSpec.
Import Connection Outcomes RegistryFacts.

Section Dispatch.
Variable Heap : Type.
Variable invoke : nat -> TradingViewEvent -> Conn Heap -> Completion (Conn Heap).

Lemma forEach_step fuel e index c :
  forEach invoke (S fuel) e index c =
  match nth_error (subscribers c) index with
  | None => Some (Normal c, [])
  | Some None => forEach invoke fuel e (S index) c
  | Some (Some h) =>
      match invoke h e c with
      | Normal c' =>
          match forEach invoke fuel e (S index) c' with
          | Some (r, called) => Some (r, h :: called)
          | None => None
          end
      | Throw c' => Some (Throw c', [h])
      end
  end.
Proof. reflexivity. Qed.

(** When the handler whose turn it is raises, the visit is over. *)
Lemma forEach_throw fuel e index c h c' :
  nth_error (subscribers c) index = Some (Some h) ->
  invoke h e c = Throw c' ->
  forEach invoke (S fuel) e index c = Some (Throw c', [h]).
Proof. intros Hn Hi. simpl. now rewrite Hn, Hi. Qed.

(** A visit from the entry after [prefix] on, by handlers that change the
    registry at most by unsubscribing themselves. *)
Lemma forEach_delivery e :
  (forall h s, subscribers (stateOf (invoke h e s)) = subscribers s
               \/ subscribers (stateOf (invoke h e s)) = subscribers (unsubscribe h s)) ->
  forall rest prefix (c : Conn Heap) fuel index,
    index = length prefix -> subscribers c = prefix ++ rest ->
    NoDup (live rest) -> (length rest < fuel)%nat ->
    exists r called later,
      forEach invoke fuel e index c = Some (r, called)
      /\ live rest = called ++ later
      /\ (isThrow r = false -> later = [])
      /\ (isThrow r = true ->
          exists earlier h s, called = earlier ++ [h] /\ invoke h e s = r).
Proof.
intros Hreg.
induction rest as [|[h|] rest IH]; intros prefix c fuel index -> Hsubs Hnd Hfuel;
  (destruct fuel as [|fuel]; [simpl in Hfuel; lia|]);
  rewrite forEach_step.
- assert (nth_error (subscribers c) (length prefix) = None) as ->
    by (apply nth_error_None; rewrite Hsubs, app_nil_r; lia).
  exists (Normal c), [], []. repeat split; auto. discriminate.
- assert (nth_error (subscribers c) (length prefix) = Some (Some h)) as ->
    by (now rewrite Hsubs, nth_error_app2, Nat.sub_diag by lia).
  change (live (Some h :: rest)) with (h :: live rest) in *.
  inversion Hnd as [|? ? Hnot Hnd']; subst.
  destruct (invoke h e c) as [c1|c1] eqn:Hh.
  + assert (Hsubs1 : exists prefix', length prefix' = S (length prefix)
                                     /\ subscribers c1 = prefix' ++ rest).
    { change c1 with (stateOf (Normal c1)). rewrite <- Hh.
      destruct (Hreg h c) as [-> | ->].
      - exists (prefix ++ [Some h]). rewrite length_app, Nat.add_1_r, Hsubs, <- app_assoc.
        now split.
      - exists (map (fun entry => if isLive h entry then None else entry) prefix ++ [None]).
        rewrite length_app, length_map, Nat.add_1_r. split; [reflexivity|].
        unfold unsubscribe. simpl. rewrite Hsubs, map_app. simpl.
        rewrite Nat.eqb_refl, (tomb_absent h rest Hnot), <- app_assoc. reflexivity. }
    destruct Hsubs1 as (prefix' & Hlen & Hsubs1).
    destruct (IH prefix' c1 fuel (S (length prefix)))
      as (r & called & later & Hrun & Hl & Hr & Ht);
      [now rewrite Hlen | assumption | assumption | simpl in Hfuel; lia |].
    rewrite Hrun. exists r, (h :: called), later. simpl. rewrite Hl.
    repeat split; auto.
    intros Hthrow. destruct (Ht Hthrow) as (earlier & x & s & -> & Hx).
    exists (h :: earlier), x, s. split; [reflexivity | assumption].
  + exists (Throw c1), [h], (live rest). repeat split; [discriminate|].
    intros _. exists [], h, c. split; [reflexivity | assumption].
- assert (nth_error (subscribers c) (length prefix) = Some None) as ->
    by (now rewrite Hsubs, nth_error_app2, Nat.sub_diag by lia).
  apply (IH (prefix ++ [None]) c fuel (S (length prefix))).
  + now rewrite length_app, Nat.add_1_r.
  + now rewrite Hsubs, <- app_assoc.
  + exact Hnd.
  + simpl in Hfuel. lia.
Qed.


End Dispatch.


End DispatchSpec.

(* ------------------------------------------------------------------ *)
(** *** Fetches in flight over one connection: claims C4 and C5 *)

Module SystemSpec.
Import Codec Candles Connection System Outcomes JsFacts RegistryFacts HandlerFacts.

Lemma Nateqb_spec a b : (a =? b)%nat = true <-> a = b.
Proof. apply Nat.eqb_eq. Qed.

(** [send] only writes on the wire. *)
Lemma sendAll_frame cs (c : Sys) :
  heap (sendAll cs c) = heap c
  /\ subscribers (sendAll cs c) = subscribers c
  /\ ws (sendAll cs c) = ws c
  /\ manuallyClosed (sendAll cs c) = manuallyClosed c
  /\ reconnectTimers (sendAll cs c) = reconnectTimers c.
Proof.
revert c. induction cs as [|cmd cs IH]; intros c; simpl; [auto|].
destruct (IH (send (cmdName cmd) (cmdParams cmd) c)) as (-> & -> & -> & -> & ->).
unfold send. destruct (ws c) as [[]|] eqn:E; simpl; auto.
Qed.

Lemma withWire_same {Heap} (c : Conn Heap) : withWire c (wire c) = c.
Proof. now destruct c. Qed.

Lemma sendAll_wire cs : forall c : Sys,
  sendAll cs c = match ws c with
                 | Some OPEN => withWire c (wire c ++ map toWire cs)
                 | _ => c
                 end.
Proof.
induction cs as [|cmd cs IH]; intros c.
- simpl. rewrite app_nil_r, withWire_same. now destruct (ws c) as [[]|].
- change (sendAll (cmd :: cs) c) with (sendAll cs (send (cmdName cmd) (cmdParams cmd) c)).
  rewrite IH. unfold send.
  destruct (ws c) as [[]|] eqn:E; cbv beta iota; rewrite ?E; try reflexivity.
  unfold withWire. simpl. rewrite E, <- app_assoc. reflexivity.
Qed.

Lemma react_heap h r (c : Sys) :
  heap (stateOf (react h r c)) = set Nat.eqb h (stateOf (outcome r)) (heap c).
Proof.
unfold react.
destruct (outcome r), (unsubscribes r); simpl;
  destruct (sendAll_frame (sends r)
              (withHeap c (set Nat.eqb h a (heap c)))) as (-> & _); reflexivity.
Qed.

Lemma react_subscribers h r (c : Sys) :
  subscribers (stateOf (react h r c)) =
  if unsubscribes r
  then map (fun entry => if isLive h entry then None else entry) (subscribers c)
  else subscribers c.
Proof.
unfold react.
destruct (outcome r), (unsubscribes r); simpl;
  destruct (sendAll_frame (sends r)
              (withHeap c (set Nat.eqb h a (heap c)))) as (_ & -> & _); reflexivity.
Qed.

Lemma react_session h r (c : Sys) :
  ws (stateOf (react h r c)) = ws c
  /\ manuallyClosed (stateOf (react h r c)) = manuallyClosed c
  /\ reconnectTimers (stateOf (react h r c)) = reconnectTimers c.
Proof.
unfold react.
destruct (outcome r), (unsubscribes r); simpl;
  destruct (sendAll_frame (sends r)
              (withHeap c (set Nat.eqb h a (heap c)))) as (_ & _ & -> & -> & ->);
  auto.
Qed.

Lemma react_completion h r (c : Sys) :
  react h r c = if isThrow (outcome r) then Throw (stateOf (react h r c))
                else Normal (stateOf (react h r c)).
Proof. unfold react. now destruct (outcome r). Qed.

(** What a callback of a fetch changes of the connection. *)
Lemma react_fields h r (c : Sys) :
  autoReconnect (stateOf (react h r c)) = autoReconnect c
  /\ manuallyClosed (stateOf (react h r c)) = manuallyClosed c
  /\ reconnectTimers (stateOf (react h r c)) = reconnectTimers c
  /\ heap (stateOf (react h r c)) = set Nat.eqb h (stateOf (outcome r)) (heap c)
  /\ subscribers (stateOf (react h r c))
     = if unsubscribes r then subscribers (unsubscribe h c) else subscribers c.
Proof.
unfold react. rewrite sendAll_wire.
destruct (outcome r), (unsubscribes r); cbn [ws withHeap];
  destruct (ws c) as [[]|]; simpl; auto.
Qed.

Lemma subscribe_frame h (c : Sys) :
  heap (subscribe h c) = heap c /\ ws (subscribe h c) = ws c
  /\ manuallyClosed (subscribe h c) = manuallyClosed c
  /\ reconnectTimers (subscribe h c) = reconnectTimers c.
Proof. unfold subscribe. destruct (existsb _ _); auto. Qed.

Lemma getCandles_frame (c : Sys) h p session :
  heap (getCandles h p session c) = set Nat.eqb h (start p session) (heap c)
  /\ subscribers (getCandles h p session c) = subscribers (subscribe h c)
  /\ autoReconnect (getCandles h p session c) = autoReconnect c
  /\ manuallyClosed (getCandles h p session c) = manuallyClosed c
  /\ reconnectTimers (getCandles h p session c) = reconnectTimers c.
Proof.
unfold getCandles. rewrite sendAll_wire.
destruct (subscribe_frame h
            (withHeap c (set Nat.eqb h (start p session) (heap c)))) as (_ & -> & _).
unfold subscribe. simpl. destruct (existsb _ _), (ws c) as [[]|]; simpl; auto.
Qed.

Lemma getCandles_ws (c : Sys) h p session : ws (getCandles h p session c) = ws c.
Proof.
unfold getCandles.
destruct (sendAll_frame (startCommands p session)
            (subscribe h (withHeap c (set Nat.eqb h (start p session) (heap c)))))
  as (_ & _ & -> & _).
now destruct (subscribe_frame h (withHeap c (set Nat.eqb h (start p session) (heap c))))
  as (_ & -> & _).
Qed.

(** The subscriber of a fetch changes the registry at most by removing
    itself, and the closures at most by its own. *)
Lemma handler_subscribers h e (c : Sys) :
  subscribers (stateOf (handler h e c)) = subscribers c
  \/ subscribers (stateOf (handler h e c)) = subscribers (unsubscribe h c).
Proof.
unfold handler. destruct (get Nat.eqb h (heap c)) as [f|]; [|now left].
destruct (react_fields h (onEvent f e) c) as (_ & _ & _ & _ & ->).
destruct (unsubscribes _); auto.
Qed.

Lemma handler_heap h e (c : Sys) :
  heap (stateOf (handler h e c))
  = match get Nat.eqb h (heap c) with
    | Some f => set Nat.eqb h (stateOf (outcome (onEvent f e))) (heap c)
    | None => heap c
    end.
Proof.
unfold handler. destruct (get Nat.eqb h (heap c)); [apply react_heap | reflexivity].
Qed.

Lemma handler_session h e (c : Sys) :
  ws (stateOf (handler h e c)) = ws c
  /\ manuallyClosed (stateOf (handler h e c)) = manuallyClosed c
  /\ reconnectTimers (stateOf (handler h e c)) = reconnectTimers c.
Proof.
unfold handler. destruct (get Nat.eqb h (heap c)); [apply react_session | auto].
Qed.

(** The session identifier of an event is never read. *)
Lemma onEvent_readdress f e session :
  onEvent f (readdress session e) = onEvent f e.
Proof.
unfold onEvent, isCompletion, seriesData, readdress. simpl.
destruct (params e) as [[|p0 ps]|]; reflexivity.
Qed.


(** A visit of the subscribers of the fetches, from the entry after
    [prefix] on: who is called, and what becomes of the closures. *)
Lemma forEach_fetches e rest : forall prefix (c : Sys) fuel index,
  index = length prefix -> subscribers c = prefix ++ rest ->
  NoDup (live rest) -> (length rest < fuel)%nat ->
  exists r called later,
    forEach handler fuel e index c = Some (r, called)
    /\ live rest = called ++ later
    /\ (isThrow r = false -> later = [])
    /\ (forall h f, In h called -> get Nat.eqb h (heap c) = Some f ->
          get Nat.eqb h (heap (stateOf r)) = Some (stateOf (outcome (onEvent f e))))
    /\ (forall h, ~ In h called ->
          get Nat.eqb h (heap (stateOf r)) = get Nat.eqb h (heap c)).
Proof.
induction rest as [|[h|] rest IH]; intros prefix c fuel index -> Hsubs Hnd Hfuel;
  (destruct fuel as [|fuel]; [simpl in Hfuel; lia|]);
  rewrite DispatchSpec.forEach_step.
- assert (nth_error (subscribers c) (length prefix) = None) as ->
    by (apply nth_error_None; rewrite Hsubs, app_nil_r; lia).
  exists (Normal c), [], []. repeat split; auto. intros h f [].
- assert (nth_error (subscribers c) (length prefix) = Some (Some h)) as ->
    by (now rewrite Hsubs, nth_error_app2, Nat.sub_diag by lia).
  change (live (Some h :: rest)) with (h :: live rest) in *.
  inversion Hnd as [|? ? Hnot Hnd']; subst.
  assert (Hown : forall f, get Nat.eqb h (heap c) = Some f ->
                   get Nat.eqb h (heap (stateOf (handler h e c)))
                   = Some (stateOf (outcome (onEvent f e)))).
  { intros f Hf. rewrite handler_heap, Hf.
    apply (get_set_same Nat.eqb Nateqb_spec). }
  assert (Hothers : forall x, x <> h ->
                      get Nat.eqb x (heap (stateOf (handler h e c)))
                      = get Nat.eqb x (heap c)).
  { intros x Hx. rewrite handler_heap.
    destruct (get Nat.eqb h (heap c)); [|reflexivity].
    apply (get_set_other Nat.eqb Nateqb_spec). congruence. }
  destruct (handler h e c) as [c1|c1] eqn:Hh; simpl in Hown, Hothers.
  + assert (Hsubs1 : exists prefix', length prefix' = S (length prefix)
                                     /\ subscribers c1 = prefix' ++ rest).
    { change c1 with (stateOf (Normal c1)). rewrite <- Hh.
      destruct (handler_subscribers h e c) as [-> | ->].
      - exists (prefix ++ [Some h]). rewrite length_app, Nat.add_1_r, Hsubs, <- app_assoc.
        now split.
      - exists (map (fun entry => if isLive h entry then None else entry) prefix ++ [None]).
        rewrite length_app, length_map, Nat.add_1_r. split; [reflexivity|].
        unfold unsubscribe. simpl. rewrite Hsubs, map_app. simpl.
        rewrite Nat.eqb_refl, (tomb_absent h rest Hnot), <- app_assoc. reflexivity. }
    destruct Hsubs1 as (prefix' & Hlen & Hsubs1).
    destruct (IH prefix' c1 fuel (S (length prefix)))
      as (r & called & later & Hrun & Hl & Hr & Hin & Hout);
      [now rewrite Hlen | assumption | assumption | simpl in Hfuel; lia |].
    assert (Hnc : ~ In h called).
    { intros Hc. apply Hnot. rewrite Hl. apply in_or_app. now left. }
    rewrite Hrun. exists r, (h :: called), later. simpl. rewrite Hl.
    repeat split; auto.
    * intros x f [Hx|Hx] Hf.
      -- subst x. rewrite (Hout h Hnc). now apply Hown.
      -- apply (Hin x f Hx). rewrite Hothers; [assumption|].
         intros ->. contradiction.
    * intros x Hx. rewrite Hout by tauto. apply Hothers. intros ->. tauto.
  + exists (Throw c1), [h], (live rest). simpl. repeat split; [discriminate | |].
    * intros x f [Hx|[]] Hf. subst x. now apply Hown.
    * intros x Hx. apply Hothers. intros ->. tauto.
- assert (nth_error (subscribers c) (length prefix) = Some None) as ->
    by (now rewrite Hsubs, nth_error_app2, Nat.sub_diag by lia).
  apply (IH (prefix ++ [None]) c fuel (S (length prefix))).
  + now rewrite length_app, Nat.add_1_r.
  + now rewrite Hsubs, <- app_assoc.
  + exact Hnd.
  + simpl in Hfuel. lia.
Qed.



(** The subscriber of a fetch can itself be the handler that throws: a
    request for 10 bars that is completed with no bar raises at line 118,
    and the fetch registered after it, which the same completion would have
    resolved, never sees the event. *)
Remark empty_fetch_starves_the_next_one :
  let bars := [mkRawCandle 0 60 [1; 2; 0; 1; 7]] in
  let pa := mkParams "A" None (Some 10) None None in
  let pb := mkParams "B" None (Some 1) None None in
  let c := getCandles 2 pb "cs_b" (getCandles 1 pa "cs_a" (onOpen (fresh true []))) in
  let c1 := withHeap c (set Nat.eqb 2%nat (withRaw (start pb "cs_b") bars) (heap c)) in
  option_map (fun x => (isThrow (fst x), snd x, promiseOf 2 (stateOf (fst x))))
             (forEach handler 3 (completed "cs_b") 0 c1)
  = Some (true, [1%nat], Some Pending)
  /\ promise (stateOf (outcome (onEvent (withRaw (start pb "cs_b") bars)
                                        (completed "cs_b"))))
     = Fulfilled (map bar bars).
Proof. cbv zeta. split; vm_compute; reflexivity. Qed.


(** What a callback of its subscriber can make of a fetch: the request
    stays; either the promise, the timer and the flag stay, or the timer is
    cleared and the flag set, the promise staying or, if pending, being
    fulfilled. *)
Local Abbreviation follows f1 f2 :=
  (request f2 = request f1
   /\ ((promise f2 = promise f1 /\ timeout f2 = timeout f1 /\ resolved f2 = resolved f1)
       \/ (timeout f2 = false /\ resolved f2 = true
           /\ (promise f2 = promise f1
               \/ (promise f1 = Pending /\ exists bars, promise f2 = Fulfilled bars))))).

Lemma follows_refl f : follows f f.
Proof. auto. Qed.

Lemma follows_trans f1 f2 f3 : follows f1 f2 -> follows f2 f3 -> follows f1 f3.
Proof.
intros (Hq12 & H12) (Hq23 & H23). split; [congruence|].
destruct H12 as [(Hp & Ht & Hr)|(Ht & Hr & Hp)].
- rewrite <- Hp, <- Ht, <- Hr. exact H23.
- right. destruct H23 as [(Hp' & Ht' & Hr')|(Ht' & Hr' & Hp')].
  + rewrite Hp', Ht', Hr'. auto.
  + repeat split; auto.
    destruct Hp' as [Hp'|(Hpend & bars & Hbars)].
    * rewrite Hp'. exact Hp.
    * destruct Hp as [Hp|(Hpend1 & bars1 & Hbars1)]; [|congruence].
      right. split; [congruence|]. now exists bars.
Qed.

Lemma onEvent_follows f e : follows f (stateOf (outcome (onEvent f e))).
Proof.
destruct (onEvent_cases f e)
  as [(_ & _ & ->)|[(_ & _ & ->)|[(_ & _ & _ & ->)|[(_ & _ & _ & ->)
     |[(_ & _ & _ & ->)|[(_ & _ & _ & _ & ->)|(_ & _ & _ & ->)]]]]]];
  simpl; (split; [reflexivity|]); auto.
right. repeat split. destruct (promise f); simpl; eauto.
Qed.

Section Closing.
Variable Json : Type.
Variable eventOf : Data Json -> TradingViewEvent.

Local Abbreviation step := (step Json eventOf).
Local Abbreviation steps := (steps Json eventOf).

Section Invariant.
Variable P : Sys -> Prop.
Hypothesis P_handler : forall h e c,
  P c -> In h (live (subscribers c)) -> P (stateOf (handler h e c)).

Lemma forEach_invariant fuel e : forall index c r called,
  P c -> forEach handler fuel e index c = Some (r, called) -> P (stateOf r).
Proof.
induction fuel as [|fuel IH]; intros index c r called Hc Hrun; [discriminate|].
rewrite DispatchSpec.forEach_step in Hrun.
destruct (nth_error (subscribers c) index) as [[h|]|] eqn:Hn.
- assert (Hlive : In h (live (subscribers c))).
  { apply nth_error_In in Hn. unfold live. apply in_flat_map.
    exists (Some h). split; [assumption | now left]. }
  specialize (P_handler h e c Hc Hlive).
  destruct (handler h e c) as [c1|c1] eqn:Hh.
  + destruct (forEach handler fuel e (S index) c1) as [[r1 called1]|] eqn:Hrest;
      [|discriminate].
    injection Hrun as <- _. now apply (IH (S index) c1 r1 called1).
  + now injection Hrun as <- _.
- now apply (IH (S index) c r called).
- now injection Hrun as <- _.
Qed.

Hypothesis P_wire : forall c w, P c -> P (withWire c w).
Hypothesis P_session : forall c,
  P c -> P (mkConn (autoReconnect c) (ws c) (token c) (subscribers c) true
                   (reconnectAttempts c) (manuallyClosed c) false (wire c)
                   (reconnectTimers c) (heap c)).

Lemma onMessage_invariant fuel payloads : forall c r called,
  P c -> onMessage handler eventOf fuel payloads c = Some (r, called) -> P (stateOf r).
Proof.
induction payloads as [|payload payloads IH]; intros c r called Hc Hrun.
- now injection Hrun as <- _.
- simpl in Hrun.
  assert (Hp : forall r1 called1,
             onPayload handler eventOf fuel payload c = Some (r1, called1) ->
             P (stateOf r1)).
  { intros r1 called1. unfold onPayload. destruct (type payload).
    - destruct (data payload), (ws c) as [[]|]; intros H; injection H as <- _;
        simpl; auto.
    - intros H. injection H as <- _. unfold send.
      destruct (ws c) as [[]|] eqn:E; simpl; try (now apply P_session).
      apply (P_session (withWire c (wire c ++ [Message "set_auth_token" [PStr (token c)]]))).
      now apply P_wire.
    - apply forEach_invariant. exact Hc. }
  destruct (onPayload handler eventOf fuel payload c) as [[[c1|c1] called1]|] eqn:Hpay;
    [| |discriminate].
  + destruct (onMessage handler eventOf fuel payloads c1) as [[r2 called2]|] eqn:Hrest;
      [|discriminate].
    injection Hrun as <- _. apply (IH c1 r2 called2); [|assumption].
    exact (Hp _ _ eq_refl).
  + injection Hrun as <- _. exact (Hp _ _ eq_refl).
Qed.

End Invariant.

(** What a message can make of a fetch, and of the connection. *)
Lemma onMessage_follows fuel payloads (c : Sys) r called h f :
  get Nat.eqb h (heap c) = Some f ->
  onMessage handler eventOf fuel payloads c = Some (r, called) ->
  ws (stateOf r) = ws c
  /\ manuallyClosed (stateOf r) = manuallyClosed c
  /\ reconnectTimers (stateOf r) = reconnectTimers c
  /\ exists f', get Nat.eqb h (heap (stateOf r)) = Some f' /\ follows f f'.
Proof.
intros Hget Hrun.
apply (onMessage_invariant
         (fun s => ws s = ws c /\ manuallyClosed s = manuallyClosed c
                   /\ reconnectTimers s = reconnectTimers c
                   /\ exists f', get Nat.eqb h (heap s) = Some f' /\ follows f f'))
  with (fuel := fuel) (payloads := payloads) (c := c) (called := called);
  [| | | |exact Hrun].
- intros h' e s (Hws & Hman & Htimers & f1 & Hf1 & Hfol) _.
  destruct (handler_session h' e s) as (-> & -> & ->).
  repeat split; auto. rewrite handler_heap.
  destruct (get Nat.eqb h' (heap s)) as [f2|] eqn:Hf2; [|now exists f1].
  destruct (Nat.eqb_spec h' h) as [->|Hne].
  + rewrite (get_set_same Nat.eqb Nateqb_spec).
    rewrite Hf1 in Hf2. injection Hf2 as <-.
    eexists. split; [reflexivity|].
    apply (follows_trans f f1); [exact Hfol | apply onEvent_follows].
  + rewrite (get_set_other Nat.eqb Nateqb_spec) by congruence. now exists f1.
- intros s w Hs. exact Hs.
- intros s Hs. exact Hs.
- repeat split; auto. exists f. split; [exact Hget | apply follows_refl].
Qed.

(** After [close()]: the flag is set, no reconnect is pending, and the
    socket is closing or closed. *)
Local Abbreviation quiet c :=
  (manuallyClosed c = true /\ reconnectTimers c = []
   /\ (ws c = Some CLOSING \/ ws c = Some CLOSED)).

(** Where the fetch [f] registered as [h] stands, as [fc], after the
    inputs [done]: waiting with its timer armed; pending for ever, its
    timer cleared by a finalization that raised; fulfilled, a message
    having come before the transport closed; or rejected by its timer. *)
#[warnings="-inconsistent-scopes"]
Local Abbreviation status h f fc done :=
  (request fc = request f
   /\ ((promise fc = Pending /\ resolved fc = false /\ timeout fc = true
        /\ ~ In (FetchTimeout h) done)
       \/ (promise fc = Pending /\ timeout fc = false /\ ~ In (FetchTimeout h) done)
       \/ (timeout fc = false
           /\ exists bars, promise fc = Fulfilled bars
              /\ exists pre payloads post,
                   done = pre ++ WsMessage payloads :: post /\ ~ In WsClose pre)
       \/ (timeout fc = false /\ promise fc = Rejected (timeoutMessage (request f))
           /\ In (FetchTimeout h) done))).

Lemma status_other h f fc (done : list (Input Json)) i :
  i <> FetchTimeout h -> status h f fc done -> status h f fc (done ++ [i]).
Proof.
intros Hi (Hreq & H). split; [assumption|].
destruct H as [(Hp & Hr & Ht & Hn)|[(Hp & Ht & Hn)
              |[(Ht & bars & Hp & pre & payloads & post & -> & Hpre)|(Ht & Hp & Hin)]]].
- left. repeat split; auto. rewrite in_app_iff. intros [H|[H|[]]]; [auto | congruence].
- right; left. repeat split; auto.
  rewrite in_app_iff. intros [H|[H|[]]]; [auto | congruence].
- right; right; left. split; [assumption|]. exists bars. split; [assumption|].
  exists pre, payloads, (post ++ [i]). rewrite <- app_assoc. now split.
- right; right; right. repeat split; auto. apply in_or_app. now left.
Qed.

Lemma status_message h f fc f' (done : list (Input Json)) payloads :
  ~ In WsClose done -> status h f fc done -> follows fc f' ->
  status h f f' (done ++ [WsMessage payloads]).
Proof.
intros Hopen Hs (Hq & Hfol).
assert (Hkeep : promise f' = promise fc /\ timeout f' = timeout fc
                /\ resolved f' = resolved fc ->
                status h f f' (done ++ [WsMessage payloads])).
{ intros (Hp & Ht & Hr).
  destruct (status_other h f fc done (WsMessage payloads)) as (Hreq & H);
    [discriminate | exact Hs |].
  split; [congruence|]. rewrite Hp, Ht, Hr. exact H. }
destruct Hfol as [Hsame|(Ht' & Hr' & Hp')]; [now apply Hkeep|].
destruct Hs as (Hreq & Hs). split; [congruence|].
assert (Hnot : ~ In (FetchTimeout h) done ->
               ~ In (FetchTimeout h) (done ++ [WsMessage payloads])).
{ intros Hn. rewrite in_app_iff. intros [H|[H|[]]]; [auto | discriminate]. }
assert (Hnow : forall bars, promise f' = Fulfilled bars ->
                 exists bars, promise f' = Fulfilled bars
                   /\ exists pre payloads0 post,
                        done ++ [WsMessage payloads] = pre ++ WsMessage payloads0 :: post
                        /\ ~ In WsClose pre).
{ intros bars Hb. exists bars. split; [assumption|]. now exists done, payloads, []. }
destruct Hs as [(Hp & Hr & Ht & Hn)|[(Hp & Ht & Hn)
               |[(Ht & bars & Hp & pre & payloads0 & post & -> & Hpre)|(Ht & Hp & Hin)]]].
- destruct Hp' as [Hp'|(_ & bars & Hbars)].
  + right; left. repeat split; auto. congruence.
  + right; right; left. split; [assumption|]. now apply (Hnow bars).
- destruct Hp' as [Hp'|(_ & bars & Hbars)].
  + right; left. repeat split; auto. congruence.
  + right; right; left. split; [assumption|]. now apply (Hnow bars).
- right; right; left. split; [assumption|].
  destruct Hp' as [Hp'|(Hpend & _)]; [|congruence].
  exists bars. split; [congruence|].
  exists pre, payloads0, (post ++ [WsMessage payloads]). rewrite <- app_assoc. now split.
- right; right; right.
  destruct Hp' as [Hp'|(Hpend & _)]; [|congruence].
  repeat split; auto; [congruence | apply in_or_app; now left].
Qed.

Lemma status_timeout h f fc (done : list (Input Json)) :
  status h f fc done -> timeout fc = true ->
  status h f (stateOf (outcome (onTimeout fc))) (done ++ [FetchTimeout h]).
Proof.
intros (Hreq & Hs) Harmed.
destruct Hs as [(Hp & Hr & Ht & Hn)|[(Hp & Ht & Hn)|[(Ht & _)|(Ht & _)]]];
  try congruence.
unfold onTimeout. rewrite Hr. simpl. split; [assumption|].
right; right; right. rewrite Hp, Hreq. simpl.
repeat split. apply in_or_app. right. now left.
Qed.

Lemma quiet_step (c c' : Sys) i h f fc (done : list (Input Json)) :
  quiet c -> (ws c = Some CLOSING -> ~ In WsClose done) ->
  step c i c' -> get Nat.eqb h (heap c) = Some fc -> status h f fc done ->
  quiet c' /\ (ws c' = Some CLOSING -> ~ In WsClose (done ++ [i]))
  /\ exists fc', get Nat.eqb h (heap c') = Some fc' /\ status h f fc' (done ++ [i]).
Proof.
intros (Hman & Htimers & Hws) Hopen Hstep Hget Hs.
assert (Hstill : forall i0 : Input Json, i0 <> WsClose ->
                   (ws c = Some CLOSING -> ~ In WsClose (done ++ [i0]))).
{ intros i0 Hi0 Hc. rewrite in_app_iff. intros [H|[H|[]]]; [now apply Hopen | congruence]. }
destruct Hstep as [c E|c E|c|c payloads fuel r called E Hrun|c fetched delay rest E
                  |c|c h' p session Hfree|c h' f' Hget' Harmed].
- destruct Hws; congruence.
- unfold onClose. rewrite Hman, andb_false_r. simpl.
  split; [auto|]. split; [discriminate|].
  exists fc. split; [assumption|]. apply status_other; [discriminate | assumption].
- split; [auto|]. split; [apply Hstill; discriminate|].
  exists fc. split; [assumption|]. apply status_other; [discriminate | assumption].
- assert (Hclosing : ws c = Some CLOSING) by (destruct E, Hws; congruence).
  destruct (onMessage_follows fuel payloads c r called h fc Hget Hrun)
    as (Hws' & Hman' & Htimers' & f' & Hf' & Hfol).
  rewrite Hws', Hman', Htimers'. split; [auto|].
  split; [apply Hstill; discriminate|].
  exists f'. split; [assumption|]. apply (status_message h f fc); auto.
- congruence.
- unfold close. simpl. split.
  + repeat split; auto. destruct Hws as [-> | ->]; auto.
  + split.
    * intros Hc. apply Hstill; [discriminate|].
      destruct Hws as [E|E]; [assumption|]. rewrite E in Hc. discriminate.
    * exists fc. split; [assumption|]. apply status_other; [discriminate | assumption].
- destruct (getCandles_frame c h' p session) as (-> & _ & _ & -> & ->).
  rewrite getCandles_ws. split; [auto|]. split; [apply Hstill; discriminate|].
  exists fc. split; [|apply status_other; [discriminate | assumption]].
  rewrite (get_set_other Nat.eqb Nateqb_spec); [assumption|].
  intros ->. congruence.
- unfold fetchTimeout. rewrite Hget'.
  destruct (react_session h' (onTimeout f') c) as (-> & -> & ->).
  split; [auto|]. split; [apply Hstill; discriminate|].
  rewrite react_heap.
  destruct (Nat.eqb_spec h' h) as [->|Hne].
  + rewrite Hget in Hget'. injection Hget' as <-.
    rewrite (get_set_same Nat.eqb Nateqb_spec).
    eexists. split; [reflexivity|]. now apply status_timeout.
  + rewrite (get_set_other Nat.eqb Nateqb_spec) by congruence.
    exists fc. split; [assumption|]. apply status_other; [congruence | assumption].
Qed.

Lemma quiet_steps events : forall (c c' : Sys) h f fc (done : list (Input Json)),
  quiet c -> (ws c = Some CLOSING -> ~ In WsClose done) ->
  get Nat.eqb h (heap c) = Some fc -> status h f fc done ->
  steps c events c' ->
  exists fc', get Nat.eqb h (heap c') = Some fc' /\ status h f fc' (done ++ events).
Proof.
induction events as [|i events IH]; intros c c' h f fc done Hc Hopen Hget Hs Hsteps;
  inversion Hsteps as [|? ? c1 ? ? Hstep Hrest]; subst.
- rewrite app_nil_r. now exists fc.
- destruct (quiet_step c c1 i h f fc done Hc Hopen Hstep Hget Hs)
    as (Hc1 & Hopen1 & fc1 & Hget1 & Hs1).
  destruct (IH c1 c' h f fc1 (done ++ [i]) Hc1 Hopen1 Hget1 Hs1 Hrest)
    as (fc' & Hget' & Hs').
  rewrite <- app_assoc in Hs'. now exists fc'.
Qed.


End Closing.



End SystemSpec.

(* ------------------------------------------------------------------ *)
(** *** [getCandlesMultiple]: claim C10 *)

Module MultipleSpec.
Import Candles Multiple Outcomes JsFacts.

Lemma Stringeqb_spec a b : (a =? b)%string = true <-> a = b.
Proof. apply String.eqb_eq. Qed.

Section Loop.
Variable World : Type.
Variable getCandles : GetCandlesParams -> Async World (list Candle).

Local Abbreviation record :=
  (fun (m : Results) (x : string * Settled (list Candle)) =>
     set String.eqb (fst x) (orEmpty (snd x)) m).

(** The loop never fails.  When every call settles it leaves in the map
    what each call settled to, written in the order of the calls; when a
    call never settles the loop never resumes. *)
Lemma forOf_runs symbols tf amount : forall results w,
  exists w',
    forOf symbols
      (fun symbol results =>
         tryCatch
           (bind (getCandles (mkParams symbol (Some tf) amount None None))
                 (fun candles => ret (set String.eqb symbol candles results)))
           (fun error => ret (set String.eqb symbol [] results)))
      results w
    = (if settled (calls getCandles symbols tf amount w)
       then Resolved (fold_left record (calls getCandles symbols tf amount w) results)
       else Never, w').
Proof.
induction symbols as [|symbol symbols IH]; intros results w; simpl.
- eexists. reflexivity.
- unfold bind at 1. unfold tryCatch, bind at 1, ret.
  destruct (getCandles (mkParams symbol (Some tf) amount None None) w)
    as [[candles|error|] w1]; simpl; try apply IH.
  eexists. reflexivity.
Qed.

Lemma fold_record_keys l : forall (m : Results) s,
  In s (keys (fold_left record l m)) <-> In s (keys m) \/ In s (map fst l).
Proof.
induction l as [|[k o] l IH]; intros m s; simpl; [tauto|].
rewrite IH.
destruct (keys_set String.eqb Stringeqb_spec k (orEmpty o) m) as [[Hin ->]|[Hnin ->]].
- split; [tauto|]. intros [H|[<-|H]]; auto.
- rewrite in_app_iff. simpl. tauto.
Qed.

Lemma fold_record_NoDup l : forall (m : Results),
  NoDup (keys m) -> NoDup (keys (fold_left record l m)).
Proof.
induction l as [|[k o] l IH]; intros m Hm; simpl; [assumption|].
apply IH. now apply (NoDup_keys_set String.eqb Stringeqb_spec).
Qed.

Lemma fold_record_get l : forall (m : Results) s,
  get String.eqb s (fold_left record l m) =
  match lastCall s l with
  | Some o => Some (orEmpty o)
  | None => get String.eqb s m
  end.
Proof.
induction l as [|[k o] l IH]; intros m s; simpl; [reflexivity|].
rewrite IH. unfold lastCall. simpl. rewrite DedupFacts.find_append.
destruct (find _ (rev l)); simpl; [reflexivity|].
destruct (String.eqb_spec k s) as [->|Hne]; simpl.
- apply (get_set_same String.eqb Stringeqb_spec).
- now apply (get_set_other String.eqb Stringeqb_spec).
Qed.

(** When every call settles, every symbol has been asked for. *)
Lemma calls_symbols symbols tf amount : forall w,
  settled (calls getCandles symbols tf amount w) = true ->
  map fst (calls getCandles symbols tf amount w) = symbols.
Proof.
induction symbols as [|symbol symbols IH]; intros w; simpl; [reflexivity|].
destruct (getCandles _ w) as [[candles|error|] w1]; simpl;
  try (intros H; now rewrite IH); discriminate.
Qed.

Lemma lastCall_present s l :
  In s (map fst l) -> exists o, lastCall s l = Some o /\ In (s, o) l.
Proof.
intros Hin. unfold lastCall.
destruct (find (fun x => (fst x =? s)%string) (rev l)) as [[k o]|] eqn:E.
- apply find_some in E as [Hl Hk]. simpl in Hk. apply String.eqb_eq in Hk.
  subst k. exists o. split; [reflexivity | now apply in_rev].
- exfalso. apply in_map_iff in Hin as [[k o] [<- Hko]].
  apply in_rev in Hko. apply (find_none _ _ E) in Hko.
  simpl in Hko. now rewrite String.eqb_refl in Hko.
Qed.


End Loop.



End MultipleSpec.

(* ================================================================== *)
(** ** Part III. Further properties of the code *)

(* ------------------------------------------------------------------ *)
(** *** The framing codec and the message listener *)

Module CodecMore.
Import Codec Connection CodecFacts.

Section Parsing.
Variable Json : Type.
Variable JSON_parse : jsstring -> option Json.
Variable session_id : Json -> option bool.

Local Abbreviation parse := (parseMessage Json JSON_parse session_id).
Local Abbreviation dec := (decode Json JSON_parse session_id).

Lemma separable_single q : containsMarker q = false -> separable [q] = true.
Proof. intros H. simpl. now rewrite H. Qed.

Lemma parse_after_garbage garbage items :
  separable (garbage :: map snd items) = true ->
  parse (garbage ++ chunkOf items) = map dec (map snd items).
Proof.
intros Hsep. apply separable_cons in Hsep as (Hg & Hopen & Hitems).
unfold parseMessage.
destruct (length (garbage ++ chunkOf items) =? 0)%nat eqn:E.
- apply Nat.eqb_eq, length_zero_iff_nil, app_eq_nil in E as [_ E].
  destruct items as [|[n p] items]; [reflexivity|].
  unfold chunkOf, frame in E. discriminate E.
- unfold split.
  rewrite splitFrom_payload; [|exact Hg| |lia].
  + rewrite splitFrom_frames by (auto; rewrite length_app; lia).
    reflexivity.
  + destruct Hopen as [Hnil|Hopen].
    * left. destruct items; [reflexivity | discriminate Hnil].
    * destruct (chunkOf_shape items) as [E0|E0]; [now left | right; now split].
Qed.

(** X1.  What [formatMessage] writes, [parseMessage] reads back as exactly
    one frame whose payload is the JSON text of the command, provided that
    text does not contain [~m~] followed by a digit. *)
Theorem X1_format_then_parse :
  forall (JSON_stringify : string -> list Param -> jsstring) name params,
    hasMarker (JSON_stringify name params) = false ->
    parse (formatMessage JSON_stringify name params)
    = [dec (JSON_stringify name params)].
Proof.
intros JSON_stringify name params Hdata.
set (data := JSON_stringify name params) in *.
assert (E : formatMessage JSON_stringify name params
            = [] ++ chunkOf [(length data, data)]).
{ unfold formatMessage, chunkOf, frame. simpl. fold data.
  now rewrite <- !app_assoc, app_nil_r. }
rewrite E. apply (parse_after_garbage [] [(length data, data)]).
simpl. now rewrite (hasMarker_containsMarker data Hdata).
Qed.

(** X2.  Whatever precedes the first length marker of a message is
    dropped.  Take a text that contains no length marker
    [~m~<digits>~m~]: alone, it decodes to no frame at all.  Followed by
    the frames of payloads that their markers keep apart, it decodes to
    those frames only, provided it does not end in the beginning of a
    marker, [~m~<digits>] or [~m~<digits>~m], that the marker of the first
    frame would complete. *)
Theorem X2_text_before_first_marker_is_dropped :
  forall garbage payloads,
    separable (garbage :: payloads) = true ->
    parse garbage = []
    /\ parse (garbage ++ concat (map envelope payloads)) = map dec payloads.
Proof.
intros garbage payloads Hsep. split.
- rewrite <- (app_nil_r garbage). apply (parse_after_garbage garbage []).
  apply separable_single. now apply separable_cons in Hsep as (Hg & _).
- assert (E : concat (map envelope payloads)
              = chunkOf (map (fun p => (utf8Length p, p)) payloads)).
  { unfold chunkOf. rewrite map_map. reflexivity. }
  rewrite E, parse_after_garbage.
  + rewrite !map_map. reflexivity.
  + rewrite map_map. simpl. now rewrite map_id.
Qed.

Section Listener.
Variable Heap : Type.
Variable invoke : nat -> TradingViewEvent -> Conn Heap -> Completion (Conn Heap).
Variable eventOf : Data Json -> TradingViewEvent.

(** X3.  A heartbeat frame that arrives on an open socket, its payload
    containing no length marker [~m~<digits>~m~], is answered with one
    text, the payload wrapped again with its length in code units (whatever
    length the incoming frame declared); no subscriber is called and
    nothing else changes; and that answer, decoded in turn, is the same
    heartbeat with the same answer. *)
Theorem X3_heartbeat_is_echoed_and_not_dispatched :
  forall (c : Conn Heap) fuel declared payload,
    firstn 3 payload = lit "~h~" -> containsMarker payload = false ->
    ws c = Some OPEN ->
    onMessage invoke eventOf fuel (parse (frame declared payload)) c
    = Some (Normal (withWire c (wire c ++ [Echo (frame (length payload) payload)])), [])
    /\ parse (frame (length payload) payload)
       = [mkPayload ping (Text (frame (length payload) payload))].
Proof.
intros c fuel declared payload Hh Hm Hws.
assert (Hdec : dec payload = mkPayload ping (Text (frame (length payload) payload))).
{ unfold decode. now rewrite (proj2 (eqb_eq _ _) Hh). }
assert (Hparse : forall n, parse (frame n payload) = [dec payload]).
{ intros n.
  assert (E : frame n payload = [] ++ chunkOf [(n, payload)]).
  { unfold chunkOf. simpl. now rewrite app_nil_r. }
  rewrite E. apply (parse_after_garbage [] [(n, payload)]).
  simpl. now rewrite Hm. }
split.
- rewrite Hparse, Hdec. simpl. unfold onPayload. simpl. now rewrite Hws.
- now rewrite Hparse, Hdec.
Qed.

End Listener.
End Parsing.

Lemma X1_witness :
  let stringify := fun (name : string) (params : list Param) => lit "{}" in
  parseMessage unit (fun _ => None) (fun _ => None)
    (formatMessage stringify "set_auth_token" [PStr "t"])
  = [decode unit (fun _ => None) (fun _ => None)
       (stringify "set_auth_token"%string [PStr "t"])].
Proof.
cbv zeta.
apply (X1_format_then_parse unit (fun _ => None) (fun _ => None)
         (fun _ _ => lit "{}") "set_auth_token" [PStr "t"]).
reflexivity.
Defined.

Lemma X2_witness :
  let garbage := lit "hello ~m~12 world" in
  let payloads := [lit "~h~1"; lit "abc"] in
  parseMessage unit (fun _ => None) (fun _ => None) garbage = []
  /\ parseMessage unit (fun _ => None) (fun _ => None)
       (garbage ++ concat (map envelope payloads))
     = map (decode unit (fun _ => None) (fun _ => None)) payloads.
Proof.
cbv zeta.
apply (X2_text_before_first_marker_is_dropped unit (fun _ => None) (fun _ => None)
         (lit "hello ~m~12 world") [lit "~h~1"; lit "abc"]).
reflexivity.
Defined.

Lemma X3_witness :
  let c := onOpen (fresh true tt) in
  let payload := lit "~h~17" in
  onMessage (fun _ _ c => Normal c) (fun _ => mkEvent "" (Some [])) 1
    (parseMessage unit (fun _ => None) (fun _ => None) (frame 999 payload)) c
  = Some (Normal (withWire c (wire c ++ [Echo (frame (length payload) payload)])), [])
  /\ parseMessage unit (fun _ => None) (fun _ => None) (frame (length payload) payload)
     = [mkPayload ping (Text (frame (length payload) payload))].
Proof.
cbv zeta.
apply (X3_heartbeat_is_echoed_and_not_dispatched unit (fun _ => None) (fun _ => None)
         unit (fun _ _ c => Normal c) (fun _ => mkEvent "" (Some []))
         (onOpen (fresh true tt)) 1%nat 999%nat (lit "~h~17"));
  reflexivity.
Defined.

End CodecMore.

(* ------------------------------------------------------------------ *)
(** *** The pagination engine *)

Module PaginationMore.
Import Candles Outcomes JsFacts DedupFacts HandlerFacts FinalFacts.

Lemma wantsMore_stall f : wantsMore f = true -> (nextStall f <= 2)%nat.
Proof.
intros Hw. destruct (le_lt_dec 3 (nextStall f)) as [H|H]; [|lia].
unfold wantsMore in Hw. rewrite needMore_stalled in Hw by exact H. discriminate.
Qed.

Lemma nextStall_le f : (nextStall f <= S (stallCount f))%nat.
Proof. unfold nextStall. destruct (_ && _); lia. Qed.

Lemma pile_same raw acc e :
  uniqueSorted raw = uniqueSorted acc ->
  uniqueSorted (pile raw e) = uniqueSorted (pile acc e).
Proof.
intros H. unfold pile.
destruct (name e =? "timescale_update")%string; [|assumption].
destruct (seriesData e) as [[batch|]|]; try assumption.
now rewrite <- uniqueSorted_absorb, H, uniqueSorted_absorb.
Qed.

(** What a run resolved with: the events up to the completion that
    resolved it, after which the fetch was still subscribed and pending,
    and the finalization of the bars they brought. *)
Lemma feed_fulfilled_split events : forall f acc bars,
  promise f = Pending ->
  uniqueSorted (rawCandles f) = uniqueSorted acc ->
  promise (final (feed f events)) = Fulfilled bars ->
  exists seen e rest,
    events = seen ++ e :: rest /\ isCompletion e = true
    /\ subscribed (feed f seen) = true
    /\ promise (final (feed f seen)) = Pending
    /\ bars = selectCandles (request f)
                (map bar (uniqueSorted (fold_left pile seen acc))).
Proof.
induction events as [|e events IH]; intros f acc bars Hp Hacc Hful; simpl in Hful.
- congruence.
- destruct (onEvent_cases f e)
    as [(He & _ & E)|[(_ & _ & E)|[(He & _ & _ & E)|[(_ & _ & _ & E)
       |[(He & _ & _ & E)|[(_ & _ & _ & _ & E)|(_ & _ & _ & E)]]]]]];
    rewrite E in Hful; simpl in Hful; try congruence.
  + assert (H1 : promise (withRaw f (pile (rawCandles f) e)) = Pending)
      by now destruct f.
    assert (H2 : uniqueSorted (rawCandles (withRaw f (pile (rawCandles f) e)))
                 = uniqueSorted (pile acc e))
      by (destruct f; simpl in *; now apply pile_same).
    destruct (IH _ (pile acc e) bars H1 H2 Hful)
      as (seen & e' & rest & -> & He' & Hs & Hq & Hb).
    exists (e :: seen), e', rest. simpl. rewrite E. simpl. repeat split; auto.
  + assert (H2 : uniqueSorted (rawCandles (asksMore f)) = uniqueSorted acc)
      by (simpl; now rewrite uniqueSorted_idem).
    destruct (IH (asksMore f) acc bars Hp H2 Hful)
      as (seen & e' & rest & -> & He' & Hs & Hq & Hb).
    exists (e :: seen), e', rest. simpl. rewrite E. simpl. repeat split; auto.
    unfold pile at 2. now rewrite (completion_not_push e He).
  + rewrite Hp in Hful. simpl in Hful. injection Hful as <-.
    exists [], e, events. repeat split; auto. simpl. now rewrite Hacc.
Qed.

Lemma feed_fulfilled_shape events f bars :
  promise f = Pending ->
  promise (final (feed f events)) = Fulfilled bars ->
  exists raw, StronglySorted (fun a b => v0 a < v0 b) raw
              /\ bars = selectCandles (request f) (map bar raw).
Proof.
intros Hp Hful.
destruct (feed_fulfilled_split events f (rawCandles f) bars Hp eq_refl Hful)
  as (seen & e & rest & _ & _ & _ & _ & ->).
eexists. split; [apply uniqueSorted_sorted | reflexivity].
Qed.

Lemma selectCandles_parts p l :
  selectCandles p l =
  match amount p with
  | Some a =>
      if truthy (Some a) && negb (truthy (from p))
         && (a <? Z.of_nat (length (upTo p (since p l))))
      then slice (- a) (upTo p (since p l))
      else upTo p (since p l)
  | None => upTo p (since p l)
  end.
Proof. reflexivity. Qed.

Lemma selectCandles_bounds p l b :
  In b (selectCandles p l) ->
  (forall fr, from p = Some fr -> fr <> 0 -> fr <= timestamp b)
  /\ (forall t, to p = Some t -> t <> 0 -> timestamp b <= t).
Proof.
rewrite selectCandles_parts. intros Hin.
assert (H2 : In b (upTo p (since p l))).
{ destruct (amount p) as [a|]; [|exact Hin].
  destruct (truthy (Some a) && negb (truthy (from p)) && _); [|exact Hin].
  unfold slice in Hin. now apply In_skipn in Hin. }
clear Hin. split.
- intros fr Hfr Hnz.
  assert (H1 : In b (since p l)).
  { unfold upTo in H2. destruct (to p) as [t|]; [|exact H2].
    destruct (truthy (Some t)); [|exact H2]. now apply filter_In in H2. }
  unfold since in H1. rewrite Hfr in H1.
  assert (Ht : truthy (Some fr) = true) by (simpl; now apply negb_true_iff, Z.eqb_neq).
  rewrite Ht in H1. apply filter_In in H1 as [_ H1]. now apply Z.leb_le.
- intros t Ht Hnz. unfold upTo in H2. rewrite Ht in H2.
  assert (Htt : truthy (Some t) = true) by (simpl; now apply negb_true_iff, Z.eqb_neq).
  rewrite Htt in H2. apply filter_In in H2 as [_ H2]. now apply Z.leb_le.
Qed.

(** X4.  Every bar of a resolved fetch lies inside the bounds of the
    request: from [from] on when [from] is given (and not 0), up to [to]
    when [to] is given (and not 0), both inclusive. *)
Theorem X4_result_within_from_and_to :
  forall p session events bars b,
    promise (final (feed (start p session) events)) = Fulfilled bars ->
    In b bars ->
    (forall fr, from p = Some fr -> fr <> 0 -> fr <= timestamp b)
    /\ (forall t, to p = Some t -> t <> 0 -> timestamp b <= t).
Proof.
intros p session events bars b Hful Hin.
destruct (feed_fulfilled_shape events (start p session) bars eq_refl Hful)
  as (raw & _ & ->).
exact (selectCandles_bounds p (map bar raw) b Hin).
Qed.

Lemma selectCandles_amount p l a :
  amount p = Some a -> 0 < a -> truthy (from p) = false ->
  exists dropped,
    upTo p l = dropped ++ selectCandles p l
    /\ (length (selectCandles p l) <= Z.to_nat a)%nat
    /\ (dropped <> [] -> length (selectCandles p l) = Z.to_nat a).
Proof.
intros Ha Hpos Hfrom. rewrite selectCandles_parts.
assert (H1 : since p l = l).
{ unfold since. destruct (from p) as [fr|]; [|reflexivity]. now rewrite Hfrom. }
rewrite H1, Ha, Hfrom.
set (l2 := upTo p l).
assert (Ht : truthy (Some a) = true) by (simpl; apply negb_true_iff, Z.eqb_neq; lia).
rewrite Ht. simpl.
destruct (Z.ltb_spec a (Z.of_nat (length l2))) as [Hlt|Hge].
- unfold slice.
  assert ((- a <? 0) = true) as -> by (apply Z.ltb_lt; lia).
  set (n := Z.to_nat (Z.max (Z.of_nat (length l2) + - a) 0)).
  exists (firstn n l2). split; [now rewrite firstn_skipn|].
  assert (length (skipn n l2) = Z.to_nat a) by (rewrite length_skipn; unfold n; lia).
  split; [lia | auto].
- exists []. split; [reflexivity|]. split; [lia | congruence].
Qed.

Lemma upTo_sorted p raw :
  StronglySorted (fun a b => v0 a < v0 b) raw ->
  StronglySorted Z.lt (map timestamp (upTo p (map bar raw))).
Proof.
intros Hs. apply strictly_sorted_map. unfold upTo.
pose proof (bars_sorted raw Hs) as H0.
destruct (to p) as [t|]; [|exact H0].
destruct (truthy (Some t)); [|exact H0]. now apply strictly_sorted_filter.
Qed.

(** X5.  When the request is driven by a positive [amount] and has no
    [from], a resolved fetch holds at most [amount] bars, and they are the
    most recent ones.  Take the events up to the completion that resolved
    the fetch, after which it was still subscribed and pending, and the
    bars they pushed, deduplicated, in strictly increasing timestamp order
    and cut at [to]: these are the bars left out followed by the result,
    and when some are left out exactly [amount] are kept. *)
Theorem X5_amount_keeps_the_most_recent :
  forall p session events bars a,
    promise (final (feed (start p session) events)) = Fulfilled bars ->
    amount p = Some a -> 0 < a -> truthy (from p) = false ->
    (length bars <= Z.to_nat a)%nat
    /\ exists seen e rest dropped,
         events = seen ++ e :: rest /\ isCompletion e = true
         /\ subscribed (feed (start p session) seen) = true
         /\ promise (final (feed (start p session) seen)) = Pending
         /\ upTo p (map bar (uniqueSorted (accumulated seen))) = dropped ++ bars
         /\ StronglySorted Z.lt (map timestamp (dropped ++ bars))
         /\ (dropped <> [] -> length bars = Z.to_nat a).
Proof.
intros p session events bars a Hful Ha Hpos Hfrom.
destruct (feed_fulfilled_split events (start p session) [] bars eq_refl eq_refl Hful)
  as (seen & e & rest & Hev & He & Hsub & Hpend & ->). simpl request.
fold (accumulated seen).
destruct (selectCandles_amount p (map bar (uniqueSorted (accumulated seen))) a
            Ha Hpos Hfrom) as (dropped & Hd & Hlen & Hfull).
split; [exact Hlen|]. exists seen, e, rest, dropped.
repeat split; auto.
rewrite <- Hd. apply upTo_sorted, uniqueSorted_sorted.
Qed.

Lemma needMore_reached p o n s a :
  truthy (from p) = false -> amount p = Some a -> a <= Z.of_nat n ->
  needMore p o n s = false.
Proof.
intros Hfrom Ha Hn. unfold needMore. rewrite Ha.
assert ((Z.of_nat n <? a) = false) as -> by (apply Z.ltb_ge; lia).
rewrite andb_false_r.
destruct (from p) as [fr|]; [|reflexivity].
rewrite Hfrom. now destruct o.
Qed.

(** X6.  A request for a positive [amount] without [from] whose first
    batch already holds that many distinct timestamps, all of them within
    the range of [Date], is resolved by the first completion, and no
    "request more data" is ever sent; without [to], the result has exactly
    [amount] bars. *)
Theorem X6_target_reached_at_first_completion :
  forall p session batch e a rest,
    amount p = Some a -> 0 < a -> truthy (from p) = false ->
    a <= Z.of_nat (length (uniqueSorted batch)) ->
    forallb dated batch = true ->
    isCompletion e = true ->
    let run := feed (start p session) (push session batch :: e :: rest) in
    raised run = false /\ subscribed run = false /\ sent run = []
    /\ promise (final run)
       = Fulfilled (selectCandles p (map bar (uniqueSorted batch)))
    /\ (truthy (to p) = false ->
        length (selectCandles p (map bar (uniqueSorted batch))) = Z.to_nat a).
Proof.
intros p session batch e a rest Ha Hpos Hfrom Hlen Hdated He. cbv zeta.
unfold feed.
change (onEvent (start p session) (push session batch))
  with (stay (mkFetch p session batch false 0 0 0 Pending true)).
cbn [outcome stay unsubscribes sends].
set (f := mkFetch p session batch false 0 0 0 Pending true).
assert (Hw : wantsMore f = false).
{ unfold wantsMore. apply needMore_reached with a; auto. }
rewrite (onEvent_done f e He Hw (dated_uniqueSorted batch Hdated)). simpl.
repeat split. intros Hto.
destruct (selectCandles_amount p (map bar (uniqueSorted batch)) a Ha Hpos Hfrom)
  as (dropped & Hd & Hle & Hfull).
assert (Hup : upTo p (map bar (uniqueSorted batch)) = map bar (uniqueSorted batch)).
{ unfold upTo. destruct (to p) as [t|]; [|reflexivity]. now rewrite Hto. }
rewrite Hup in Hd.
destruct dropped as [|d dropped]; [|apply Hfull; discriminate].
simpl in Hd. rewrite <- Hd, length_map in Hle |- *. lia.
Qed.

(** X7.  The only command the subscriber of a fetch ever sends is
    "request more data" for its own session, series [sds_1], with the
    batch ceiling of 10000. *)
Theorem X7_only_request_more_data_is_sent :
  forall events f cmd,
    In cmd (sent (feed f events)) ->
    cmd = mkCommand "request_more_data"
            [PStr (chartSession f); PStr "sds_1"; PNum 10000].
Proof.
induction events as [|e events IH]; intros f cmd Hin; simpl in Hin; [contradiction|].
destruct (onEvent_cases f e)
  as [(_ & _ & E)|[(_ & _ & E)|[(_ & _ & _ & E)|[(_ & _ & _ & E)
     |[(_ & _ & _ & E)|[(_ & _ & _ & _ & E)|(_ & _ & _ & E)]]]]]];
  rewrite E in Hin; simpl in Hin; try contradiction.
- apply IH in Hin. now destruct f.
- destruct Hin as [<-|Hin]; [reflexivity|]. now apply IH in Hin.
Qed.

(** X8.  The request counter of a fetch is the number of follow-up
    requests it has sent, as long as no callback has raised.  Once one
    has, the counter is that number or one more: line 118 raises after the
    counter is incremented and before the command is sent, and the other
    exceptions (lines 53, 104 and 132) leave the counter alone. *)
Theorem X8_request_counter_accounts_for_the_requests :
  forall events f,
    (raised (feed f events) = false ->
     requestCount (final (feed f events))
     = (requestCount f + requestsForMore (sent (feed f events)))%nat)
    /\ (requestCount f + requestsForMore (sent (feed f events))
        <= requestCount (final (feed f events)))%nat
    /\ (requestCount (final (feed f events))
        <= requestCount f + requestsForMore (sent (feed f events)) + 1)%nat.
Proof.
induction events as [|e events IH]; intros f; simpl.
- unfold requestsForMore. simpl. repeat split; lia.
- destruct (onEvent_cases f e)
    as [(_ & _ & E)|[(_ & _ & E)|[(_ & _ & _ & E)|[(_ & _ & _ & E)
       |[(_ & _ & _ & E)|[(_ & _ & _ & _ & E)|(_ & _ & _ & E)]]]]]];
    rewrite E; simpl; unfold requestsForMore; simpl;
    try (repeat split; (discriminate || lia)).
  + destruct (IH (withRaw f (pile (rawCandles f) e))) as (H1 & H2 & H3).
    unfold requestsForMore in *. destruct f; simpl in *. auto.
  + destruct (IH (asksMore f)) as (H1 & H2 & H3).
    unfold requestsForMore in *. simpl in *. repeat split; [intros Hr|..]; try lia.
    specialize (H1 Hr). lia.
Qed.

(** Two series in strictly increasing order, the stamps of the first
    among those of the second and as many: they begin at the same date. *)
Lemma oldest_kept raw0 raw :
  StronglySorted (fun a b => v0 a < v0 b) raw0 ->
  incl (map v0 raw0) (map v0 raw) ->
  length raw0 = length (uniqueSorted raw) ->
  printable (hd_error raw0) = printable (hd_error (uniqueSorted raw)).
Proof.
intros Hs Hincl Hlen.
assert (E : map v0 raw0 = map v0 (uniqueSorted raw)).
{ apply (strictly_sorted_ext (fun z : Z => z)).
  - now apply (strictly_sorted_map v0 Z.lt).
  - apply (strictly_sorted_map v0 Z.lt), uniqueSorted_sorted.
  - assert (H1 : incl (map v0 raw0) (map v0 (uniqueSorted raw))).
    { intros t Ht. apply (proj2 (In_times_uniqueSorted raw t)). now apply Hincl. }
    intros t. split; [apply H1|].
    apply NoDup_length_incl; [now apply strict_NoDup | | exact H1].
    rewrite !length_map. lia. }
destruct raw0 as [|c0 raw0], (uniqueSorted raw) as [|c u]; try discriminate E;
  [reflexivity|].
simpl in E. injection E as E _. unfold printable. simpl. now rewrite E.
Qed.

(** The stall counter along a run.  The hypothesis on the last follow-up
    request is what line 118 leaves behind: it printed the date of the
    bar that was then the oldest. *)
Lemma feed_stall events : forall f,
  (stallCount f <= 2)%nat ->
  ((0 < requestCount f)%nat ->
   exists raw0, StronglySorted (fun a b => v0 a < v0 b) raw0
                /\ length raw0 = lastLength f
                /\ incl (map v0 raw0) (map v0 (rawCandles f))
                /\ printable (hd_error raw0) = true) ->
  (stallCount (final (feed f events)) <= 3)%nat
  /\ (subscribed (feed f events) = true ->
      (stallCount (final (feed f events)) <= 2)%nat).
Proof.
induction events as [|e events IH]; intros f Hf Hlast; simpl.
- split; [lia | auto].
- destruct (onEvent_cases f e)
    as [(_ & _ & E)|[(_ & _ & E)|[(_ & Hw & Hp & E)|[(_ & Hw & _ & E)
       |[(_ & _ & _ & E)|[(_ & _ & Hg & Hp & E)|(_ & _ & _ & E)]]]]]];
    rewrite E; simpl.
  + apply IH; [now destruct f|].
    intros Hn. destruct Hlast as (raw0 & Hs & Hl & Hi & Hp); [now destruct f|].
    exists raw0. destruct f as [p s raw r n l k pr t]; simpl in *.
    repeat split; auto.
    unfold pile. destruct (name e =? "timescale_update")%string; [|assumption].
    destruct (seriesData e) as [[batch|]|]; try assumption.
    intros x Hx. rewrite map_app. apply in_or_app. right. now apply Hi.
  + split; [lia | auto].
  + apply IH; simpl; [now apply wantsMore_stall|].
    intros _. exists (uniqueSorted (rawCandles f)).
    repeat split; [apply uniqueSorted_sorted | apply incl_refl | exact Hp].
  + pose proof (wantsMore_stall f Hw). split; [lia | auto].
  + pose proof (nextStall_le f). split; [lia | discriminate].
  + exfalso. apply warns_stalled in Hg as [Hg _].
    unfold nextStall in Hg.
    destruct ((0 <? requestCount f)%nat && (observedLength f =? lastLength f)%nat)
      eqn:Hc; [|lia].
    apply andb_true_iff in Hc as [Hn Hsame].
    apply Nat.ltb_lt in Hn. apply Nat.eqb_eq in Hsame.
    destruct (Hlast Hn) as (raw0 & Hs & Hl & Hi & Hp0).
    rewrite (oldest_kept raw0 (rawCandles f) Hs Hi) in Hp0.
    * unfold oldest in Hp. congruence.
    * unfold observedLength in Hsame. congruence.
  + pose proof (nextStall_le f). split; [lia | discriminate].
Qed.

(** As long as no callback raises, a subscribed fetch has the counter
    at 2 at most, wherever the run begins. *)
Lemma feed_stall_quiet events : forall f,
  (stallCount f <= 2)%nat ->
  subscribed (feed f events) = true -> raised (feed f events) = false ->
  (stallCount (final (feed f events)) <= 2)%nat.
Proof.
induction events as [|e events IH]; intros f Hf; simpl; [auto|].
destruct (onEvent_cases f e)
  as [(_ & _ & E)|[(_ & _ & E)|[(_ & Hw & _ & E)|[(_ & _ & _ & E)
     |[(_ & _ & _ & E)|[(_ & _ & _ & _ & E)|(_ & _ & _ & E)]]]]]];
  rewrite E; simpl; try discriminate.
- apply IH. now destruct f.
- apply IH. simpl. now apply wantsMore_stall.
Qed.

(** X9.  The stall counter never passes 3, and a fetch that is still
    subscribed has it at 2 at most, when no callback has raised or when
    the run began before the first follow-up request, as every run of
    [getCandles] does: no fetch outlives a third consecutive completion
    without growth. *)
Theorem X9_stall_counter_is_bounded :
  forall events f,
    (stallCount f <= 2)%nat ->
    (stallCount (final (feed f events)) <= 3)%nat
    /\ (subscribed (feed f events) = true ->
        raised (feed f events) = false \/ requestCount f = 0%nat ->
        (stallCount (final (feed f events)) <= 2)%nat).
Proof.
intros events f Hf. split.
- clear - Hf. revert f Hf.
  induction events as [|e events IH]; intros f Hf; simpl; [lia|].
  destruct (onEvent_cases f e)
    as [(_ & _ & E)|[(_ & _ & E)|[(_ & Hw & _ & E)|[(_ & Hw & _ & E)
       |[(_ & _ & _ & E)|[(_ & _ & _ & _ & E)|(_ & _ & _ & E)]]]]]];
    rewrite E; simpl; try (pose proof (nextStall_le f); lia).
  + apply IH. now destruct f.
  + apply IH. simpl. now apply wantsMore_stall.
- intros Hsub [Hquiet|Hfresh].
  + now apply feed_stall_quiet.
  + apply feed_stall; [exact Hf | lia | exact Hsub].
Qed.

(** Otherwise the bound on a subscribed fetch fails: a closure made up
    with a counter at 2 and an oldest bar whose date cannot be printed
    raises at line 104 with the counter at 3, its subscriber still
    registered. *)
Remark stall_bound_needs_the_beginning :
  let p := mkParams "X" None None (Some 1) None in
  let far := mkRawCandle 0 8640000000001 [1; 2; 0; 1; 7] in
  let f := mkFetch p "cs_a" [far] false 1 1 2 Pending true in
  let run := feed f [completed "cs_a"] in
  raised run = true /\ subscribed run = true /\ stallCount (final run) = 3%nat.
Proof. cbv zeta. repeat split; vm_compute; reflexivity. Qed.

Lemma X4_witness :
  let p := mkParams "X" None None (Some 100) (Some 200) in
  let bars := [mkRawCandle 0 60 [1]; mkRawCandle 1 120 [2]; mkRawCandle 2 240 [3]] in
  let b := bar (mkRawCandle 1 120 [2]) in
  (forall fr, from p = Some fr -> fr <> 0 -> fr <= timestamp b)
  /\ (forall t, to p = Some t -> t <> 0 -> timestamp b <= t).
Proof.
cbv zeta.
apply (X4_result_within_from_and_to
         (mkParams "X" None None (Some 100) (Some 200)) "cs_a"
         [push "cs_a" [mkRawCandle 0 60 [1]; mkRawCandle 1 120 [2]; mkRawCandle 2 240 [3]];
          completed "cs_a"]
         [bar (mkRawCandle 1 120 [2])]).
- vm_compute. reflexivity.
- now left.
Defined.

Lemma X5_witness :
  let p := mkParams "X" None (Some 2) None None in
  let events := [push "cs_a" [mkRawCandle 0 60 [1]; mkRawCandle 1 120 [2];
                              mkRawCandle 2 240 [3]];
                 completed "cs_a"] in
  let bars := [bar (mkRawCandle 1 120 [2]); bar (mkRawCandle 2 240 [3])] in
  (length bars <= Z.to_nat 2)%nat
  /\ exists seen e rest dropped,
       events = seen ++ e :: rest /\ isCompletion e = true
       /\ subscribed (feed (start p "cs_a") seen) = true
       /\ promise (final (feed (start p "cs_a") seen)) = Pending
       /\ upTo p (map bar (uniqueSorted (accumulated seen))) = dropped ++ bars
       /\ StronglySorted Z.lt (map timestamp (dropped ++ bars))
       /\ (dropped <> [] -> length bars = Z.to_nat 2).
Proof.
cbv zeta.
apply (X5_amount_keeps_the_most_recent
         (mkParams "X" None (Some 2) None None) "cs_a"
         [push "cs_a" [mkRawCandle 0 60 [1]; mkRawCandle 1 120 [2]; mkRawCandle 2 240 [3]];
          completed "cs_a"]);
  reflexivity.
Defined.

Lemma X6_witness :
  let p := mkParams "X" None (Some 2) None None in
  let batch := [mkRawCandle 0 60 [1]; mkRawCandle 1 120 [2]; mkRawCandle 2 240 [3]] in
  let run := feed (start p "cs_a") (push "cs_a" batch :: completed "cs_a" :: []) in
  raised run = false /\ subscribed run = false /\ sent run = []
  /\ promise (final run)
     = Fulfilled (selectCandles p (map bar (uniqueSorted batch)))
  /\ (truthy (to p) = false ->
      length (selectCandles p (map bar (uniqueSorted batch))) = Z.to_nat 2).
Proof.
cbv zeta.
apply (X6_target_reached_at_first_completion
         (mkParams "X" None (Some 2) None None) "cs_a"
         [mkRawCandle 0 60 [1]; mkRawCandle 1 120 [2]; mkRawCandle 2 240 [3]]
         (completed "cs_a") 2 []);
  try reflexivity.
vm_compute. discriminate.
Defined.

Lemma X7_witness :
  let p := mkParams "X" None (Some 10) None None in
  let cmd := requestMoreData "cs_a" in
  cmd = mkCommand "request_more_data" [PStr "cs_a"; PStr "sds_1"; PNum 10000].
Proof.
cbv zeta.
apply (X7_only_request_more_data_is_sent
         [push "cs_a" [mkRawCandle 0 60 [1]]; completed "cs_a"]
         (start (mkParams "X" None (Some 10) None None) "cs_a")
         (requestMoreData "cs_a")).
vm_compute. now left.
Defined.

Lemma X9_witness :
  let f := start (mkParams "X" None (Some 10) None None) "cs_a" in
  let events := [push "cs_a" [mkRawCandle 0 60 [1]]; completed "cs_a"; completed "cs_a"] in
  (stallCount (final (feed f events)) <= 3)%nat
  /\ (subscribed (feed f events) = true ->
      raised (feed f events) = false \/ requestCount f = 0%nat ->
      (stallCount (final (feed f events)) <= 2)%nat).
Proof.
cbv zeta.
apply (X9_stall_counter_is_bounded
         [push "cs_a" [mkRawCandle 0 60 [1]]; completed "cs_a"; completed "cs_a"]
         (start (mkParams "X" None (Some 10) None None) "cs_a")).
simpl. lia.
Defined.

End PaginationMore.

(* ------------------------------------------------------------------ *)
(** *** The event dispatcher and the session manager *)

Module SessionMore.
Import Codec Connection Outcomes RegistryFacts.

Section Registry.
Variable Heap : Type.

(** X10.  The registry is a set in insertion order.  With no handler
    registered twice: subscribing puts a new handler last and leaves a
    registered one where it is, so subscribing twice is subscribing once;
    unsubscribing removes the handler and nothing else; and a handler that
    subscribes again after unsubscribing is served last. *)
Theorem X10_registry_is_an_ordered_set :
  forall (c : Conn Heap) h,
    NoDup (live (subscribers c)) ->
    NoDup (live (subscribers (subscribe h c)))
    /\ live (subscribers (subscribe h c))
       = (if existsb (Nat.eqb h) (live (subscribers c))
          then live (subscribers c) else live (subscribers c) ++ [h])
    /\ subscribe h (subscribe h c) = subscribe h c
    /\ live (subscribers (unsubscribe h c))
       = filter (fun x => negb (h =? x)%nat) (live (subscribers c))
    /\ NoDup (live (subscribers (unsubscribe h c)))
    /\ live (subscribers (subscribe h (unsubscribe h c)))
       = filter (fun x => negb (h =? x)%nat) (live (subscribers c)) ++ [h].
Proof.
intros c h Hnd.
assert (Hex := isLive_existsb h (subscribers c)).
assert (Hsub : live (subscribers (subscribe h c))
               = if existsb (Nat.eqb h) (live (subscribers c))
                 then live (subscribers c) else live (subscribers c) ++ [h]).
{ unfold subscribe. rewrite Hex.
  destruct (existsb (Nat.eqb h) (live (subscribers c))); [reflexivity|].
  simpl. now rewrite live_app. }
assert (Hun : live (subscribers (unsubscribe h c))
              = filter (fun x => negb (h =? x)%nat) (live (subscribers c)))
  by apply live_unsubscribe.
assert (Hgone : existsb (isLive h) (subscribers (unsubscribe h c)) = false).
{ destruct (existsb (isLive h) (subscribers (unsubscribe h c))) eqn:E; [|reflexivity].
  apply isLive_In in E. rewrite Hun in E. apply filter_In in E as [_ E].
  now rewrite Nat.eqb_refl in E. }
repeat split.
- rewrite Hsub. destruct (existsb (Nat.eqb h) (live (subscribers c))) eqn:E; [assumption|].
  apply NoDup_app; [assumption | repeat constructor; simpl; tauto |].
  intros x Hx [Hhx|[]]. subst x.
  assert (Hh : existsb (Nat.eqb h) (live (subscribers c)) = true)
    by (apply existsb_exists; exists h; split; [assumption | apply Nat.eqb_refl]).
  congruence.
- exact Hsub.
- unfold subscribe at 1.
  assert (Hin : existsb (isLive h) (subscribers (subscribe h c)) = true).
  { apply isLive_In. rewrite Hsub.
    destruct (existsb (Nat.eqb h) (live (subscribers c))) eqn:E.
    - apply existsb_exists in E as (x & Hx & Hhx). apply Nat.eqb_eq in Hhx. now subst.
    - apply in_or_app. right. now left. }
  now rewrite Hin.
- exact Hun.
- rewrite Hun. now apply NoDup_filter.
- unfold subscribe. rewrite Hgone.
  change (subscribers (withSubscribers (unsubscribe h c) (subscribers (unsubscribe h c) ++ [Some h])))
    with (subscribers (unsubscribe h c) ++ [Some h]).
  now rewrite live_app, Hun.
Qed.

Variable invoke : nat -> TradingViewEvent -> Conn Heap -> Completion (Conn Heap).

Lemma forEach_visits e rest :
  (forall h s, exists s', invoke h e s = Normal s' /\ subscribers s' = subscribers s) ->
  forall prefix (c : Conn Heap) fuel,
    subscribers c = prefix ++ rest -> (length rest < fuel)%nat ->
    exists c', forEach invoke fuel e (length prefix) c = Some (Normal c', live rest)
               /\ subscribers c' = subscribers c.
Proof.
intros Hinv. induction rest as [|[h|] rest IH]; intros prefix c fuel Hsubs Hfuel;
  (destruct fuel as [|fuel]; [simpl in Hfuel; lia|]);
  rewrite DispatchSpec.forEach_step.
- assert (nth_error (subscribers c) (length prefix) = None) as ->
    by (apply nth_error_None; rewrite Hsubs, app_nil_r; lia).
  exists c. split; reflexivity.
- assert (nth_error (subscribers c) (length prefix) = Some (Some h)) as ->
    by (now rewrite Hsubs, nth_error_app2, Nat.sub_diag by lia).
  destruct (Hinv h c) as (s' & Hs' & Hsame). rewrite Hs'.
  destruct (IH (prefix ++ [Some h]) s' fuel) as (c' & Hc' & Hsame').
  { now rewrite Hsame, Hsubs, <- app_assoc. }
  { simpl in Hfuel. lia. }
  rewrite length_app, Nat.add_1_r in Hc'. rewrite Hc'.
  exists c'. split; [reflexivity|]. now rewrite Hsame', Hsame.
- assert (nth_error (subscribers c) (length prefix) = Some None) as ->
    by (now rewrite Hsubs, nth_error_app2, Nat.sub_diag by lia).
  destruct (IH (prefix ++ [None]) c fuel) as (c' & Hc' & Hsame').
  { now rewrite Hsubs, <- app_assoc. }
  { simpl in Hfuel. lia. }
  rewrite length_app, Nat.add_1_r in Hc'. rewrite Hc'.
  exists c'. split; [reflexivity | assumption].
Qed.

(** X11.  When the handlers return and leave the registry alone, a
    dispatch ends, and it has called every registered handler exactly once,
    in the order of registration. *)
Theorem X11_dispatch_in_registration_order :
  forall e (c : Conn Heap) fuel,
    (forall h s, exists s', invoke h e s = Normal s' /\ subscribers s' = subscribers s) ->
    (length (subscribers c) < fuel)%nat ->
    exists c', forEach invoke fuel e 0 c = Some (Normal c', live (subscribers c)).
Proof.
intros e c fuel Hinv Hfuel.
destruct (forEach_visits e (subscribers c) Hinv [] c fuel eq_refl Hfuel) as (c' & H & _).
now exists c'.
Qed.

(** X13.  [close()] does not cancel a reconnect that is already
    scheduled: its timer still fires, creates a new socket, and the
    connection opens again although it was closed by the client. *)
Theorem X13_pending_reconnect_survives_close :
  forall (c : Conn Heap) fetched delay rest,
    reconnectTimers c = delay :: rest ->
    let c' := onOpen (onReconnectTimer fetched (close c)) in
    ws c' = Some OPEN /\ manuallyClosed c' = true
    /\ reconnectTimers c' = rest /\ reconnectAttempts c' = O.
Proof.
intros c fetched delay rest Ht. cbv zeta.
unfold onOpen, onReconnectTimer, initConnection, close. simpl.
now rewrite Ht.
Qed.

(** X14.  Reconnects that keep failing: from an attempt counter [a], [k]
    rounds of close, timer and new socket schedule the delays of attempts
    [a], [a+1], ..., [a+k-1] in this order, one at a time, and leave the
    counter at [a+k]. *)
Theorem X14_failed_reconnects_back_off :
  forall k (c : Conn Heap),
    autoReconnect c = true -> manuallyClosed c = false ->
    reconnectTimers c = [] ->
    fst (failedReconnects k c) = map reconnectDelay (seq (reconnectAttempts c) k)
    /\ reconnectAttempts (snd (failedReconnects k c)) = (reconnectAttempts c + k)%nat
    /\ reconnectTimers (snd (failedReconnects k c)) = []
    /\ ws (snd (failedReconnects k c))
       = match k with O => ws c | S _ => Some CONNECTING end.
Proof.
induction k as [|k IH]; intros c Hauto Hman Ht.
- simpl. repeat split; auto.
- assert (Hc : onClose c =
               mkConn (autoReconnect c) (Some CLOSED) (token c) (subscribers c) false
                      (S (reconnectAttempts c)) (manuallyClosed c)
                      (resolveConnection c) (wire c)
                      [reconnectDelay (reconnectAttempts c)] (heap c)).
  { unfold onClose. now rewrite Hauto, Hman, Ht. }
  cbn [failedReconnects]. rewrite Hc.
  set (c2 := onReconnectTimer None _).
  destruct (IH c2) as (H1 & H2 & H3 & H4); try reflexivity; try assumption.
  destruct (failedReconnects k c2) as [delays c3].
  cbn [fst snd] in *. cbn [reconnectTimers app].
  rewrite H1, H2, H3, H4. cbn [seq map].
  change (reconnectAttempts c2) with (S (reconnectAttempts c)).
  repeat split; try lia.
  now destruct k.
Qed.

End Registry.

Local Open Scope Q_scope.

(** X15.  The reconnect delay never shrinks from one attempt to the next
    and is never below 5000 ms. *)
Theorem X15_reconnect_delay_is_monotone :
  forall n, 5000 <= reconnectDelay n /\ reconnectDelay n <= reconnectDelay (S n).
Proof.
intros n.
assert (Hpos : forall m, 1 <= (3 # 2) ^ Z.of_nat m).
{ induction m as [|m IH]; [discriminate|].
  rewrite SessionSpec.power_step.
  apply Qle_trans with ((3 # 2) ^ Z.of_nat m * 1); [now rewrite Qmult_1_r|].
  apply Qmult_le_compat_nonneg.
  - split; [|apply Qle_refl]. apply Qle_trans with 1; [discriminate | exact IH].
  - split; discriminate. }
unfold reconnectDelay. split.
- apply Q.min_glb; [|discriminate].
  apply Qle_trans with (5000 * 1); [discriminate|].
  apply Qmult_le_l; [reflexivity | apply Hpos].
- apply Q.min_le_compat_r. apply Qmult_le_l; [reflexivity|].
  rewrite SessionSpec.power_step.
  apply Qle_trans with ((3 # 2) ^ Z.of_nat n * 1);
    [rewrite Qmult_1_r; apply Qle_refl|].
  apply Qmult_le_compat_nonneg.
  + split; [|apply Qle_refl]. apply Qle_trans with 1; [discriminate | apply Hpos].
  + split; discriminate.
Qed.

Lemma X10_witness :
  let c := subscribe 2 (subscribe 1 (fresh true tt)) in
  NoDup (live (subscribers (subscribe 1 c)))
  /\ live (subscribers (subscribe 1 c))
     = (if existsb (Nat.eqb 1) (live (subscribers c))
        then live (subscribers c) else live (subscribers c) ++ [1%nat])
  /\ subscribe 1 (subscribe 1 c) = subscribe 1 c
  /\ live (subscribers (unsubscribe 1 c))
     = filter (fun x => negb (1 =? x)%nat) (live (subscribers c))
  /\ NoDup (live (subscribers (unsubscribe 1 c)))
  /\ live (subscribers (subscribe 1 (unsubscribe 1 c)))
     = filter (fun x => negb (1 =? x)%nat) (live (subscribers c)) ++ [1%nat].
Proof.
cbv zeta.
apply (X10_registry_is_an_ordered_set unit (subscribe 2 (subscribe 1 (fresh true tt))) 1%nat).
repeat constructor; simpl; intuition discriminate.
Defined.

Lemma X11_witness :
  let c := subscribe 2 (subscribe 1 (fresh true tt)) in
  exists c', forEach (fun _ _ s => Normal s) 3 (mkEvent "qsd" (Some [])) 0 c
             = Some (Normal c', live (subscribers c)).
Proof.
cbv zeta.
apply (X11_dispatch_in_registration_order unit (fun _ _ s => Normal s)
         (mkEvent "qsd" (Some [])) (subscribe 2 (subscribe 1 (fresh true tt))) 3%nat).
- intros h s. exists s. split; reflexivity.
- simpl. lia.
Defined.

Lemma X13_witness :
  let c := onClose (onOpen (fresh true tt)) in
  let c' := onOpen (onReconnectTimer None (close c)) in
  ws c' = Some OPEN /\ manuallyClosed c' = true
  /\ reconnectTimers c' = [] /\ reconnectAttempts c' = O.
Proof.
cbv zeta.
apply (X13_pending_reconnect_survives_close unit (onClose (onOpen (fresh true tt)))
         None (reconnectDelay 0) []).
reflexivity.
Defined.

Lemma X14_witness :
  let c := onOpen (fresh true tt) in
  fst (failedReconnects 3 c) = map reconnectDelay (seq (reconnectAttempts c) 3)
  /\ reconnectAttempts (snd (failedReconnects 3 c)) = (reconnectAttempts c + 3)%nat
  /\ reconnectTimers (snd (failedReconnects 3 c)) = []
  /\ ws (snd (failedReconnects 3 c)) = Some CONNECTING.
Proof.
cbv zeta.
apply (X14_failed_reconnects_back_off unit 3 (onOpen (fresh true tt))); reflexivity.
Defined.

End SessionMore.

(* ------------------------------------------------------------------ *)
(** *** Fetches over a connection, along any trace *)

Module SystemMore.
Import Codec Candles Connection System Outcomes JsFacts RegistryFacts HandlerFacts.
Import SystemSpec.

(** X12.  [send] writes on an open socket and nowhere else.  The commands
    a fetch sends when it starts are written in their order when the socket
    is open; when it is not, the call only registers the fetch: the
    connection keeps no trace of the commands, so that none of them is sent
    after a reconnection. *)
Theorem X12_start_commands_are_written_or_dropped :
  forall (c : Sys) h p session,
    getCandles h p session c
    = match ws c with
      | Some OPEN =>
          withWire (subscribe h (withHeap c (set Nat.eqb h (start p session) (heap c))))
                   (wire c ++ map toWire (startCommands p session))
      | _ => subscribe h (withHeap c (set Nat.eqb h (start p session) (heap c)))
      end.
Proof.
intros c h p session. unfold getCandles. rewrite sendAll_wire.
destruct (subscribe_frame h
            (withHeap c (set Nat.eqb h (start p session) (heap c)))) as (_ & -> & _).
assert (wire (subscribe h (withHeap c (set Nat.eqb h (start p session) (heap c))))
        = wire c) as ->; [|reflexivity].
unfold subscribe. now destruct (existsb _ _).
Qed.

Section Traces.
Variable Json : Type.
Variable eventOf : Data Json -> TradingViewEvent.

Local Abbreviation step := (step Json eventOf).
Local Abbreviation steps := (steps Json eventOf).

(** A fetch registered under a fresh identity starts subscribed, pending
    and with its timer armed. *)
Lemma lifecycle_getCandles (c : Sys) h p session :
  get Nat.eqb h (heap c) = None -> lifecycle c ->
  lifecycle (getCandles h p session c).
Proof.
intros Hfree Hc x.
assert (Hnot : existsb (isLive h) (subscribers c) = false).
{ destruct (existsb (isLive h) (subscribers c)) eqn:E; [|reflexivity].
  apply isLive_In in E. apply (Hc h) in E as (f & Hf & _). congruence. }
destruct (getCandles_frame c h p session) as (Hheap & Hsubs' & _).
assert (Hsubs : live (subscribers (getCandles h p session c))
                = live (subscribers c) ++ [h]).
{ rewrite Hsubs'. unfold subscribe. rewrite Hnot. simpl.
  now rewrite live_app. }
rewrite Hheap, Hsubs. destruct (Nat.eqb_spec h x) as [->|Hne].
- rewrite (get_set_same Nat.eqb Nateqb_spec). split.
  + split; [|intros _; apply in_or_app; right; now left].
    intros _. exists (start p session). now split.
  + intros f Hf. injection Hf as <-. simpl. repeat split; auto.
- rewrite (get_set_other Nat.eqb Nateqb_spec) by congruence.
  destruct (Hc x) as [Hlive Hrest]. split; [|exact Hrest].
  rewrite <- Hlive. rewrite in_app_iff. simpl. intuition congruence.
Qed.

(** A callback of the fetch registered as [h]: the invariant holds again
    when a callback that keeps the subscription keeps the promise, the
    timer and the flag, and one that unsubscribes clears the timer and
    leaves the promise settled or the flag set. *)
Lemma lifecycle_react (c : Sys) h r :
  lifecycle c ->
  (exists f, get Nat.eqb h (heap c) = Some f
             /\ (unsubscribes r = false ->
                 promise (stateOf (outcome r)) = promise f
                 /\ timeout (stateOf (outcome r)) = timeout f
                 /\ resolved (stateOf (outcome r)) = resolved f)) ->
  (unsubscribes r = true ->
   timeout (stateOf (outcome r)) = false
   /\ (promise (stateOf (outcome r)) = Pending ->
       resolved (stateOf (outcome r)) = true)) ->
  lifecycle (stateOf (react h r c)).
Proof.
intros Hc (f & Hf & Hkeep) Hdone x.
destruct (react_fields h r c) as (_ & _ & _ & -> & ->).
destruct (Hc x) as [Hlive Hrest].
destruct (Nat.eqb_spec h x) as [->|Hne].
- rewrite (get_set_same Nat.eqb Nateqb_spec).
  destruct (Hrest f Hf) as [Harmed Hpending].
  destruct (unsubscribes r).
  + destruct (Hdone eq_refl) as [Hoff Hres]. split.
    * rewrite live_unsubscribed, filter_In, Nat.eqb_refl. split.
      -- intros [_ H]. discriminate H.
      -- intros (f' & Hf' & Ht). injection Hf' as <-. congruence.
    * intros f' Hf'. injection Hf' as <-. rewrite Hoff. split.
      -- discriminate.
      -- intros Hp. right. now apply Hres.
  + destruct (Hkeep eq_refl) as (Hp & Ht & Hr). split.
    * rewrite Hlive. split.
      -- intros (f' & Hf' & Ht'). rewrite Hf in Hf'. injection Hf' as <-.
         eexists. split; [reflexivity | congruence].
      -- intros (f' & Hf' & Ht'). injection Hf' as <-. exists f. split; congruence.
    * intros f' Hf'. injection Hf' as <-. rewrite Hp, Ht, Hr. now split.
- rewrite (get_set_other Nat.eqb Nateqb_spec) by congruence.
  split; [|exact Hrest]. rewrite <- Hlive.
  destruct (unsubscribes r); [|reflexivity].
  rewrite live_unsubscribed, filter_In.
  destruct (Nat.eqb_spec h x); [contradiction|]. simpl. tauto.
Qed.

Lemma lifecycle_handler h e (c : Sys) :
  lifecycle c -> lifecycle (stateOf (handler h e c)).
Proof.
intros Hc. unfold handler. destruct (get Nat.eqb h (heap c)) as [f|] eqn:Hf; [|exact Hc].
change (lifecycle (stateOf (react h (onEvent f e) c))).
apply lifecycle_react; [exact Hc| |];
  destruct (onEvent_cases f e)
    as [(_ & _ & ->)|[(_ & _ & ->)|[(_ & _ & _ & ->)|[(_ & _ & _ & ->)
       |[(_ & _ & _ & ->)|[(_ & _ & _ & _ & ->)|(_ & _ & _ & ->)]]]]]];
  simpl; try (exists f; split; [exact Hf|]); try discriminate; auto.
Qed.

Lemma lifecycle_ext (c c' : Sys) :
  subscribers c' = subscribers c -> heap c' = heap c -> lifecycle c -> lifecycle c'.
Proof. unfold lifecycle. now intros -> ->. Qed.

Lemma lifecycle_timeout h (c : Sys) :
  lifecycle c -> lifecycle (fetchTimeout h c).
Proof.
intros Hc. unfold fetchTimeout.
destruct (get Nat.eqb h (heap c)) as [f|] eqn:Hf; [|exact Hc].
destruct (Hc h) as [_ Hrest]. destruct (Hrest f Hf) as [Harmed Hpending].
apply lifecycle_react; [exact Hc| |]; unfold onTimeout;
  destruct (resolved f) eqn:Hr; simpl; try discriminate.
- exists f. split; [exact Hf|]. intros _.
  destruct (timeout f) eqn:Ht; [|auto].
  destruct (Harmed eq_refl) as [_ H]. congruence.
- exists f. split; [exact Hf|]. discriminate.
- intros _. split; [reflexivity|]. unfold settle. destruct (promise f); discriminate.
Qed.

(** One step keeps the invariant, and does not touch a fetch whose timer
    is off. *)
Lemma lifecycle_step (c c' : Sys) i :
  lifecycle c -> step c i c' ->
  lifecycle c'
  /\ forall h f, get Nat.eqb h (heap c) = Some f -> timeout f = false ->
                 get Nat.eqb h (heap c') = Some f.
Proof.
intros Hc Hstep.
destruct Hstep as [c E|c E|c|c payloads fuel r called E Hrun|c fetched delay rest E
                  |c|c h p session Hfree|c h f Hget Harmed].
- split; [now apply (lifecycle_ext c) | auto].
- split; [|unfold onClose; now destruct (_ && _)].
  apply (lifecycle_ext c); [| |assumption]; unfold onClose; now destruct (_ && _).
- split; [assumption | auto].
- apply (onMessage_invariant Json eventOf
           (fun s => lifecycle s
                     /\ forall h f, get Nat.eqb h (heap c) = Some f -> timeout f = false ->
                                    get Nat.eqb h (heap s) = Some f))
    with (fuel := fuel) (payloads := payloads) (c := c) (called := called);
    [| | |split; [exact Hc | auto]|exact Hrun].
  + intros h e s [Hs Hkept] Hlive. split; [now apply lifecycle_handler|].
    intros x f Hx Hoff. rewrite handler_heap.
    destruct (get Nat.eqb h (heap s)) as [fh|] eqn:Hfh; [|now apply Hkept].
    rewrite (get_set_other Nat.eqb Nateqb_spec); [now apply Hkept|].
    intros <-. apply (Hs h) in Hlive as (f' & Hf' & Ht').
    rewrite (Hkept h f Hx Hoff) in Hf'. congruence.
  + intros s w [Hs Hkept]. split; [now apply (lifecycle_ext s) | exact Hkept].
  + intros s [Hs Hkept]. split; [now apply (lifecycle_ext s) | exact Hkept].
- split; [now apply (lifecycle_ext c) | auto].
- split; [now apply (lifecycle_ext c) | auto].
- split; [now apply lifecycle_getCandles|].
  intros x f Hx Hoff. destruct (getCandles_frame c h p session) as (-> & _).
  rewrite (get_set_other Nat.eqb Nateqb_spec); [assumption | congruence].
- split; [now apply lifecycle_timeout|].
  intros x fx Hx Hoff. unfold fetchTimeout. rewrite Hget, react_heap.
  rewrite (get_set_other Nat.eqb Nateqb_spec); [assumption | congruence].
Qed.

(** X16.  Along any trace of socket events, timers, messages and calls,
    a fetch is subscribed exactly while its 120 s timer is armed, and while
    the timer is armed its promise is pending and the fetch is not marked
    resolved: a settled fetch leaves no handler and no timer behind.  A
    fetch that is pending with its timer off is one marked resolved, its
    finalization having raised at line 132 after lines 125-127; and a
    fetch whose timer is off is never touched again, so that one stays
    pending for ever. *)
Theorem X16_fetch_lifecycle :
  forall events (c c' : Sys),
    lifecycle c -> steps c events c' ->
    lifecycle c'
    /\ forall h f, get Nat.eqb h (heap c) = Some f -> timeout f = false ->
                   get Nat.eqb h (heap c') = Some f.
Proof.
induction events as [|i events IH]; intros c c' Hc Hsteps;
  inversion Hsteps as [|? ? c1 ? ? Hstep Hrest]; subst; [auto|].
destruct (lifecycle_step c c1 i Hc Hstep) as [Hc1 Hkept1].
destruct (IH c1 c' Hc1 Hrest) as [Hc' Hkept].
split; [exact Hc'|]. intros h f Hf Hoff. apply Hkept; auto.
Qed.

(** X17.  Once [close()] has been called, or when [autoReconnect] is off,
    no listener schedules a reconnect, whatever happens: the only reconnect
    timers left are those that were pending before. *)
Theorem X17_no_reconnect_is_scheduled_once_closed :
  forall events (c c' : Sys),
    mayReconnect c = false -> steps c events c' ->
    mayReconnect c' = false
    /\ exists fired, reconnectTimers c' = skipn fired (reconnectTimers c).
Proof.
induction events as [|i events IH]; intros c c' Hc Hsteps;
  inversion Hsteps as [|? ? c1 ? ? Hstep Hrest]; subst.
{ split; [assumption | now exists O]. }
assert (H1 : mayReconnect c1 = false
             /\ (reconnectTimers c1 = reconnectTimers c
                 \/ reconnectTimers c1 = tl (reconnectTimers c))).
{ destruct Hstep as [c E|c E|c|c payloads fuel r called E Hrun|c fetched delay rest E
                    |c|c h p session Hfree|c h f Hget Harmed].
  - split; [exact Hc | now left].
  - unfold onClose. fold (mayReconnect c). rewrite Hc. split; [exact Hc | now left].
  - split; [exact Hc | now left].
  - apply (onMessage_invariant Json eventOf
             (fun s => mayReconnect s = false
                       /\ (reconnectTimers s = reconnectTimers c
                           \/ reconnectTimers s = tl (reconnectTimers c))))
      with (fuel := fuel) (payloads := payloads) (c := c) (called := called);
      [| | |split; [exact Hc | now left]|exact Hrun].
    + intros h e s Hs _. unfold handler.
      destruct (get Nat.eqb h (heap s)); [|exact Hs].
      destruct (react_fields h (onEvent f e) s) as (Ha & Hm & Ht & _).
      unfold mayReconnect. now rewrite Ha, Hm, Ht.
    + intros s w Hs. exact Hs.
    + intros s Hs. exact Hs.
  - split; [exact Hc | now right].
  - split; [|now left]. unfold mayReconnect, close. simpl. apply andb_false_r.
  - destruct (getCandles_frame c h p session) as (_ & _ & Ha & Hm & Ht).
    unfold mayReconnect. rewrite Ha, Hm, Ht. split; [exact Hc | now left].
  - unfold fetchTimeout. rewrite Hget.
    destruct (react_fields h (onTimeout f) c) as (Ha & Hm & Ht & _).
    unfold mayReconnect. rewrite Ha, Hm, Ht. split; [exact Hc | now left]. }
destruct H1 as [Hc1 Htimers].
destruct (IH c1 c' Hc1 Hrest) as [Hc' [fired Hfired]].
split; [exact Hc'|]. destruct Htimers as [Heq|Heq]; rewrite Heq in Hfired.
- now exists fired.
- exists (S fired). rewrite Hfired.
  destruct (reconnectTimers c); [now destruct fired | reflexivity].
Qed.

End Traces.

(** X18.  A dispatch to the subscribers of the fetches always ends,
    although a fetch that finalizes unsubscribes itself in the middle of
    the visit: every subscriber is called at most once, in the order of
    registration, and when no call raises every one of them is called. *)
Theorem X18_dispatch_to_the_fetches_ends :
  forall e (c : Sys) fuel,
    NoDup (live (subscribers c)) -> (length (subscribers c) < fuel)%nat ->
    exists r called later,
      forEach handler fuel e 0 c = Some (r, called)
      /\ live (subscribers c) = called ++ later
      /\ (isThrow r = false -> later = []).
Proof.
intros e c fuel Hnd Hfuel.
destruct (forEach_fetches e (subscribers c) [] c fuel 0%nat)
  as (r & called & later & Hrun & Hl & Hr & _); auto.
now exists r, called, later.
Qed.

(** Before any call the invariant holds for want of fetches. *)
Lemma lifecycle_fresh auto : lifecycle (fresh auto ([] : Closures)).
Proof.
intros h. split; [split|].
- intros [].
- intros (f & Hf & _). discriminate Hf.
- intros f Hf. discriminate Hf.
Qed.

Lemma X16_witness :
  let p := mkParams "X" None None None None in
  let far := mkRawCandle 0 8640000000001 [1; 2; 0; 1; 7] in
  let c0 := getCandles 1 p "cs_a" (onOpen (fresh true [])) in
  let c1 := stateOf (handler 1 (push "cs_a" [far]) c0) in
  let c2 := stateOf (handler 1 (completed "cs_a") c1) in
  (isThrow (handler 1 (completed "cs_a") c1) = true
   /\ promiseOf 1 c2 = Some Pending /\ live (subscribers c2) = [])
  /\ lifecycle c2
  /\ forall h f, get Nat.eqb h (heap (fresh true [])) = Some f -> timeout f = false ->
                 get Nat.eqb h (heap c2) = Some f.
Proof.
cbv zeta. split; [repeat split; vm_compute; reflexivity|].
apply (X16_fetch_lifecycle TradingViewEvent
         (fun d => match d with Parsed e => e | _ => mkEvent "" None end)
         [WsOpen; CallGetCandles 1%nat (mkParams "X" None None None None) "cs_a";
          WsMessage [mkPayload event
                       (Parsed (push "cs_a" [mkRawCandle 0 8640000000001 [1; 2; 0; 1; 7]]));
                     mkPayload event (Parsed (completed "cs_a"))]]
         (fresh true [])).
- apply lifecycle_fresh.
- eapply steps_cons; [apply step_open; reflexivity|].
  eapply steps_cons; [apply step_get; reflexivity|].
  eapply steps_cons; [|apply steps_nil].
  apply (step_message TradingViewEvent
           (fun d => match d with Parsed e => e | _ => mkEvent "" None end) _ _ 2%nat
           (handler 1 (completed "cs_a")
              (stateOf (handler 1 (push "cs_a" [mkRawCandle 0 8640000000001 [1; 2; 0; 1; 7]])
                 (getCandles 1 (mkParams "X" None None None None) "cs_a"
                    (onOpen (fresh true [])))))) [1%nat; 1%nat]);
    [left; reflexivity | vm_compute; reflexivity].
Defined.

Lemma X17_witness :
  let c : Sys := close (onOpen (fresh true [])) in
  mayReconnect (onClose c) = false
  /\ exists fired, reconnectTimers (onClose c) = skipn fired (reconnectTimers c).
Proof.
cbv zeta.
apply (X17_no_reconnect_is_scheduled_once_closed unit (fun _ => completed "cs_a")
         [WsClose] (close (onOpen (fresh true [])))).
- reflexivity.
- eapply steps_cons; [|apply steps_nil].
  apply step_close. right. right. reflexivity.
Defined.

Lemma X18_witness :
  let p := mkParams "X" None None None None in
  let c := getCandles 2 p "cs_b" (getCandles 1 p "cs_a" (onOpen (fresh true []))) in
  exists r called later,
    forEach handler 3 (completed "cs_a") 0 c = Some (r, called)
    /\ live (subscribers c) = called ++ later
    /\ (isThrow r = false -> later = []).
Proof.
cbv zeta.
apply (X18_dispatch_to_the_fetches_ends (completed "cs_a")
         (getCandles 2 (mkParams "X" None None None None) "cs_b"
            (getCandles 1 (mkParams "X" None None None None) "cs_a"
               (onOpen (fresh true [])))) 3%nat).
- repeat constructor; simpl; intuition discriminate.
- simpl. lia.
Defined.

End SystemMore.

(* ------------------------------------------------------------------ *)
(** *** updater.ts: merging and grouping *)

Module UpdaterMore.
Import Candles Outcomes JsFacts Updater.

Section Keyed.
Context {A : Type} (key : A -> Z).

Local Abbreviation step := (fun (m : JsMap Z A) c => set Z.eqb (key c) c m).
Local Abbreviation byTime := (fun a b : A => key a < key b).
Local Abbreviation dedup :=
  (fun l : list A => sort (fun a b => key a - key b) (values (fold_left step l []))).
Local Abbreviation Zeqb_spec := DedupFacts.Zeqb_spec.
Local Abbreviation find_append := DedupFacts.find_append.

Lemma latestBy_cons t c raw :
  latestBy key t (c :: raw) =
  match latestBy key t raw with
  | Some x => Some x
  | None => if key c =? t then Some c else None
  end.
Proof. unfold latestBy. simpl. now rewrite find_append. Qed.

Lemma latestBy_app t a b :
  latestBy key t (a ++ b) =
  match latestBy key t b with Some x => Some x | None => latestBy key t a end.
Proof. unfold latestBy. now rewrite rev_app_distr, find_append. Qed.

Lemma latestBy_Some t raw c :
  latestBy key t raw = Some c -> In c raw /\ key c = t.
Proof.
  unfold latestBy. intros H. apply find_some in H as [Hin Heq].
  split; [now apply in_rev | now apply Z.eqb_eq].
Qed.

Lemma latestBy_None t raw : latestBy key t raw = None <-> ~ In t (map key raw).
Proof.
  unfold latestBy. split.
  - intros H Hin. apply in_map_iff in Hin as [c [Hc Hin]].
    apply in_rev in Hin. apply (find_none _ _ H) in Hin.
    simpl in Hin. apply Z.eqb_neq in Hin. contradiction.
  - intros Hnin. destruct (find _ _) eqn:E; [|reflexivity].
    apply find_some in E as [Hin Heq]. exfalso. apply Hnin.
    apply Z.eqb_eq in Heq. subst t. apply in_map. now apply in_rev.
Qed.

Lemma latestBy_present t raw :
  In t (map key raw) -> exists c, latestBy key t raw = Some c.
Proof.
  intros Hin. destruct (latestBy key t raw) as [c|] eqn:E; [eauto|].
  apply latestBy_None in E. contradiction.
Qed.

(** With one bar per instant, the last bar of an instant is the bar. *)
Lemma latestBy_unique raw c :
  NoDup (map key raw) -> In c raw -> latestBy key (key c) raw = Some c.
Proof.
  induction raw as [|x raw IH]; simpl; [tauto|].
  intros Hnd Hin. inversion Hnd as [|? ? Hnin Hnd']; subst.
  rewrite latestBy_cons. destruct Hin as [->|Hin].
  - assert (latestBy key (key c) raw = None) as -> by now apply latestBy_None.
    now rewrite Z.eqb_refl.
  - now rewrite IH.
Qed.

(** The map built by the [forEach] of line 82. *)
Lemma foldk_keys_NoDup raw m :
  NoDup (keys m) -> NoDup (keys (fold_left step raw m)).
Proof.
  revert m. induction raw as [|c raw IH]; simpl; intros m Hnd; [assumption|].
  apply IH. now apply (NoDup_keys_set Z.eqb Zeqb_spec).
Qed.

Lemma foldk_get raw m t :
  get Z.eqb t (fold_left step raw m) =
  match latestBy key t raw with Some c => Some c | None => get Z.eqb t m end.
Proof.
  revert m. induction raw as [|c raw IH]; simpl; intros m; [reflexivity|].
  rewrite IH, latestBy_cons. destruct (latestBy key t raw); [reflexivity|].
  destruct (Z.eqb_spec (key c) t) as [<-|Hne].
  - apply (get_set_same Z.eqb Zeqb_spec).
  - now apply (get_set_other Z.eqb Zeqb_spec).
Qed.

Lemma foldk_coherent raw m :
  (forall k c, In (k, c) m -> key c = k) ->
  forall k c, In (k, c) (fold_left step raw m) -> key c = k.
Proof.
  revert m. induction raw as [|x raw IH]; simpl; intros m Hm; [assumption|].
  apply IH. clear IH. induction m as [|[k' y] m IHm]; simpl.
  - intros k c [[= <- <-]|[]]. reflexivity.
  - destruct (key x =? k'); simpl.
    + intros k c [[= <- <-]|Hin]; [reflexivity|]. apply Hm. now right.
    + intros k c [[= <- <-]|Hin].
      * apply Hm. now left.
      * apply IHm; [|assumption]. intros; apply Hm. now right.
Qed.

Lemma entries_coherent raw k c :
  In (k, c) (fold_left step raw []) -> key c = k.
Proof. apply foldk_coherent. simpl. tauto. Qed.

Lemma entries_NoDup raw : NoDup (keys (fold_left step raw [])).
Proof. apply foldk_keys_NoDup. constructor. Qed.

Lemma valuesk_times raw :
  map key (values (fold_left step raw [])) = keys (fold_left step raw []).
Proof.
  unfold values, keys. rewrite map_map. apply map_ext_in.
  intros [k c] Hin. simpl. now apply entries_coherent in Hin.
Qed.

Lemma In_valuesk raw c :
  In c (values (fold_left step raw [])) <-> latestBy key (key c) raw = Some c.
Proof.
  unfold values. rewrite in_map_iff. split.
  - intros [[k c'] [Heq Hin]]. simpl in Heq. subst c'.
    pose proof (entries_coherent _ _ _ Hin) as <-.
    apply (In_get Z.eqb Zeqb_spec) in Hin; [|apply entries_NoDup].
    rewrite foldk_get in Hin.
    destruct (latestBy key (key c) raw); [assumption | discriminate].
  - intros Hlast. exists (key c, c). split; [reflexivity|].
    apply (get_In Z.eqb Zeqb_spec).
    now rewrite foldk_get, Hlast.
Qed.

(** A bar is kept exactly when it is the last one of its instant. *)
Lemma In_dedup raw c :
  In c (dedup raw) <-> latestBy key (key c) raw = Some c.
Proof.
  rewrite <- In_valuesk. split; intros H.
  - eapply Permutation_in; [apply (sort_perm key)|exact H].
  - eapply Permutation_in; [symmetry; apply (sort_perm key)|exact H].
Qed.

Lemma dedup_times_NoDup raw : NoDup (map key (dedup raw)).
Proof.
  eapply Permutation_NoDup.
  - symmetry. apply Permutation_map. apply (sort_perm key).
  - rewrite valuesk_times. apply entries_NoDup.
Qed.

Lemma sortedk_NoDup_strict (l : list A) :
  StronglySorted (fun a b => key a <= key b) l -> NoDup (map key l) ->
  StronglySorted byTime l.
Proof.
  induction 1 as [|x l Hs IH Hall]; simpl; intros Hnd; [constructor|].
  inversion Hnd as [|? ? Hnin Hnd']; subst.
  constructor; [auto|].
  rewrite Forall_forall in *. intros y Hy.
  assert (key x <> key y) by (intros E; apply Hnin; rewrite E; now apply in_map).
  specialize (Hall y Hy). simpl in Hall. lia.
Qed.

Lemma dedup_sorted raw : StronglySorted byTime (dedup raw).
Proof.
  apply sortedk_NoDup_strict; [|apply dedup_times_NoDup].
  apply (sort_sorted key).
Qed.

Lemma strictk_NoDup (l : list A) :
  StronglySorted byTime l -> NoDup (map key l).
Proof.
  induction 1 as [|x l Hs IH Hall]; simpl; constructor; [|assumption].
  rewrite Forall_forall in Hall. intros Hin.
  apply in_map_iff in Hin as [y [Heq Hy]]. apply Hall in Hy. lia.
Qed.

Lemma In_times_dedup raw t :
  In t (map key (dedup raw)) <-> In t (map key raw).
Proof.
  rewrite !in_map_iff. split.
  - intros [c [Ht Hc]]. apply In_dedup in Hc.
    apply latestBy_Some in Hc as [Hin _]. eauto.
  - intros [c [Ht Hc]]. destruct (latestBy_present t raw) as [c' Hc'].
    { rewrite <- Ht. now apply in_map. }
    pose proof (latestBy_Some _ _ _ Hc') as [_ Ht'].
    exists c'. split; [assumption|]. apply In_dedup. now rewrite Ht'.
Qed.

Lemma latestBy_dedup raw t :
  latestBy key t (dedup raw) = latestBy key t raw.
Proof.
  destruct (latestBy key t raw) as [c|] eqn:E.
  - pose proof (latestBy_Some _ _ _ E) as [_ <-].
    apply latestBy_unique; [apply dedup_times_NoDup|].
    now apply In_dedup.
  - apply latestBy_None. rewrite In_times_dedup.
    now apply latestBy_None.
Qed.

(** Sorting and deduplicating what is already so changes nothing. *)
Lemma dedup_fixed l : StronglySorted byTime l -> dedup l = l.
Proof.
  intros Hs. apply (strictly_sorted_ext key); [apply dedup_sorted|exact Hs|].
  intros c. rewrite In_dedup. split.
  - intros H. now apply latestBy_Some in H.
  - intros H. apply latestBy_unique; [now apply strictk_NoDup | exact H].
Qed.

Lemma dedup_idem raw : dedup (dedup raw) = dedup raw.
Proof. apply dedup_fixed, dedup_sorted. Qed.

(** Deduplicating between two pushes does not change the final result. *)
Lemma dedup_absorb a b :
  dedup (a ++ dedup b) = dedup (a ++ b).
Proof.
  apply (strictly_sorted_ext key); try apply dedup_sorted.
  intros c. rewrite !In_dedup, !latestBy_app, latestBy_dedup.
  reflexivity.
Qed.

End Keyed.

Local Abbreviation ascending := (fun a b : Candle => timestamp a < timestamp b).

Lemma mergeCandles_dedup old newer :
  mergeCandles old newer
  = sort (fun a b => timestamp a - timestamp b)
         (values (fold_left (fun (m : JsMap Z Candle) c => set Z.eqb (timestamp c) c m)
                            (old ++ newer) [])).
Proof. unfold mergeCandles. now rewrite fold_left_app. Qed.

Lemma In_mergeCandles old newer c :
  In c (mergeCandles old newer)
  <-> latestBy timestamp (timestamp c) (old ++ newer) = Some c.
Proof. rewrite mergeCandles_dedup. apply (In_dedup timestamp). Qed.

Lemma mergeCandles_sorted old newer : StronglySorted ascending (mergeCandles old newer).
Proof. rewrite mergeCandles_dedup. apply (dedup_sorted timestamp). Qed.

(** X19.  [mergeCandles] returns the bars in strictly ascending order of
    timestamp, one bar per timestamp of either list and no other; of the
    bars of one timestamp it keeps the one standing last, so a bar of
    [newer] replaces every bar of [old] with its timestamp. *)
Theorem X19_merge_prefers_the_newer_bars :
  forall old newer,
    StronglySorted ascending (mergeCandles old newer)
    /\ (forall t, In t (map timestamp (mergeCandles old newer))
                  <-> In t (map timestamp old) \/ In t (map timestamp newer))
    /\ (forall c, In c (mergeCandles old newer)
                  <-> latestBy timestamp (timestamp c) (old ++ newer) = Some c)
    /\ (forall c, In c (mergeCandles old newer) ->
                  In (timestamp c) (map timestamp newer) -> In c newer).
Proof.
intros old newer. split; [apply mergeCandles_sorted|]. split; [|split].
- intros t. rewrite mergeCandles_dedup, (In_times_dedup timestamp), map_app.
  apply in_app_iff.
- intros c. apply In_mergeCandles.
- intros c Hin Ht. apply In_mergeCandles in Hin.
  rewrite (latestBy_app timestamp) in Hin.
  destruct (latestBy_present timestamp _ _ Ht) as [c' Hc']. rewrite Hc' in Hin.
  injection Hin as ->. now apply (latestBy_Some timestamp) in Hc'.
Qed.

(** X20.  Updates compose: merging [b] and then [c] into [a] is merging
    [b ++ c] into [a]; merging the same bars again, or nothing, into a
    merged list leaves it as it is. *)
Theorem X20_merges_compose :
  forall a b c,
    mergeCandles (mergeCandles a b) c = mergeCandles a (b ++ c)
    /\ mergeCandles (mergeCandles a b) b = mergeCandles a b
    /\ mergeCandles (mergeCandles a b) [] = mergeCandles a b.
Proof.
assert (Hcompose : forall a b c,
           mergeCandles (mergeCandles a b) c = mergeCandles a (b ++ c)).
{ intros a b c. apply (strictly_sorted_ext timestamp); try apply mergeCandles_sorted.
  intros x. rewrite !In_mergeCandles, app_assoc, !(latestBy_app timestamp _ _ c).
  destruct (latestBy timestamp (timestamp x) c); [reflexivity|].
  rewrite mergeCandles_dedup. now rewrite (latestBy_dedup timestamp). }
intros a b c. split; [apply Hcompose|]. split.
- rewrite Hcompose. apply (strictly_sorted_ext timestamp); try apply mergeCandles_sorted.
  intros x. rewrite !In_mergeCandles, app_assoc, !(latestBy_app timestamp _ _ b).
  now destruct (latestBy timestamp (timestamp x) b).
- rewrite Hcompose. now rewrite app_nil_r.
Qed.

Section Groups.
Context {K : Type} (eqb : K -> K -> bool) (keyOf : Candle -> K).
Hypothesis eqb_spec : forall a b, eqb a b = true <-> a = b.

Local Abbreviation add :=
  (fun (groups : JsMap K (list Candle)) c =>
     match get eqb (keyOf c) groups with
     | Some group => set eqb (keyOf c) (group ++ [c]) groups
     | None => set eqb (keyOf c) [c] groups
     end).

Lemma groupBy_snoc l c : groupBy eqb keyOf (l ++ [c]) = add (groupBy eqb keyOf l) c.
Proof. unfold groupBy. now rewrite fold_left_app. Qed.

Lemma concat_set (m : JsMap K (list Candle)) k c :
  Permutation
    (concat (values (match get eqb k m with
                     | Some group => set eqb k (group ++ [c]) m
                     | None => set eqb k [c] m
                     end)))
    (concat (values m) ++ [c]).
Proof.
induction m as [|[k' g] m IH]; simpl; [reflexivity|].
destruct (eqb k k') eqn:E; simpl.
- rewrite <- !app_assoc. apply Permutation_app_head. apply Permutation_app_comm.
- rewrite <- app_assoc.
  destruct (get eqb k m); simpl; apply Permutation_app_head; exact IH.
Qed.

(** X21.  [groupByYear] and [groupByMonth] partition the bars: the group
    of a key holds the bars of that key, all of them, in the order of the
    input; a key without a bar has no group; no key has two groups; and the
    groups together hold the bars of the input, each as often as it came. *)
Theorem X21_groups_partition_the_bars :
  forall candles,
    (forall k, get eqb k (groupBy eqb keyOf candles)
               = match filter (fun c => eqb (keyOf c) k) candles with
                 | [] => None
                 | group => Some group
                 end)
    /\ NoDup (keys (groupBy eqb keyOf candles))
    /\ Permutation (concat (values (groupBy eqb keyOf candles))) candles.
Proof.
induction candles as [|c l IH] using rev_ind.
- split; [reflexivity|]. split; [constructor | reflexivity].
- destruct IH as (Hget & Hnd & Hperm). rewrite groupBy_snoc. split; [|split].
  + intros k. rewrite filter_app. simpl.
    destruct (eqb (keyOf c) k) eqn:E.
    * apply eqb_spec in E. subst k. rewrite Hget.
      destruct (filter _ l) as [|x g]; simpl;
        rewrite (get_set_same eqb eqb_spec); reflexivity.
    * assert (Hne : keyOf c <> k) by (intros H; apply eqb_spec in H; congruence).
      rewrite app_nil_r, <- Hget.
      destruct (get eqb (keyOf c) (groupBy eqb keyOf l));
        now apply (get_set_other eqb eqb_spec).
  + destruct (get eqb (keyOf c) (groupBy eqb keyOf l));
      now apply (NoDup_keys_set eqb eqb_spec).
  + rewrite concat_set. now apply Permutation_app_tail.
Qed.

End Groups.

Lemma X21_witness :
  let candles := map bar [mkRawCandle 0 60 [1]; mkRawCandle 1 7260 [2];
                               mkRawCandle 2 120 [3]] in
  let keyOf := fun c => timestamp c / 3600 in
  (forall k, get Z.eqb k (groupBy Z.eqb keyOf candles)
             = match filter (fun c => keyOf c =? k) candles with
               | [] => None
               | group => Some group
               end)
  /\ NoDup (keys (groupBy Z.eqb keyOf candles))
  /\ Permutation (concat (values (groupBy Z.eqb keyOf candles))) candles.
Proof.
cbv zeta.
apply (X21_groups_partition_the_bars Z.eqb (fun c => timestamp c / 3600) Z.eqb_eq).
Defined.

End UpdaterMore.

(* ------------------------------------------------------------------ *)
(** *** cli.ts and the flat updater: file names *)

Module NamesMore.
Import Codec Candles Updater Cli.

(** X22.  No two timeframes share a file name, and the command line and
    the flat updater give a timeframe the same name: two timeframes named
    alike by the command line are one timeframe, which the updater names
    the same way. *)
Theorem X22_timeframes_have_distinct_file_names :
  forall tf1 tf2,
    formatTimeframeForFile tf1 = formatTimeframeForFile tf2 ->
    tf1 = tf2 /\ timeframeName tf1 = formatTimeframeForFile tf2.
Proof.
intros tf1 tf2. destruct tf1, tf2; vm_compute; intros H;
  try discriminate H; split; reflexivity.
Qed.

Lemma filter_fixed {A} (p : A -> bool) l : Forall (fun x => p x = true) l -> filter p l = l.
Proof.
induction 1 as [|x l Hx _ IH]; simpl; [reflexivity|]. now rewrite Hx, IH.
Qed.

(** X23.  The directory name made of a symbol holds none of the
    characters [/ : ! ? .], is no longer than the symbol, and is left as
    it is when cleaned again. *)
Theorem X23_directory_name_is_clean :
  forall symbol,
    Forall (fun u => ~ In u [47; 58; 33; 63; 46]%N) (symbolClean symbol)
    /\ (length (symbolClean symbol) <= length symbol)%nat
    /\ symbolClean (symbolClean symbol) = symbolClean symbol.
Proof.
intros symbol.
assert (Hclean : Forall (fun u => ~ In u [47; 58; 33; 63; 46]%N) (symbolClean symbol)).
{ unfold symbolClean. apply Forall_forall. intros u Hu.
  apply filter_In in Hu as [Hin Hkeep]. apply in_map_iff in Hin as (x & Hx & _).
  apply negb_true_iff in Hkeep. apply orb_false_iff in Hkeep as [Hkeep H46].
  apply orb_false_iff in Hkeep as [H33 H63].
  apply N.eqb_neq in H33, H63, H46.
  assert (u <> 47%N /\ u <> 58%N) as [H47 H58].
  { destruct (N.eqb_spec x 47) as [E47|N47]; [subst u; split; discriminate|].
    destruct (N.eqb_spec x 58) as [E58|N58]; [subst u; split; discriminate|].
    simpl in Hx. subst u. now split. }
  simpl. intuition congruence. }
split; [exact Hclean|]. split.
- unfold symbolClean.
  eapply Nat.le_trans; [apply filter_length_le | now rewrite length_map].
- unfold symbolClean at 1.
  assert (Hmap : map (fun u => if ((u =? 47) || (u =? 58))%N then 95%N else u)
                     (symbolClean symbol) = symbolClean symbol).
  { rewrite <- (map_id (symbolClean symbol)) at 2. apply map_ext_in.
    intros u Hu. rewrite Forall_forall in Hclean. specialize (Hclean u Hu).
    destruct (N.eqb_spec u 47) as [->|_]; [exfalso; apply Hclean; simpl; auto|].
    destruct (N.eqb_spec u 58) as [->|_]; [exfalso; apply Hclean; simpl; auto|].
    reflexivity. }
  rewrite Hmap. apply filter_fixed.
  eapply Forall_impl; [|exact Hclean]. intros u Hu. simpl in Hu.
  apply negb_true_iff. apply orb_false_iff. split; [apply orb_false_iff; split|];
    apply N.eqb_neq; intros ->; apply Hu; auto 6.
Qed.

Lemma X22_witness :
  TF1 = TF1 /\ timeframeName TF1 = formatTimeframeForFile TF1.
Proof. apply (X22_timeframes_have_distinct_file_names TF1 TF1). reflexivity. Defined.

End NamesMore.

(* ------------------------------------------------------------------ *)
(** *** connection.ts: identifiers, the token and the promise of [connect] *)

Module ConnectMore.
Import Codec Candles Connection Connect.

Lemma chars_NoDup : NoDup chars.
Proof.
assert (H : nodup N.eq_dec chars = chars) by (vm_compute; reflexivity).
rewrite <- H. apply NoDup_nodup.
Qed.

Lemma chars_length : length chars = 62%nat.
Proof. reflexivity. Qed.

Lemma randomFrom_draws random : (forall i, (random i < 62)%nat) ->
  forall n i, randomFrom random i n = map (fun k => nth (random k) chars 0%N) (seq i n).
Proof.
intros Hr. induction n as [|n IH]; intros i; [reflexivity|].
change (randomFrom random i (S n))
  with (charAt chars (random i) ++ randomFrom random (S i) n).
rewrite IH. cbn [seq map]. unfold charAt.
destruct (nth_error chars (random i)) as [u|] eqn:E.
- now rewrite (nth_error_nth _ _ _ E).
- apply nth_error_None in E. rewrite chars_length in E. specialize (Hr i). lia.
Qed.

(** X24.  With every draw below 62, as [Math.floor(Math.random() * 62)]
    is: [randomString(n)] has [n] characters, all of them letters and
    digits of [chars]; a chart session identifier has 15; and two strings
    are equal only if they were made of the same draws. *)
Theorem X24_random_strings :
  forall n (random random' : nat -> nat),
    (forall i, (random i < 62)%nat) -> (forall i, (random' i < 62)%nat) ->
    length (randomString n random) = n
    /\ Forall (fun u => In u chars) (randomString n random)
    /\ length (generateChartSession random) = 15%nat
    /\ (randomString n random = randomString n random' ->
        forall i, (i < n)%nat -> random i = random' i).
Proof.
intros n random random' Hr Hr'. unfold generateChartSession, randomString.
rewrite !(randomFrom_draws random Hr), (randomFrom_draws random' Hr').
split; [now rewrite length_map, length_seq|]. split; [|split].
- apply Forall_forall. intros u Hu. apply in_map_iff in Hu as (k & <- & _).
  apply nth_In. rewrite chars_length. apply Hr.
- rewrite length_app, length_map, length_seq. reflexivity.
- intros Heq i Hi.
  assert (Hnth : nth (random i) chars 0%N = nth (random' i) chars 0%N).
  { assert (Hin : In i (seq 0 n)) by (apply in_seq; lia).
    revert Heq Hin. generalize (seq 0 n). intros l. induction l as [|k l IH]; simpl;
      [tauto|].
    intros Heq [->|Hin]; injection Heq as H1 H2; auto. }
  apply (proj1 (NoDup_nth chars 0%N) chars_NoDup); rewrite ?chars_length; auto.
Qed.

Section Promise.
Variable Heap : Type.

Lemma onSignal_settled (k : Connecting Heap) s :
  connectPromise k <> Pending -> connectPromise (onSignal k s) = connectPromise k.
Proof.
intros Hp. destruct s; simpl.
- destruct (resolveConnection (conn k)); [|reflexivity].
  unfold settle. now destruct (connectPromise k).
- destruct (negb _ && _); [|reflexivity].
  simpl. unfold settle. now destruct (connectPromise k).
- unfold settle. now destruct (connectPromise k).
Qed.

Lemma onSignals_settled l : forall k : Connecting Heap,
  connectPromise k <> Pending -> connectPromise (onSignals k l) = connectPromise k.
Proof.
induction l as [|s l IH]; intros k Hp; [reflexivity|].
change (onSignals k (s :: l)) with (onSignals (onSignal k s) l).
rewrite IH; rewrite onSignal_settled; auto.
Qed.

(** X25.  The promise of [connect] is decided by whichever comes first of
    the session frame, the 30 s timer and an error of the socket, and by
    nothing after it: a session established after an error or after the
    timer leaves the promise rejected. *)
Theorem X25_first_signal_decides_connect :
  forall auto (h : Heap) s rest,
    connectPromise (onSignals (connectStart auto h) (s :: rest))
    = match s with
      | SessionFrame => Fulfilled tt
      | ConnectTimer => Rejected connectTimeoutMessage
      | SocketError error => Rejected error
      end.
Proof.
intros auto h s rest.
change (onSignals (connectStart auto h) (s :: rest))
  with (onSignals (onSignal (connectStart auto h) s) rest).
rewrite onSignals_settled; destruct s; simpl; try reflexivity; discriminate.
Qed.

End Promise.

Lemma stripPrefix_app p s : stripPrefix p (p ++ s) = Some s.
Proof.
induction p as [|a p IH]; [reflexivity|].
cbn [app stripPrefix]. now rewrite N.eqb_refl.
Qed.

Lemma untilQuote_stops t : forall group after,
  Forall (fun u => u <> 34%N /\ isLineTerminator u = false) t ->
  untilQuote group (t ++ 34%N :: after) = Some (group ++ t).
Proof.
induction t as [|u t IH]; intros group after Ht.
- cbn [app untilQuote]. rewrite N.eqb_refl. now rewrite app_nil_r.
- inversion Ht as [|? ? [Hq Hl] Ht']; subst.
  cbn [app untilQuote]. apply N.eqb_neq in Hq. rewrite Hq, Hl.
  rewrite IH by assumption. now rewrite <- app_assoc.
Qed.

Lemma matchAuthToken_step x rest :
  matchAuthToken (x :: rest)
  = match stripPrefix authKey (x :: rest) with
    | Some after =>
        match lazyGroup after with
        | Some group => Some group
        | None => matchAuthToken rest
        end
    | None => matchAuthToken rest
    end.
Proof. reflexivity. Qed.

Lemma lazyGroup_nonempty s group : lazyGroup s = Some group -> group <> [].
Proof.
destruct s as [|c s]; [discriminate|]. unfold lazyGroup.
destruct (isLineTerminator c); [discriminate|].
assert (H : forall s g, g <> [] -> untilQuote g s = Some group -> group <> []).
{ clear. induction s as [|u s IH]; intros g Hg; [discriminate|]. cbn [untilQuote].
  destruct (u =? 34)%N; [congruence|].
  destruct (isLineTerminator u); [discriminate|].
  apply IH. now destruct g. }
apply H. discriminate.
Qed.

Lemma matchAuthToken_nonempty html group :
  matchAuthToken html = Some group -> group <> [].
Proof.
induction html as [|x rest IH]; [discriminate|].
rewrite matchAuthToken_step.
destruct (stripPrefix authKey (x :: rest)) as [after|]; [|exact IH].
destruct (lazyGroup after) as [g|] eqn:E; [|exact IH].
intros H. injection H as <-. exact (lazyGroup_nonempty _ _ E).
Qed.

(** X26.  [getAuthToken] returns the text between the first occurrence of
    the key of line 97 in the page and the next quote, when that text
    has a first character, which may be a quote, holds no other quote and
    no line terminator; and whatever the page is, or when the request
    fails, the token it returns is not the empty string. *)
Theorem X26_auth_token_is_extracted :
  forall before c t after,
    isLineTerminator c = false ->
    Forall (fun u => u <> 34%N /\ isLineTerminator u = false) t ->
    (forall p, (p < length before)%nat ->
       stripPrefix authKey (skipn p (before ++ authKey ++ (c :: t) ++ 34%N :: after))
       = None) ->
    getAuthToken (Some (before ++ authKey ++ (c :: t) ++ 34%N :: after)) = c :: t
    /\ forall response, getAuthToken response <> [].
Proof.
intros before c t after Hc Ht Hfirst. split.
- unfold getAuthToken.
  assert (matchAuthToken (before ++ authKey ++ (c :: t) ++ 34%N :: after)
          = Some (c :: t)) as ->; [|reflexivity].
  induction before as [|b before IH].
  + change ([] ++ authKey ++ (c :: t) ++ 34%N :: after)
      with (34%N :: (lit "auth_token" ++ [34; 58; 34]%N)
                    ++ (c :: t) ++ 34%N :: after).
    rewrite matchAuthToken_step.
    change (34%N :: (lit "auth_token" ++ [34; 58; 34]%N) ++ (c :: t) ++ 34%N :: after)
      with (authKey ++ (c :: t) ++ 34%N :: after).
    rewrite stripPrefix_app. cbn [app lazyGroup]. rewrite Hc.
    now rewrite (untilQuote_stops t [c] after Ht).
  + change ((b :: before) ++ authKey ++ (c :: t) ++ 34%N :: after)
      with (b :: (before ++ authKey ++ (c :: t) ++ 34%N :: after)).
    rewrite matchAuthToken_step.
    assert (H0 := Hfirst O ltac:(simpl; lia)).
    change (skipn 0 ((b :: before) ++ authKey ++ (c :: t) ++ 34%N :: after))
      with (b :: (before ++ authKey ++ (c :: t) ++ 34%N :: after)) in H0.
    rewrite H0. apply IH. intros p Hp.
    apply (Hfirst (S p)). simpl. lia.
- intros [html|]; unfold getAuthToken; [|discriminate].
  destruct (matchAuthToken html) as [group|] eqn:E; [|discriminate].
  exact (matchAuthToken_nonempty html group E).
Qed.

Lemma X24_witness :
  let random := fun i => ((7 * i) mod 62)%nat in
  let random' := fun i => ((5 * i + 3) mod 62)%nat in
  length (randomString 12 random) = 12%nat
  /\ Forall (fun u => In u chars) (randomString 12 random)
  /\ length (generateChartSession random) = 15%nat
  /\ (randomString 12 random = randomString 12 random' ->
      forall i, (i < 12)%nat -> random i = random' i).
Proof.
cbv zeta.
apply (X24_random_strings 12 (fun i => ((7 * i) mod 62)%nat)
         (fun i => ((5 * i + 3) mod 62)%nat));
  intros i; apply Nat.mod_upper_bound; lia.
Defined.

Lemma X26_witness :
  let before := lit "<script>var user = {" in
  let after := lit "};</script>" in
  getAuthToken (Some (before ++ authKey ++ lit "eyJhbGci" ++ 34%N :: after))
  = lit "eyJhbGci"
  /\ forall response, getAuthToken response <> [].
Proof.
cbv zeta.
apply (X26_auth_token_is_extracted (lit "<script>var user = {") 101%N (lit "yJhbGci")
         (lit "};</script>")).
- reflexivity.
- repeat constructor; discriminate.
- intros p Hp. do 20 (destruct p as [|p]; [reflexivity|]). simpl in Hp. lia.
Defined.

End ConnectMore.

(* ------------------------------------------------------------------ *)
(** *** The pagination engine: a bound on the follow-up requests *)

Module BoundMore.
Import Candles Outcomes JsFacts DedupFacts HandlerFacts.

(** Piling a batch in front never loses a timestamp. *)
Lemma observedLength_pile f e :
  (observedLength f <= observedLength (withRaw f (pile (rawCandles f) e)))%nat.
Proof.
unfold observedLength, pile. simpl.
destruct (name e =? "timescale_update")%string; [|lia].
destruct (seriesData e) as [[batch|]|]; try lia.
rewrite <- (length_map v0 (uniqueSorted (rawCandles f))).
rewrite <- (length_map v0 (uniqueSorted (batch ++ rawCandles f))).
apply NoDup_incl_length; [apply uniqueSorted_times_NoDup|].
intros t Ht. apply (proj1 (In_times_uniqueSorted _ _)) in Ht.
apply (proj2 (In_times_uniqueSorted _ _)).
rewrite map_app. apply in_or_app. now right.
Qed.

(** What asking for more means for a request driven by its amount. *)
Lemma wantsMore_amount f a :
  amount (request f) = Some a -> truthy (from (request f)) = false ->
  wantsMore f = true ->
  Z.of_nat (observedLength f) < a /\ (nextStall f <= 2)%nat.
Proof.
intros Ha Hfrom Hw. split; [|now apply PaginationMore.wantsMore_stall].
unfold wantsMore, needMore in Hw. rewrite Ha in Hw.
assert (Hex : match from (request f), hd_error (uniqueSorted (rawCandles f)) with
              | Some fr, Some c => truthy (Some fr) && (fr <? v0 c)
              | _, _ => false
              end = false).
{ destruct (from (request f)) as [fr|]; [|reflexivity].
  rewrite Hfrom. now destruct (hd_error _). }
rewrite Hex in Hw.
destruct (truthy (Some a) && (Z.of_nat (observedLength f) <? a)) eqn:E; [|discriminate].
apply andb_true_iff in E as [_ E]. now apply Z.ltb_lt.
Qed.

(** X27.  A fetch driven by a positive [amount], without [from], sends
    at most [3 * (amount - 1)] follow-up requests, whatever the service
    sends and however long it goes on: every request but the first follows
    a completion that either brought a new timestamp, of which fewer than
    [amount] are wanted, or was one of at most two stalls in a row. *)
Theorem X27_amount_bounds_the_requests :
  forall events p session a,
    amount p = Some a -> 0 < a -> truthy (from p) = false ->
    (requestsForMore (sent (feed (start p session) events))
     <= 3 * (Z.to_nat a - 1))%nat.
Proof.
intros events p session a Ha Hpos Hfrom.
assert (H : forall events f,
           request f = p ->
           (lastLength f <= observedLength f)%nat ->
           ((0 < requestCount f)%nat ->
            (requestCount f + 2 <= 3 * lastLength f + stallCount f)%nat
            /\ Z.of_nat (lastLength f) < a /\ (stallCount f <= 2)%nat) ->
           (requestCount f + requestsForMore (sent (feed f events))
            <= 3 * (Z.to_nat a - 1))%nat).
{ clear events. induction events as [|e events IH]; intros f Hreq Hmono Hcount.
  - simpl. unfold requestsForMore. simpl.
    destruct (requestCount f) as [|n] eqn:Hn; [lia|].
    destruct Hcount as (H1 & H2 & H3); lia.
  - assert (Hbound : (requestCount f <= 3 * (Z.to_nat a - 1))%nat).
    { destruct (requestCount f) as [|n] eqn:Hn; [lia|].
      destruct Hcount as (H1 & H2 & H3); lia. }
    cbn [feed].
    destruct (onEvent_cases f e)
      as [(_ & _ & ->)|[(_ & _ & ->)|[(_ & Hw & Hraw & ->)|[(_ & _ & _ & ->)
         |[(_ & _ & _ & ->)|[(_ & _ & _ & _ & ->)|(_ & _ & _ & ->)]]]]]];
      cbn [outcome unsubscribes sends stay sent final app];
      try (unfold requestsForMore; simpl; lia).
    + specialize (IH (withRaw f (pile (rawCandles f) e))). simpl in IH.
      apply IH; [assumption| |assumption].
      eapply Nat.le_trans; [exact Hmono | apply observedLength_pile].
    + assert (Hreq' : amount (request f) = Some a) by now rewrite Hreq.
      assert (Hfrom' : truthy (from (request f)) = false) by now rewrite Hreq.
      destruct (wantsMore_amount f a Hreq' Hfrom' Hw) as [Hlt Hstall].
      assert (Hobs : (0 < observedLength f)%nat).
      { unfold oldest in Hraw. unfold observedLength.
        destruct (uniqueSorted (rawCandles f)); [discriminate Hraw | simpl; lia]. }
      specialize (IH (asksMore f)).
      assert (Hsame : observedLength (asksMore f) = observedLength f).
      { unfold observedLength, asksMore. simpl. now rewrite uniqueSorted_idem. }
      unfold requestsForMore in *. simpl in IH |- *.
      rewrite Nat.add_succ_r. apply IH; [assumption| |].
      * rewrite Hsame. apply Nat.le_refl.
      * intros _. split; [|split; assumption].
        unfold nextStall in *.
        destruct (requestCount f) as [|n] eqn:Hn; simpl in *; [lia|].
        destruct Hcount as (H1 & H2 & H3); [lia|].
        destruct (Nat.eqb_spec (observedLength f) (lastLength f)); lia. }
apply (H events (start p session)); simpl; try reflexivity; lia.
Qed.

Lemma X27_witness :
  let p := mkParams "X" None (Some 2) None None in
  let bar := mkRawCandle 0 60 [1; 2; 0; 1; 7] in
  let events := [push "cs" [bar]; completed "cs"; completed "cs"; completed "cs";
                 completed "cs"] in
  (requestsForMore (sent (feed (start p "cs") events)) <= 3 * (Z.to_nat 2 - 1))%nat.
Proof.
cbv zeta.
apply (X27_amount_bounds_the_requests
         [push "cs" [mkRawCandle 0 60 [1; 2; 0; 1; 7]]; completed "cs"; completed "cs";
          completed "cs"; completed "cs"]
         (mkParams "X" None (Some 2) None None) "cs" 2); [reflexivity | lia | reflexivity].
Defined.

End BoundMore.
